(** * FHEVM Example Hub: the scaffolding and documentation scripts

    A shallow embedding of [scripts/create-example.ts],
    [scripts/generate-docs.ts] and [scripts/create-category.ts], and the
    properties of their observable behaviour.

    Conventions of the embedding.
    - A JavaScript string is a list of characters ([str]).  The character
      type is [ascii]; case conversion, [trim] and the regular-expression
      classes act on the 7-bit range and leave every other character alone,
      as JavaScript does on 7-bit texts ([ascii_text] below); the properties
      of file names and of whole documentation runs are stated for such
      texts.
    - An object used as a lookup table is the association list of its own
      entries, enumerated in the order in which the keys were first set
      (the order of [Object.keys] and [Object.entries] for keys that are not
      array indices).  A lookup [table[key]] in one of the two catalogs
      finds an own entry or, failing that, a property inherited from
      [Object.prototype]; the scripts then go on with a value that has none
      of the fields of an entry, until a [TypeError] ends the run.
    - A file-system path is the list of its segments; [path.join] appends
      segments and resolves [.] and [..].
    - The scripts' effects (files, directories, console, [process.exit],
      an exception that nothing catches) are threaded through a small state
      monad.  The calls of the file system are embedded as they act when
      they succeed: a directory is made with its ancestors, a file is stored
      at its path.  Where [fs.mkdirSync] or [fs.writeFileSync] would throw
      (a regular file in the place of a directory, a directory in the place
      of a file, a file to write in a directory that does not exist) the
      embedding goes on; the properties of runs that write are therefore
      stated for worlds with room for the run ([room_for] below), in which no
      call of the run throws. *)

From stdpp Require Import gmap strings list.
From Stdlib Require Import Ascii String.

Local Open Scope list_scope.

(** ** Strings *)

Definition str := list ascii.

Definition lit (s : string) : str := list_ascii_of_string s.
Coercion lit : string >-> str.

Notation "a +++ b" := (@app ascii (a : str) (b : str))
  (at level 60, right associativity).

(** Characters that string literals cannot carry directly. *)
Definition dq : str := ["034"%char].
Definition bq : str := ["096"%char].
Definition nl : ascii := "010"%char.

Definition char_in_range (lo hi : nat) (c : ascii) : bool :=
  (lo <=? nat_of_ascii c) && (nat_of_ascii c <=? hi).

Definition is_lower (c : ascii) : bool := char_in_range 97 122 c.
Definition is_upper (c : ascii) : bool := char_in_range 65 90 c.
Definition is_digit (c : ascii) : bool := char_in_range 48 57 c.

(** [String.prototype.toUpperCase] / [toLowerCase], one character. *)
Definition upper_char (c : ascii) : ascii :=
  if is_lower c then ascii_of_nat (nat_of_ascii c - 32) else c.
Definition lower_char (c : ascii) : ascii :=
  if is_upper c then ascii_of_nat (nat_of_ascii c + 32) else c.

Definition toUpperCase (s : str) : str := map upper_char s.
Definition toLowerCase (s : str) : str := map lower_char s.

(** [s.charAt(0)]: the one-character string at index 0, or the empty
    string. *)
Definition charAt0 (s : str) : str :=
  match s with [] => [] | c :: _ => [c] end.

(** [s.slice(1)]. *)
Definition slice1 (s : str) : str := tail s.

(** [s.split(sep)] for a one-character separator. *)
Fixpoint split (sep : ascii) (s : str) : list str :=
  match s with
  | [] => [[]]
  | c :: s' =>
      if decide (c = sep) then [] :: split sep s'
      else match split sep s' with
           | w :: ws => (c :: w) :: ws
           | [] => [[c]]
           end
  end.

(** [parts.join(sep)]. *)
Fixpoint join (sep : str) (parts : list str) : str :=
  match parts with
  | [] => []
  | [w] => w
  | w :: ws => w ++ sep ++ join sep ws
  end.

(** [s.startsWith(p)], and the text after the prefix. *)
Fixpoint strip_prefix (p s : str) : option str :=
  match p, s with
  | [], _ => Some s
  | a :: p', b :: s' => if decide (a = b) then strip_prefix p' s' else None
  | _ :: _, [] => None
  end.

Definition startsWith (s p : str) : bool := bool_decide (is_Some (strip_prefix p s)).

(** [s.includes(sub)]. *)
Fixpoint includes (s sub : str) : bool :=
  match strip_prefix sub s with
  | Some _ => true
  | None => match s with [] => false | _ :: s' => includes s' sub end
  end.

(** [s.endsWith(suffix)]. *)
Definition endsWith (s suffix : str) : bool :=
  bool_decide (drop (List.length s - List.length suffix) s = suffix).

(** ** create-example.ts: the naming transform *)

(** The callback of [map] in [convertToCamelCase]:
    [word.charAt(0).toUpperCase() + word.slice(1)]. *)
Definition capitalize (word : str) : str :=
  toUpperCase (charAt0 word) ++ slice1 word.

Definition convertToCamelCase (s : str) : str :=
  join []
    (imap (fun index word =>
             if decide (index = 0) then capitalize word else capitalize word)
          (split "-"%char s)).

Definition blank : str := [].

(** The text whose lines are [ls]: the inverse of [split] on line feeds. *)
Definition unlines (ls : list str) : str := join [nl] ls.

(** [s.trim()]: white space and line terminators are stripped at both
    ends. *)
Definition is_space (c : ascii) : bool :=
  char_in_range 9 13 c || bool_decide (c = " "%char).

Fixpoint trimStart (s : str) : str :=
  match s with
  | c :: s' => if is_space c then trimStart s' else s
  | [] => []
  end.

Definition trimEnd (s : str) : str := rev (trimStart (rev s)).
Definition trim (s : str) : str := trimEnd (trimStart s).

(** ** Paths *)

(** A normalised path: whether it is absolute, and its segments. *)
Definition path : Type := bool * list str.

(** One step of [path.normalize]: empty and [.] segments vanish, [..]
    removes the segment before it (and is kept at the start of a relative
    path). *)
Definition norm_step (abs : bool) (acc : list str) (seg : str) : list str :=
  if decide (seg = [] ∨ seg = lit ".") then acc
  else if decide (seg = lit "..") then
    match last acc with
    | Some l => if decide (l = lit "..") then acc ++ [seg] else removelast acc
    | None => if abs then acc else acc ++ [seg]
    end
  else acc ++ [seg].

(** [path.join(base, rel)] for an already normalised [base]. *)
Definition path_join (base : path) (rel : str) : path :=
  (base.1, fold_left (norm_step base.1) (split "/"%char rel) base.2).

(** The normalised form of a path given as text. *)
Definition path_of_string (s : str) : path :=
  path_join (startsWith s "/", []) s.

(** The text of a normalised path, as interpolated into messages. *)
Definition path_to_string (p : path) : str :=
  match p with
  | (true, segs) => "/" +++ join "/" segs
  | (false, []) => "."
  | (false, segs) => join "/" segs
  end.

(** ** Effects of a script run *)

Inductive stream := Stdout | Stderr.

(** The world a script acts on: regular files with their contents, the
    directories that exist, and what has been printed. *)
Record world := World {
  files : gmap path str;
  dirs : gset path;
  console : list (stream * str)
}.

(** A computation completes with a value, ends the process through
    [process.exit(code)], or throws an error that the scripts never catch
    ([error] is the name of its class). *)
Inductive outcome (A : Type) :=
| Done (a : A)
| Exited (code : nat)
| Thrown (error : str).
Arguments Done {A} a.
Arguments Exited {A} code.
Arguments Thrown {A} error.

Definition Script (A : Type) : Type := world → outcome A * world.

Global Instance Script_ret : MRet Script := λ A a w, (Done a, w).
Global Instance Script_bind : MBind Script := λ A B f m w,
  match m w with
  | (Done a, w') => f a w'
  | (Exited code, w') => (Exited code, w')
  | (Thrown error, w') => (Thrown error, w')
  end.

Definition console_log (msg : str) : Script unit := λ w,
  (Done (), World (files w) (dirs w) (console w ++ [(Stdout, msg)])).

Definition console_error (msg : str) : Script unit := λ w,
  (Done (), World (files w) (dirs w) (console w ++ [(Stderr, msg)])).

Definition process_exit {A} (code : nat) : Script A := λ w, (Exited code, w).

(** [throw new error(...)], and the errors the run time raises. *)
Definition throw {A} (error : str) : Script A := λ w, (Thrown error, w).

Definition existsSync (p : path) : Script bool := λ w,
  (Done (bool_decide (p ∈ dirs w ∨ is_Some (files w !! p))), w).

(** The directory itself and every ancestor of it. *)
Definition ancestors (p : path) : list path :=
  map (λ n, (p.1, take n p.2)) (seq 0 (S (List.length p.2))).

(** [fs.mkdirSync(p, { recursive: true })], where no regular file is in the
    way: the directory is made, with the ancestors that are missing. *)
Definition mkdirSync_recursive (p : path) : Script unit := λ w,
  (Done (), World (files w) (dirs w ∪ list_to_set (ancestors p)) (console w)).

(** [fs.writeFileSync(p, data)], where [p] is not the path of a directory
    and lies in a directory that exists: the file holds [data] afterwards. *)
Definition writeFileSync (p : path) (data : str) : Script unit := λ w,
  (Done (), World (<[p := data]> (files w)) (dirs w) (console w)).

(** [xs.forEach(f)]. *)
Fixpoint forEach {A} (xs : list A) (f : A → Script unit) : Script unit :=
  match xs with
  | [] => mret ()
  | x :: xs' => f x ;; forEach xs' f
  end.

(** The exit status of the process whose main function ran to [o]: an
    uncaught error ends the process with status 1. *)
Definition exit_status {A} (o : outcome A) : nat :=
  match o with
  | Done _ => 0
  | Exited code => code
  | Thrown _ => 1
  end.

(** The own entry of an object literal under a key. *)
Fixpoint table_get {V} (table : list (str * V)) (key : str) : option V :=
  match table with
  | [] => None
  | (k, v) :: rest => if decide (k = key) then Some v else table_get rest key
  end.

(** What an object literal inherits from [Object.prototype]: eleven
    functions, each with its [name], and under [__proto__] the prototype
    object itself, which has no [name]. *)
Inductive inherited_value :=
| Method (name : str)
| Prototype.

Definition Object_prototype : list (str * inherited_value) :=
  [ (lit "constructor", Method "Object");
    (lit "__defineGetter__", Method "__defineGetter__");
    (lit "__defineSetter__", Method "__defineSetter__");
    (lit "hasOwnProperty", Method "hasOwnProperty");
    (lit "__lookupGetter__", Method "__lookupGetter__");
    (lit "__lookupSetter__", Method "__lookupSetter__");
    (lit "isPrototypeOf", Method "isPrototypeOf");
    (lit "propertyIsEnumerable", Method "propertyIsEnumerable");
    (lit "toString", Method "toString");
    (lit "valueOf", Method "valueOf");
    (lit "__proto__", Prototype);
    (lit "toLocaleString", Method "toLocaleString") ].

(** Property lookup [table[key]] in an object literal: the own entry if
    there is one, else the inherited property of that name, else
    [undefined]. *)
Inductive property (V : Type) :=
| Own (v : V)
| Inherited (value : inherited_value)
| Undefined.
Arguments Own {V} v.
Arguments Inherited {V} value.
Arguments Undefined {V}.

Definition property_get {V} (table : list (str * V)) (key : str) : property V :=
  match table_get table key with
  | Some v => Own v
  | None =>
      match table_get Object_prototype key with
      | Some value => Inherited value
      | None => Undefined
      end
  end.

(** [value.name] of an inherited value, as a template literal prints it. *)
Definition inherited_name (value : inherited_value) : str :=
  match value with
  | Method name => name
  | Prototype => "undefined"
  end.

(** [Object.keys(table)]. *)
Definition table_keys {V} (table : list (str * V)) : list str := map fst table.

(** [args[i] || fallback]. *)
Definition arg_or (arg : option str) (fallback : str) : str :=
  match arg with
  | Some a => if decide (a = []) then fallback else a
  | None => fallback
  end.

(** ** JSON.stringify(value, null, 2) *)

#[local] Set Warnings "-register-all".
Inductive json :=
| JString (s : str)
| JBool (b : bool)
| JArray (items : list json)
| JObject (members : list (str * json)).

Definition hex_digit (n : nat) : ascii :=
  if n <? 10 then ascii_of_nat (48 + n) else ascii_of_nat (87 + n).

Definition json_escape (c : ascii) : str :=
  if decide (c = "034"%char) then "\" +++ dq
  else if decide (c = "\"%char) then "\\"
  else if decide (c = "008"%char) then "\b"
  else if decide (c = "009"%char) then "\t"
  else if decide (c = "010"%char) then "\n"
  else if decide (c = "012"%char) then "\f"
  else if decide (c = "013"%char) then "\r"
  else if nat_of_ascii c <? 32 then
    "\u00" +++ [hex_digit (nat_of_ascii c / 16); hex_digit (nat_of_ascii c mod 16)]
  else [c].

Definition json_quote (s : str) : str := dq ++ flat_map json_escape s ++ dq.

Fixpoint stringify (indent : str) (v : json) : str :=
  match v with
  | JString s => json_quote s
  | JBool b => if b then "true" else "false"
  | JArray items =>
      match items with
      | [] => "[]"
      | _ =>
          let inner := indent +++ "  " in
          "[" +++ [nl] +++ inner +++
          join ("," +++ [nl] +++ inner) (map (stringify inner) items) +++
          [nl] +++ indent +++ "]"
      end
  | JObject members =>
      match members with
      | [] => "{}"
      | _ =>
          let inner := indent +++ "  " in
          "{" +++ [nl] +++ inner +++
          join ("," +++ [nl] +++ inner)
               (map (λ m, json_quote m.1 +++ ": " +++ stringify inner m.2) members) +++
          [nl] +++ indent +++ "}"
      end
  end.

Definition JSON_stringify (v : json) : str := stringify [] v.

(** ** create-example.ts *)

Module CreateExample.

Record ExampleConfig := {
  name : str;
  description : str;
  category : str;
  features : list str
}.

Definition EXAMPLE_CATEGORIES : list (str * ExampleConfig) :=
  [ (lit "encrypted-counter",
     {| name := "Encrypted Counter";
        description := "Basic FHE counter demonstrating simple encrypted arithmetic";
        category := "basic";
        features := [lit "addition"; lit "subtraction"; lit "encryption"] |});
    (lit "access-control",
     {| name := "Access Control System";
        description := "Advanced access control demonstrating permission management";
        category := "access-control";
        features := [lit "role-based-permissions"; lit "grant-access"; lit "revoke-access"] |});
    (lit "encrypted-arithmetic",
     {| name := "Encrypted Arithmetic";
        description := "Multiple encrypted types with various arithmetic operations";
        category := "arithmetic";
        features := [lit "addition"; lit "subtraction"; lit "multiplication"; lit "comparison"] |});
    (lit "user-decryption",
     {| name := "User Decryption";
        description := "User-initiated decryption of encrypted values";
        category := "decryption";
        features := [lit "user-decrypt"; lit "authorized-decryption"] |});
    (lit "public-decryption",
     {| name := "Public Decryption";
        description := "Public decryption of encrypted contract results";
        category := "decryption";
        features := [lit "public-decrypt"; lit "result-publication"] |}) ].

Definition generateContractTemplate (exampleName category : str) : str :=
    unlines
      [ lit "// SPDX-License-Identifier: BSD-3-Clause-Clear";
        lit "pragma solidity ^0.8.24;";
        blank;
        "import " +++ dq +++ "@fhevm/solidity/lib/FHE.sol" +++ dq +++ ";";
        "import { ZamaEthereumConfig } from " +++ dq +++ "@fhevm/solidity/config/ZamaConfig.sol" +++ dq +++ ";";
        blank;
        lit "/**";
        " * @title " +++ exampleName;
        " * @notice Example demonstrating " +++ category +++ " patterns with FHEVM";
        lit " * @dev This contract showcases how to use encrypted types and operations";
        lit " */";
        "contract " +++ convertToCamelCase exampleName +++ " is ZamaEthereumConfig {";
        lit "    /**";
        lit "     * @notice Example encrypted storage variable";
        lit "     */";
        lit "    euint32 private encryptedValue;";
        blank;
        lit "    /**";
        lit "     * @notice Initialize with encrypted value";
        lit "     * @param initialValue The initial encrypted value";
        lit "     */";
        lit "    constructor() {";
        lit "        encryptedValue = FHE.asEuint32(0);";
        lit "    }";
        blank;
        lit "    /**";
        lit "     * @notice Get the encrypted value";
        lit "     * @return The encrypted value stored in contract";
        lit "     */";
        lit "    function getEncryptedValue() external view returns (euint32) {";
        lit "        return encryptedValue;";
        lit "    }";
        blank;
        lit "    /**";
        lit "     * @notice Set encrypted value";
        lit "     * @param newValue The new encrypted value to store";
        lit "     * @param inputProof Proof for input encryption";
        lit "     */";
        lit "    function setEncryptedValue(externalEuint32 newValue, bytes calldata inputProof) external {";
        lit "        euint32 encryptedInput = FHE.fromExternal(newValue, inputProof);";
        lit "        encryptedValue = encryptedInput;";
        lit "        FHE.allowThis(encryptedValue);";
        lit "    }";
        blank;
        lit "    /**";
        lit "     * @notice Add to encrypted value";
        lit "     * @param addAmount Amount to add";
        lit "     * @param inputProof Proof for input encryption";
        lit "     */";
        lit "    function addToValue(externalEuint32 addAmount, bytes calldata inputProof) external {";
        lit "        euint32 encryptedAmount = FHE.fromExternal(addAmount, inputProof);";
        lit "        encryptedValue = FHE.add(encryptedValue, encryptedAmount);";
        lit "        FHE.allowThis(encryptedValue);";
        lit "    }";
        lit "}";
        blank ].

Definition generateTestTemplate (contractName : str) : str :=
    unlines
      [ "import { expect } from " +++ dq +++ "chai" +++ dq +++ ";";
        "import { ethers } from " +++ dq +++ "hardhat" +++ dq +++ ";";
        "import { Contract, Signer } from " +++ dq +++ "ethers" +++ dq +++ ";";
        blank;
        lit "/**";
        " * @test " +++ contractName +++ " Test Suite";
        lit " * @chapter basic";
        " * @description Complete test coverage for the " +++ contractName +++ " contract";
        lit " */";
        "describe(" +++ dq +++ contractName +++ dq +++ ", function () {";
        lit "    let contract: Contract;";
        lit "    let owner: Signer;";
        blank;
        lit "    before(async function () {";
        lit "        const [ownerSigner] = await ethers.getSigners();";
        lit "        owner = ownerSigner;";
        blank;
        "        const ContractFactory = await ethers.getContractFactory(" +++ dq +++ contractName +++ dq +++ ");";
        lit "        contract = await ContractFactory.deploy();";
        lit "        await contract.waitForDeployment();";
        lit "    });";
        blank;
        lit "    /**";
        lit "     * @test Deployment";
        lit "     * @category basic";
        lit "     */";
        "    it(" +++ dq +++ "should deploy successfully" +++ dq +++ ", async function () {";
        lit "        expect(contract.target).to.not.equal(ethers.ZeroAddress);";
        lit "    });";
        blank;
        lit "    /**";
        lit "     * @test Basic operations";
        lit "     * @category basic";
        lit "     */";
        "    it(" +++ dq +++ "should get encrypted value" +++ dq +++ ", async function () {";
        lit "        const value = await contract.getEncryptedValue();";
        lit "        expect(value).to.not.be.undefined;";
        lit "    });";
        lit "});";
        blank ].

Definition generateHardhatConfigTemplate : str :=
    unlines
      [ "import { HardhatUserConfig } from " +++ dq +++ "hardhat/config" +++ dq +++ ";";
        "import " +++ dq +++ "@nomiclabs/hardhat-ethers" +++ dq +++ ";";
        "import " +++ dq +++ "@nomiclabs/hardhat-etherscan" +++ dq +++ ";";
        "import " +++ dq +++ "hardhat-deploy" +++ dq +++ ";";
        "import " +++ dq +++ "hardhat-gas-reporter" +++ dq +++ ";";
        blank;
        "require(" +++ dq +++ "dotenv" +++ dq +++ ").config();";
        blank;
        "const MNEMONIC = process.env.MNEMONIC || " +++ dq +++ "test test test test test test test test test test test junk" +++ dq +++ ";";
        "const INFURA_API_KEY = process.env.INFURA_API_KEY || " +++ dq +++ dq +++ ";";
        blank;
        lit "const config: HardhatUserConfig = {";
        lit "    solidity: {";
        "        version: " +++ dq +++ "0.8.24" +++ dq +++ ",";
        lit "        settings: {";
        lit "            optimizer: { enabled: true, runs: 200 }";
        lit "        }";
        lit "    },";
        lit "    networks: {";
        "        localhost: { url: " +++ dq +++ "http://127.0.0.1:8545" +++ dq +++ ", chainId: 1337 },";
        lit "        sepolia: {";
        "            url: " +++ bq +++ "https://sepolia.infura.io/v3/${INFURA_API_KEY}" +++ bq +++ ",";
        lit "            accounts: { mnemonic: MNEMONIC },";
        lit "            chainId: 11155111";
        lit "        }";
        lit "    }";
        lit "};";
        blank;
        lit "export default config;";
        blank ].

Definition createProjectStructure (projectPath : path) : Script unit :=
  let dirs : list str :=
    [ lit "contracts"; lit "test"; lit "deploy"; lit "tasks"; lit "scripts";
      lit "docs"; lit ".github/workflows"; lit ".vscode" ] in
  forEach dirs (λ dir,
    let fullPath := path_join projectPath dir in
    ex ← existsSync fullPath;
    if negb ex then mkdirSync_recursive fullPath else mret ()).

Definition tsconfig : json :=
  JObject
    [ (lit "compilerOptions",
       JObject
         [ (lit "target", JString "ES2020");
           (lit "module", JString "commonjs");
           (lit "lib", JArray [JString "ES2020"]);
           (lit "outDir", JString "./dist");
           (lit "rootDir", JString "./");
           (lit "strict", JBool true);
           (lit "esModuleInterop", JBool true);
           (lit "skipLibCheck", JBool true);
           (lit "forceConsistentCasingInFileNames", JBool true) ]);
      (lit "include", JArray [JString "**/*.ts"]);
      (lit "exclude", JArray [JString "node_modules"; JString "dist"]) ].

(** The object [packageJson]; [JSON.stringify] leaves out the member
    [description] when its value is undefined ([None]). *)
Definition packageJsonOf (exampleKey : str) (description : option str) : json :=
  JObject
   ([ (lit "name", JString ("fhevm-example-" +++ exampleKey));
      (lit "version", JString "1.0.0") ] ++
    match description with
    | Some text => [ (lit "description", JString text) ]
    | None => []
    end ++
    [ (lit "scripts",
       JObject
         [ (lit "compile", JString "hardhat compile");
           (lit "test", JString "hardhat test");
           (lit "deploy", JString "hardhat deploy --network sepolia") ]);
      (lit "dependencies",
       JObject
         [ (lit "@fhevm/solidity", JString "^0.3.0");
           (lit "@openzeppelin/contracts", JString "^5.0.1");
           (lit "ethers", JString "^6.10.0") ]);
      (lit "devDependencies",
       JObject
         [ (lit "@nomiclabs/hardhat-ethers", JString "^2.2.3");
           (lit "@types/chai", JString "^4.3.11");
           (lit "@types/mocha", JString "^10.0.6");
           (lit "chai", JString "^4.3.10");
           (lit "hardhat", JString "^2.19.4");
           (lit "hardhat-deploy", JString "^0.11.45");
           (lit "typescript", JString "^5.3.3") ]) ]).

Definition packageJson (exampleKey : str) (config : ExampleConfig) : json :=
  packageJsonOf exampleKey (Some (description config)).

Definition readmeContent (config : ExampleConfig) : str :=
  unlines
    [ "# " +++ name config;
      blank;
      description config;
      blank;
      lit "## Features";
      blank;
      join [nl] (map (λ f, "- " +++ f) (features config));
      blank;
      lit "## Quick Start";
      blank;
      bq +++ bq +++ bq +++ "bash";
      lit "npm install";
      lit "npm run compile";
      lit "npm run test";
      bq +++ bq +++ bq;
      blank;
      lit "## Deployment";
      blank;
      bq +++ bq +++ bq +++ "bash";
      lit "npm run deploy";
      bq +++ bq +++ bq;
      blank ].

(** [generateExample] past its guard when [config] is a value inherited
    from [Object.prototype], which is truthy.  [config.category],
    [config.description] and [config.features] are undefined, and so is
    [config.name] for the prototype object.  The contract template fails in
    [convertToCamelCase(undefined)]; with a name, the run gets as far as the
    README, where [config.features.map] fails. *)
Definition generateExample_inherited (config : inherited_value)
    (exampleKey outputDir : str) : Script unit :=
  let projectName := convertToCamelCase exampleKey in
  let projectPath := path_join (path_of_string outputDir) projectName in
  console_log ("Creating " +++ inherited_name config +++ " example...") ;;
  console_log ("Location: " +++ path_to_string projectPath) ;;
  createProjectStructure projectPath ;;
  match config with
  | Prototype => throw "TypeError"
  | Method name =>
      let contractContent := generateContractTemplate name "undefined" in
      let contractPath :=
        path_join (path_join projectPath "contracts") (projectName +++ ".sol") in
      writeFileSync contractPath contractContent ;;
      console_log ("âœ“ Contract created: " +++ path_to_string contractPath) ;;
      let testContent := generateTestTemplate projectName in
      let testPath :=
        path_join (path_join projectPath "test") (projectName +++ ".test.ts") in
      writeFileSync testPath testContent ;;
      console_log ("âœ“ Test file created: " +++ path_to_string testPath) ;;
      let hardhatConfig := generateHardhatConfigTemplate in
      let hardhatPath := path_join projectPath "hardhat.config.ts" in
      writeFileSync hardhatPath hardhatConfig ;;
      console_log ("âœ“ Hardhat config created: " +++ path_to_string hardhatPath) ;;
      let tsconfigPath := path_join projectPath "tsconfig.json" in
      writeFileSync tsconfigPath (JSON_stringify tsconfig) ;;
      console_log ("âœ“ TypeScript config created: " +++ path_to_string tsconfigPath) ;;
      let packageJsonPath := path_join projectPath "package.json" in
      writeFileSync packageJsonPath (JSON_stringify (packageJsonOf exampleKey None)) ;;
      console_log ("âœ“ Package.json created: " +++ path_to_string packageJsonPath) ;;
      throw "TypeError"
  end.

Definition generateExample (exampleKey outputDir : str) : Script unit :=
  match property_get EXAMPLE_CATEGORIES exampleKey with
  | Undefined =>
      console_error ("Unknown example: " +++ exampleKey) ;;
      console_error ("Available examples: " +++
                     join ", " (table_keys EXAMPLE_CATEGORIES)) ;;
      process_exit 1
  | Inherited config => generateExample_inherited config exampleKey outputDir
  | Own config =>
      let projectName := convertToCamelCase exampleKey in
      let projectPath := path_join (path_of_string outputDir) projectName in
      console_log ("Creating " +++ name config +++ " example...") ;;
      console_log ("Location: " +++ path_to_string projectPath) ;;
      createProjectStructure projectPath ;;
      let contractContent := generateContractTemplate (name config) (category config) in
      let contractPath :=
        path_join (path_join projectPath "contracts") (projectName +++ ".sol") in
      writeFileSync contractPath contractContent ;;
      console_log ("âœ“ Contract created: " +++ path_to_string contractPath) ;;
      let testContent := generateTestTemplate projectName in
      let testPath :=
        path_join (path_join projectPath "test") (projectName +++ ".test.ts") in
      writeFileSync testPath testContent ;;
      console_log ("âœ“ Test file created: " +++ path_to_string testPath) ;;
      let hardhatConfig := generateHardhatConfigTemplate in
      let hardhatPath := path_join projectPath "hardhat.config.ts" in
      writeFileSync hardhatPath hardhatConfig ;;
      console_log ("âœ“ Hardhat config created: " +++ path_to_string hardhatPath) ;;
      let tsconfigPath := path_join projectPath "tsconfig.json" in
      writeFileSync tsconfigPath (JSON_stringify tsconfig) ;;
      console_log ("âœ“ TypeScript config created: " +++ path_to_string tsconfigPath) ;;
      let packageJsonPath := path_join projectPath "package.json" in
      writeFileSync packageJsonPath (JSON_stringify (packageJson exampleKey config)) ;;
      console_log ("âœ“ Package.json created: " +++ path_to_string packageJsonPath) ;;
      let readmePath := path_join projectPath "README.md" in
      writeFileSync readmePath (readmeContent config) ;;
      console_log ("âœ“ README created: " +++ path_to_string readmePath) ;;
      console_log ([nl] +++ "âœ… Example project created successfully!") ;;
      console_log ([nl] +++ "Next steps:") ;;
      console_log ("1. cd " +++ projectName) ;;
      console_log "2. npm install" ;;
      console_log "3. npm run test"
  end.

Definition listExamples : Script unit :=
  console_log ("Available FHEVM Examples:" +++ [nl]) ;;
  forEach EXAMPLE_CATEGORIES (λ entry,
    let key := entry.1 in
    let config := entry.2 in
    console_log ("ðŸ“š " +++ key) ;;
    console_log ("   Name: " +++ name config) ;;
    console_log ("   Description: " +++ description config) ;;
    console_log ("   Category: " +++ category config) ;;
    console_log ("   Features: " +++ join ", " (features config)) ;;
    console_log []).

Definition usage : Script unit :=
  console_log "FHEVM Example Generator" ;;
  console_log ([nl] +++ "Usage: npx ts-node scripts/create-example.ts [command] [options]") ;;
  console_log ([nl] +++ "Commands:") ;;
  console_log "  list                    - List all available examples" ;;
  console_log "  create <example> [dir]  - Create a new example" ;;
  console_log "  help                    - Show this help message" ;;
  console_log ([nl] +++ "Examples:") ;;
  console_log "  npx ts-node scripts/create-example.ts list" ;;
  console_log "  npx ts-node scripts/create-example.ts create encrypted-counter" ;;
  console_log "  npx ts-node scripts/create-example.ts create access-control ./examples".

(** [main], on the command-line arguments [process.argv.slice(2)]. *)
Definition main (args : list str) : Script unit :=
  match args with
  | [] => usage
  | command :: rest =>
      if decide (command = lit "--help" ∨ command = lit "-h") then usage
      else if decide (command = lit "list") then listExamples
      else if decide (command = lit "create") then
        match rest with
        | [] =>
            console_error "Error: Please specify an example name" ;;
            console_error "Usage: npx ts-node scripts/create-example.ts create <example> [dir]" ;;
            process_exit 1
        | exampleName :: rest' =>
            let outputDir := arg_or (head rest') "." in
            generateExample exampleName outputDir
        end
      else
        console_error ("Unknown command: " +++ command) ;;
        console_error "Use --help for usage information" ;;
        process_exit 1
  end.

End CreateExample.

(** ** Regular expressions

    The patterns of [generate-docs.ts] are values of [regex]; [run] gives
    them the backtracking semantics of the JavaScript matcher: the list of
    ways a pattern can match at the start of the input, in the order the
    matcher tries them, so that the head is the match it reports.  Every
    quantifier in the scripts applies to a single character class, hence
    [Star] takes a class. *)

Module Regex.

Inductive regex :=
| Lit (w : str)
| Class (p : ascii → bool)
| Star (greedy : bool) (p : ascii → bool)
| Seq (r1 r2 : regex)
| Alt (r1 r2 : regex)
| Group (n : nat) (r : regex).

(** One or more characters of a class. *)
Definition Plus (greedy : bool) (p : ascii → bool) : regex :=
  Seq (Class p) (Star greedy p).

(** The classes the scripts use. *)
Definition any_char (c : ascii) : bool := true.
Definition not_char (x : ascii) (c : ascii) : bool := negb (bool_decide (c = x)).
Definition not_line_terminator (c : ascii) : bool :=
  negb (bool_decide (c = "010"%char) || bool_decide (c = "013"%char)).
Definition is_word (c : ascii) : bool :=
  is_lower c || is_upper c || is_digit c || bool_decide (c = "_"%char).

(** What each capture group last matched. *)
Definition captures := list (nat * str).

Fixpoint group (n : nat) (caps : captures) : str :=
  match caps with
  | [] => []
  | (m, u) :: rest => if decide (m = n) then u else group n rest
  end.

(** The inputs left after consuming 0, 1, 2, ... characters of the class,
    and the same from the longest run down. *)
Fixpoint star_lazy (p : ascii → bool) (s : str) : list str :=
  s :: match s with
       | c :: s' => if p c then star_lazy p s' else []
       | [] => []
       end.

Fixpoint star_greedy (p : ascii → bool) (s : str) : list str :=
  match s with
  | c :: s' => (if p c then star_greedy p s' else []) ++ [s]
  | [] => [s]
  end.

(** [run r s caps]: every way [r] matches a prefix of [s], as the input
    left and the captures, in backtracking order. *)
Fixpoint run (r : regex) (s : str) (caps : captures) : list (str * captures) :=
  match r with
  | Lit w =>
      match strip_prefix w s with
      | Some s' => [(s', caps)]
      | None => []
      end
  | Class p =>
      match s with
      | c :: s' => if p c then [(s', caps)] else []
      | [] => []
      end
  | Star greedy p =>
      map (λ s', (s', caps)) (if greedy then star_greedy p s else star_lazy p s)
  | Seq r1 r2 => flat_map (λ x, run r2 x.1 x.2) (run r1 s caps)
  | Alt r1 r2 => run r1 s caps ++ run r2 s caps
  | Group n r' =>
      map (λ x, (x.1, (n, take (List.length s - List.length x.1) s) :: x.2))
          (run r' s caps)
  end.

(** [s.match(r)] for a pattern without the [g] flag: the leftmost start at
    which [r] matches, with the captures and the input after the match. *)
Fixpoint search (r : regex) (s : str) : option (captures * str) :=
  match run r s [] with
  | (s', caps) :: _ => Some (caps, s')
  | [] =>
      match s with
      | [] => None
      | _ :: t => search r t
      end
  end.

(** The loop [while ((match = r.exec(s)) !== null)] for a pattern with the
    [g] flag: the successive matches, each search starting where the
    previous match ended ([skip] counts the characters of the current
    match still to pass).  The patterns used this way start with a literal,
    so a match is never empty. *)
Fixpoint exec_all_from (r : regex) (skip : nat) (s : str) : list captures :=
  match skip with
  | S k =>
      match s with
      | [] => []
      | _ :: t => exec_all_from r k t
      end
  | 0 =>
      match run r s [] with
      | (s', caps) :: _ =>
          caps :: match s with
                  | [] => []
                  | _ :: t =>
                      exec_all_from r (List.length s - List.length s' - 1) t
                  end
      | [] =>
          match s with
          | [] => []
          | _ :: t => exec_all_from r 0 t
          end
      end
  end.

Definition exec_all (r : regex) (s : str) : list captures := exec_all_from r 0 s.

(** [s.replace(r, by)] for a pattern with the [g] flag that cannot match the
    empty string. *)
Fixpoint replace_all_from (r : regex) (by_ : str) (skip : nat) (s : str) : str :=
  match skip with
  | S k =>
      match s with
      | [] => []
      | _ :: t => replace_all_from r by_ k t
      end
  | 0 =>
      match s with
      | [] => []
      | c :: t =>
          match run r s [] with
          | (s', _) :: _ =>
              by_ ++ replace_all_from r by_ (List.length s - List.length s' - 1) t
          | [] => c :: replace_all_from r by_ 0 t
          end
      end
  end.

Definition replace_all (r : regex) (by_ : str) (s : str) : str :=
  replace_all_from r by_ 0 s.

End Regex.

(** ** generate-docs.ts *)

Module GenerateDocs.
Import Regex.

Record DocMetadata := {
  name : str;
  category : str;
  chapter : str;
  description : str
}.

(** The pattern that pairs a doc comment with the declaration after it:
    the comment opener and a line feed, the comment body (group 1, as short
    as possible), the comment closer, white space, and the keyword
    [contract] or [function] (group 2). *)
Definition docRegex : regex :=
  Seq (Lit ("/**" +++ [nl]))
   (Seq (Group 1 (Star false any_char))
     (Seq (Lit "*/")
       (Seq (Star true is_space)
            (Group 2 (Alt (Lit "contract") (Lit "function")))))).

(** The tag patterns: the tag, white space, and the rest of the line
    (group 1), as in [@title], one or more space characters, one or more
    characters other than line terminators. *)
Definition tagRegex (tag : str) : regex :=
  Seq (Lit tag) (Seq (Plus true is_space) (Group 1 (Plus true not_line_terminator))).

(** [m ? m[1].trim() : fallback]. *)
Definition trimmed_or (fallback : str) (m : option (captures * str)) : str :=
  match m with
  | Some found => trim (group 1 found.1)
  | None => fallback
  end.

(** The body of the loop of [extractSolidityDocs], for one comment body. *)
Definition solidityDoc (commentBlock : str) : list DocMetadata :=
  let titleMatch := search (tagRegex "@title") commentBlock in
  let categoryMatch := search (tagRegex "@category") commentBlock in
  let chapterMatch := search (tagRegex "@chapter") commentBlock in
  let descMatch := search (tagRegex "@notice") commentBlock in
  match titleMatch with
  | Some found =>
      [ {| name := trim (group 1 found.1);
           category := trimmed_or "general" categoryMatch;
           chapter := trimmed_or "general" chapterMatch;
           description := trimmed_or [] descMatch |} ]
  | None => []
  end.

(** [extractSolidityDocs], on the text of the file. *)
Definition extractSolidityDocs (content : str) : list DocMetadata :=
  flat_map (λ m, solidityDoc (group 1 m)) (exec_all docRegex content).

(** The pattern for a test declaration: the call opener with a double
    quote, one or more characters other than a double quote (group 1), and
    a double quote. *)
Definition testNameRegex : regex :=
  Seq (Lit ("it(" +++ dq))
      (Seq (Group 1 (Plus true (not_char "034"%char))) (Lit dq)).

(** What [extractTestDocs] does with a completed comment block and the line
    after it ([None] when the block closes on the last line). *)
Definition testDoc (commentBlock : str) (testLine : option str) : list DocMetadata :=
  match testLine with
  | Some line =>
      if negb (bool_decide (line = [])) && includes line ("it(" +++ dq) then
        match search testNameRegex line with
        | Some testMatch =>
            let categoryMatch := search (tagRegex "@category") commentBlock in
            let chapterMatch := search (tagRegex "@chapter") commentBlock in
            let descMatch := search (tagRegex "@description") commentBlock in
            [ {| name := group 1 testMatch.1;
                 category := trimmed_or "general" categoryMatch;
                 chapter := trimmed_or "general" chapterMatch;
                 description := trimmed_or [] descMatch |} ]
        | None => []
        end
      else []
  | None => []
  end.

(** The two nested loops of [extractTestDocs] over the lines.  The state is
    [None] while the outer loop looks for a line with the comment opener,
    and [Some commentBlock] while the inner loop accumulates lines up to the
    one with the comment closer; the outer loop resumes on the line after
    that one.  A block that is never closed produces nothing. *)
Fixpoint scanLines (block : option str) (commentLines : list str) : list DocMetadata :=
  match commentLines with
  | [] => []
  | line :: rest =>
      match block with
      | None =>
          if includes line "/**" then
            if includes line "*/" then testDoc line (head rest) ++ scanLines None rest
            else scanLines (Some (line ++ [nl])) rest
          else scanLines None rest
      | Some commentBlock =>
          if includes line "*/" then
            testDoc (commentBlock ++ line) (head rest) ++ scanLines None rest
          else scanLines (Some (commentBlock ++ line ++ [nl])) rest
      end
  end.

(** [extractTestDocs], on the text of the file. *)
Definition extractTestDocs (content : str) : list DocMetadata :=
  scanLines None (split nl content).

(** Insertion into an object used to group values under a key: a new key
    goes last, a known key gets the value appended.  The groups are later
    enumerated in this order, the order of first insertion.  This is what
    the object does for keys that are neither names of inherited properties
    nor array indices ([plain_key] below); the properties of the grouping
    are stated for such keys. *)
Fixpoint group_push {V} (key : str) (v : V) (groups : list (str * list V))
  : list (str * list V) :=
  match groups with
  | [] => [(key, [v])]
  | (k, vs) :: rest =>
      if decide (k = key) then (k, vs ++ [v]) :: rest
      else (k, vs) :: group_push key v rest
  end.

Definition group_by {V} (f : V → str) (items : list V) : list (str * list V) :=
  fold_left (λ groups item, group_push (f item) item groups) items [].

(** The file name of a chapter: lower case, each run of white space replaced
    by a hyphen. *)
Definition chapterFilename (chapter : str) : str :=
  replace_all (Plus true is_space) "-" (toLowerCase chapter).

(** The text of one chapter file. *)
Definition chapterContent (chapter : str) (items : list DocMetadata) : str :=
  ("# " +++ chapter +++ " Examples" +++ [nl; nl]) ++
  flat_map (λ entry : str * list DocMetadata,
    ("## " +++ entry.1 +++ [nl; nl]) ++
    flat_map (λ item,
      ("### " +++ name item +++ [nl; nl]) ++
      (if bool_decide (description item = []) then []
       else description item ++ [nl; nl]) ++
      ("---" +++ [nl; nl])) entry.2)
    (group_by category items).

Definition generateMarkdown (docs : list DocMetadata) (outputPath : path) : Script unit :=
  forEach (group_by chapter docs) (λ entry,
    let filename := chapterFilename entry.1 in
    let filepath := path_join outputPath (filename +++ ".md") in
    writeFileSync filepath (chapterContent entry.1 entry.2) ;;
    console_log ("Generated: " +++ path_to_string filepath)).

Definition contractNameRegex : regex :=
  Seq (Lit "contract") (Seq (Plus true is_space) (Group 1 (Plus true is_word))).

(** The pattern for a function declaration: the keyword, white space, the
    name (group 1), optional white space, a parenthesised parameter list
    without a closing parenthesis inside, and everything up to the first
    opening brace. *)
Definition functionRegex : regex :=
  Seq (Lit "function")
   (Seq (Plus true is_space)
     (Seq (Group 1 (Plus true is_word))
       (Seq (Star true is_space)
         (Seq (Lit "(")
           (Seq (Star true (not_char ")"%char))
             (Seq (Lit ")")
               (Seq (Star true (not_char "{"%char)) (Lit "{")))))))).

Definition contractName (content : str) : str :=
  match search contractNameRegex content with
  | Some contractMatch => group 1 contractMatch.1
  | None => "Contract"
  end.

Definition functionNames (content : str) : list str :=
  map (group 1) (exec_all functionRegex content).

(** The text [generateAPIReference] builds from the source of a contract. *)
Definition apiDoc (content : str) : str :=
  let functions := functionNames content in
  ("# API Reference" +++ [nl; nl]) ++
  ("## " +++ contractName content +++ [nl; nl]) ++
  (if bool_decide (0 < List.length functions) then
     ("### Functions" +++ [nl; nl]) ++
     flat_map (λ fn, "- " +++ bq +++ fn +++ "()" +++ bq +++ [nl]) functions ++
     [nl]
   else []).

(** [generateAPIReference], on the text of the contract file. *)
Definition generateAPIReference (content : str) (outputPath : path) : Script unit :=
  let apiPath := path_join outputPath "api-reference.md" in
  writeFileSync apiPath (apiDoc content) ;;
  console_log ("Generated: " +++ path_to_string apiPath).

(** The loop over the test directory: the records of every file with a
    test suffix, in listing order. *)
Definition processTests (listing : list (str * str)) : list DocMetadata :=
  flat_map (λ entry : str * str,
    if endsWith entry.1 ".test.ts" || endsWith entry.1 ".spec.ts"
    then extractTestDocs entry.2 else []) listing.

(** The loop over the contract directory: for every file with the source
    suffix, in listing order, its records are collected and its API
    reference is written. *)
Fixpoint processContracts (docsDir : path) (listing : list (str * str))
  : Script (list DocMetadata) :=
  match listing with
  | [] => mret []
  | (file, content) :: rest =>
      if endsWith file ".sol" then
        let solidityDocs := extractSolidityDocs content in
        generateAPIReference content docsDir ;;
        docs ← processContracts docsDir rest;
        mret (solidityDocs ++ docs)
      else processContracts docsDir rest
  end.

(** [generateDocumentation].  [cwd] is the working directory; [testDir] and
    [contractDir] are what the script reads: for each of the two
    directories, [None] if it does not exist, and otherwise its files as
    [readdirSync] lists them, each with the text [readFileSync] returns. *)
Definition generateDocumentation (cwd : path)
    (testDir contractDir : option (list (str * str))) : Script unit :=
  let docsDir := path_join cwd "docs" in
  ex ← existsSync docsDir;
  (if negb ex then mkdirSync_recursive docsDir else mret ()) ;;
  let testDocs := match testDir with Some listing => processTests listing | None => [] end in
  solidityDocs ← match contractDir with
                 | Some listing => processContracts docsDir listing
                 | None => mret []
                 end;
  let allDocs := testDocs ++ solidityDocs in
  (if bool_decide (0 < List.length allDocs) then generateMarkdown allDocs docsDir
   else mret ()) ;;
  console_log ("Documentation generated in: " +++ path_to_string docsDir).

End GenerateDocs.

(** ** create-category.ts *)

Module CreateCategory.

Record Category := {
  name : str;
  description : str;
  examples : list str;
  concepts : list str
}.

Definition CATEGORIES : list (str * Category) :=
  [ (lit "basic-operations",
     {| name := "Basic Operations";
        description := "Fundamental FHE operations and patterns";
        examples := [lit "encrypted-counter"; lit "encrypted-arithmetic"];
        concepts := [lit "Addition"; lit "Subtraction"; lit "Multiplication"; lit "Storage"] |});
    (lit "encryption-patterns",
     {| name := "Encryption Patterns";
        description := "Different approaches to encrypting data";
        examples := [lit "single-value-encryption"; lit "multi-value-encryption"];
        concepts := [lit "Encryption"; lit "Encrypted Types"; lit "Storage"; lit "Permissions"] |});
    (lit "access-control",
     {| name := "Access Control";
        description := "Managing permissions and access to encrypted data";
        examples := [lit "access-control-system"; lit "role-based-permissions"];
        concepts := [lit "Authorization"; lit "Roles"; lit "Permissions"; lit "Access Grants"] |});
    (lit "decryption-patterns",
     {| name := "Decryption Patterns";
        description := "How to decrypt and use encrypted results";
        examples := [lit "user-decryption"; lit "public-decryption"];
        concepts := [lit "User Decryption"; lit "Public Decryption"; lit "Result Publication"] |});
    (lit "advanced-patterns",
     {| name := "Advanced Patterns";
        description := "Complex scenarios combining multiple FHE concepts";
        examples := [lit "inventory-management"; lit "blind-auction"];
        concepts := [lit "Complex Computations"; lit "Multi-Role Systems";
                     lit "Event Logging"; lit "State Management"] |}) ].

Definition generateCategoryDocs (category : Category) (outputPath : path) : Script unit :=
  let content :=
    ("# " +++ name category +++ [nl; nl]) ++
    (description category +++ [nl; nl]) ++
    ("## Concepts Covered" +++ [nl; nl]) ++
    flat_map (λ concept, "- " +++ concept +++ [nl]) (concepts category) ++
    [nl] ++
    ("## Examples" +++ [nl; nl]) ++
    flat_map (λ example,
      "- [" +++ example +++ "](../examples/" +++ example +++ "/README.md)" +++ [nl])
      (examples category) ++
    [nl] ++
    ("## Learning Path" +++ [nl; nl]) ++
    ("Start with the first example and work through each one to build your understanding of these concepts." +++ [nl]) in
  let filepath := path_join outputPath "CATEGORY.md" in
  writeFileSync filepath content ;;
  console_log ("Generated category docs: " +++ path_to_string filepath).

(** [createCategoryStructure] past its guard when [category] is a value
    inherited from [Object.prototype]: the directory is made, and
    [generateCategoryDocs] fails in [category.concepts.forEach] before it
    writes or prints. *)
Definition createCategoryStructure_inherited (categoryKey outputDir : str) : Script unit :=
  let categoryPath := path_join (path_of_string outputDir) categoryKey in
  ex ← existsSync categoryPath;
  (if negb ex then mkdirSync_recursive categoryPath else mret ()) ;;
  throw "TypeError".

Definition createCategoryStructure (categoryKey outputDir : str) : Script unit :=
  match property_get CATEGORIES categoryKey with
  | Undefined => console_error ("Unknown category: " +++ categoryKey)
  | Inherited _ => createCategoryStructure_inherited categoryKey outputDir
  | Own category =>
      let categoryPath := path_join (path_of_string outputDir) categoryKey in
      ex ← existsSync categoryPath;
      (if negb ex then mkdirSync_recursive categoryPath else mret ()) ;;
      generateCategoryDocs category categoryPath ;;
      let indexContent :=
        ("# " +++ name category +++ [nl; nl]) ++
        (description category +++ [nl; nl]) ++
        ("## Contents" +++ [nl; nl]) ++
        flat_map (λ example, "- [" +++ example +++ "](" +++ example +++ "/)" +++ [nl])
          (examples category) in
      let indexPath := path_join categoryPath "README.md" in
      writeFileSync indexPath indexContent ;;
      console_log ("Created category structure: " +++ path_to_string categoryPath)
  end.

Definition listCategories : Script unit :=
  console_log ("Available Categories:" +++ [nl]) ;;
  forEach CATEGORIES (λ entry,
    let key := entry.1 in
    let category := entry.2 in
    console_log ("📚 " +++ name category +++ " (" +++ key +++ ")") ;;
    console_log ("   " +++ description category) ;;
    console_log ("   Examples: " +++ join ", " (examples category)) ;;
    console_log ("   Concepts: " +++ join ", " (concepts category)) ;;
    console_log []).

Definition generateAllCategories (outputDir : str) : Script unit :=
  console_log ("Generating all categories..." +++ [nl]) ;;
  forEach (table_keys CATEGORIES) (λ categoryKey,
    createCategoryStructure categoryKey outputDir) ;;
  let mainIndex :=
    ("# FHEVM Example Categories" +++ [nl; nl]) ++
    ("This section organizes examples by learning category." +++ [nl; nl]) ++
    flat_map (λ entry : str * Category,
      ("## [" +++ name entry.2 +++ "](./" +++ entry.1 +++ "/README.md)" +++ [nl; nl]) ++
      (description entry.2 +++ [nl; nl])) CATEGORIES in
  let mainIndexPath := path_join (path_of_string outputDir) "CATEGORIES.md" in
  writeFileSync mainIndexPath mainIndex ;;
  console_log ("Generated categories index: " +++ path_to_string mainIndexPath).

Definition usage : Script unit :=
  console_log "FHEVM Category Generator" ;;
  console_log ([nl] +++ "Usage: npx ts-node scripts/create-category.ts [command]") ;;
  console_log ([nl] +++ "Commands:") ;;
  console_log "  list                - List all available categories" ;;
  console_log "  create <category>   - Create a single category" ;;
  console_log "  create-all [dir]    - Create all categories" ;;
  console_log "  help                - Show this help message".

(** [main], on the command-line arguments [process.argv.slice(2)]. *)
Definition main (args : list str) : Script unit :=
  match args with
  | [] => usage
  | command :: rest =>
      if decide (command = lit "--help" ∨ command = lit "-h") then usage
      else if decide (command = lit "list") then listCategories
      else if decide (command = lit "create") then
        match rest with
        | [] =>
            console_error "Error: Please specify a category name" ;;
            console_error "Use 'list' command to see available categories" ;;
            process_exit 1
        | categoryKey :: rest' =>
            let categoryOutputDir := arg_or (head rest') "./docs/categories" in
            createCategoryStructure categoryKey categoryOutputDir
        end
      else if decide (command = lit "create-all") then
        let outputDir := arg_or (head rest) "./docs/categories" in
        ex ← existsSync (path_of_string outputDir);
        (if negb ex then mkdirSync_recursive (path_of_string outputDir) else mret ()) ;;
        generateAllCategories outputDir
      else
        console_error ("Unknown command: " +++ command) ;;
        console_error "Use --help for usage information" ;;
        process_exit 1
  end.

End CreateCategory.

(** * Vocabulary of the properties

    The notions in which the properties below are stated.  None of them is
    part of the scripts. *)

Import Regex GenerateDocs.

(** What the transform does to one segment, stated on its characters. *)
Definition upper_first (w : str) : str :=
  match w with
  | [] => []
  | c :: w' => upper_char c :: w'
  end.

(** A segment of a kebab-case name: a non-empty run of lower-case letters
    and digits. *)
Definition kebab_segment (w : str) : Prop :=
  w ≠ [] ∧ Forall (λ c, is_lower c || is_digit c = true) w.

(** A path segment that [path.join] appends as it is. *)
Definition plain_segment (seg : str) : bool :=
  forallb (λ c, negb (bool_decide (c = "/"%char))) seg &&
  negb (bool_decide (seg = [])) &&
  negb (bool_decide (seg = lit ".")) &&
  negb (bool_decide (seg = lit "..")).

(** The directories [createProjectStructure] asks for, as segments below the
    project directory. *)
Definition seed_directories : list (list str) :=
  [ [lit "contracts"]; [lit "test"]; [lit "deploy"]; [lit "tasks"];
    [lit "scripts"]; [lit "docs"]; [lit ".github"; lit "workflows"];
    [lit ".vscode"] ].

(** The paths below the output directory at which [generateExample] writes,
    for the project name [Name]. *)
Definition project_file (base : path) (Name : str) (rel : list str) : path :=
  (base.1, base.2 ++ Name :: rel).

(** The files [generateExample] writes for the project name [Name], as
    segments below the project directory. *)
Definition project_files (Name : str) : list (list str) :=
  [ [lit "contracts"; Name +++ ".sol"]; [lit "test"; Name +++ ".test.ts"];
    [lit "hardhat.config.ts"]; [lit "tsconfig.json"]; [lit "package.json"];
    [lit "README.md"] ].

(** The directory a path lies in. *)
Definition parent (p : path) : path := (p.1, removelast p.2).

(** A path that can be given to the file system: no segment holds the
    character NUL. *)
Definition nameable (p : path) : bool :=
  forallb (forallb (λ c, negb (bool_decide (c = "000"%char)))) p.2.

(** The file system has room for a run that asks for the directories
    [needed] (each with its ancestors) and writes the files [targets]:
    - every path can be given to the file system;
    - no regular file has the path of a directory asked for or of one of its
      ancestors;
    - no file to write has the path of a directory, be it one that exists
      or one the run asks for;
    - every file to write lies in a directory that exists (as the root and
      the working directory do) or that the run asks for.
    These are the conditions under which no call of [fs.mkdirSync] or
    [fs.writeFileSync] in the run throws. *)
Definition room_for (w : world) (needed targets : list path) : bool :=
  let asked := flat_map ancestors needed in
  forallb nameable (needed ++ targets) &&
  forallb (λ q, bool_decide (files w !! q = None)) asked &&
  forallb (λ p,
    bool_decide (p ∉ dirs w) && bool_decide (p ∉ asked) &&
    (bool_decide (parent p ∈ dirs w) || bool_decide ((parent p).2 = []) ||
     bool_decide (parent p ∈ asked))) targets.

(** Room for the project of a key in an output directory. *)
Definition project_room (w : world) (outputDir key : str) : bool :=
  let Name := convertToCamelCase key in
  let inside := project_file (path_of_string outputDir) Name in
  room_for w (map inside seed_directories) (map inside (project_files Name)).

(** The files after a sequence of writes. *)
Definition written {A} (pathOf : A → path) (textOf : A → str)
    (xs : list A) (fs : gmap path str) : gmap path str :=
  fold_left (λ fs x, <[pathOf x := textOf x]> fs) xs fs.

(** [p] holds of every character of [u]. *)
Abbreviation all_chars p u := (Forall (λ c : ascii, p c = true) u).

(** The input [s] does not go on with a character of the class [p]: a run
    of the class that ends before [s] cannot be longer. *)
Definition stops (p : ascii → bool) (s : str) : Prop :=
  match s with
  | [] => True
  | c :: _ => p c = false
  end.

(** The matches of a pattern at the start of an input, declaratively:
    [matches r s caps s' caps'] when [r] can consume a prefix of [s] and
    leave [s'], taking the captures from [caps] to [caps']. *)
Inductive matches : regex → str → captures → str → captures → Prop :=
| matches_Lit w s c :
    matches (Lit w) (w ++ s) c s c
| matches_Class p x s c :
    p x = true → matches (Class p) (x :: s) c s c
| matches_Star g p u s c :
    all_chars p u → matches (Star g p) (u ++ s) c s c
| matches_Seq r1 r2 s c s1 c1 s2 c2 :
    matches r1 s c s1 c1 → matches r2 s1 c1 s2 c2 →
    matches (Seq r1 r2) s c s2 c2
| matches_Alt_l r1 r2 s c s' c' :
    matches r1 s c s' c' → matches (Alt r1 r2) s c s' c'
| matches_Alt_r r1 r2 s c s' c' :
    matches r2 s c s' c' → matches (Alt r1 r2) s c s' c'
| matches_Group n r u s c c' :
    matches r (u ++ s) c s c' → matches (Group n r) (u ++ s) c s ((n, u) :: c').

(** No proper suffix of [w] is a prefix of [w]. *)
Definition borderless (w : str) : bool :=
  forallb (λ k, negb (bool_decide (drop k w = take (List.length w - k) w)))
          (seq 1 (List.length w - 1)).

(** A comment block carries a tag when the tag occurs in it followed by
    white space and then by text on one line: at least one space character
    and at least one character other than a line terminator. *)
Definition tagged (tag block : str) : Prop :=
  ∃ pre ws text post,
    block = pre ++ tag ++ ws ++ text ++ post ∧
    ws ≠ [] ∧ all_chars is_space ws ∧
    text ≠ [] ∧ all_chars not_line_terminator text.

(** The tag stands at the start of [s], followed by white space and by text
    on one line. *)
Definition tag_starts (tag s : str) : Prop :=
  ∃ ws text post,
    s = tag ++ ws ++ text ++ post ∧
    ws ≠ [] ∧ all_chars is_space ws ∧
    text ≠ [] ∧ all_chars not_line_terminator text.

(** The text a tag gives a field.  The tag is read at the first place of the
    block where it is followed by white space and text; the white space is
    as long as it can be with text left after it (wherever else it could
    end, a line terminator or the end of the block follows); the text runs
    to the end of its line; and the field is the text, trimmed. *)
Definition tag_value (tag block value : str) : Prop :=
  ∃ pre ws text post,
    block = pre ++ tag ++ ws ++ text ++ post ∧
    (∀ pre1 u, pre = pre1 ++ u → u ≠ [] →
               ¬ tag_starts tag (u ++ tag ++ ws ++ text ++ post)) ∧
    ws ≠ [] ∧ all_chars is_space ws ∧
    (∀ ws' rest, text ++ post = ws' ++ rest → ws' ≠ [] → all_chars is_space ws' →
                 stops not_line_terminator rest) ∧
    text ≠ [] ∧ all_chars not_line_terminator text ∧
    stops not_line_terminator post ∧
    value = trim text.

(** A comment block as [extractTestDocs] delimits it: consecutive lines, the
    first with the comment opener, the last the first one with the comment
    closer. *)
Definition comment_block (lines : list str) : Prop :=
  ∃ init closing,
    lines = init ++ [closing] ∧
    (∃ first, head lines = Some first ∧ includes first "/**" = true) ∧
    Forall (λ l, includes l "*/" = false) init ∧
    includes closing "*/" = true.

(** Lines that the scan of [extractTestDocs] passes completely: lines without
    the comment opener, and whole comment blocks. *)
Inductive scanned : list str → Prop :=
| scanned_nil : scanned []
| scanned_line l ls :
    includes l "/**" = false → scanned ls → scanned (l :: ls)
| scanned_block block ls :
    comment_block block → scanned ls → scanned (block ++ ls).

(** A line with a test declaration: the call opener with a double quote, a
    non-empty title without a double quote, and the closing double quote. *)
Definition test_declaration (line : str) : Prop :=
  ∃ pre title post,
    line = pre ++ ("it(" +++ dq) ++ title ++ dq ++ post ∧
    title ≠ [] ∧ all_chars (not_char "034"%char) title.

(** A function declaration as the pattern sees it: the keyword, white space,
    the name, optional white space, the parameters in parentheses, and the
    text up to the first opening brace. *)
Definition declaration_text (ws name ws' params mods : str) : str :=
  lit "function" ++ ws ++ name ++ ws' ++ lit "(" ++ params ++ lit ")" ++ mods ++ lit "{".

(** What the parts of a declaration are made of. *)
Definition declaration_parts (ws name ws' params mods : str) : Prop :=
  ws ≠ [] ∧ all_chars is_space ws ∧
  name ≠ [] ∧ all_chars is_word name ∧
  all_chars is_space ws' ∧
  all_chars (not_char ")"%char) params ∧
  all_chars (not_char "{"%char) mods.



(** The path of the file [generateMarkdown] writes for a chapter. *)
Definition chapterPath (outputPath : path) (chapter : str) : path :=
  path_join outputPath (chapterFilename chapter +++ ".md").

(** The contract files of a listing. *)
Definition contract_files (listing : list (str * str)) : list (str * str) :=
  List.filter (λ entry : str * str, endsWith entry.1 ".sol") listing.

(** The documents of a run, from what the script reads. *)
Definition collected_docs (testDir : option (list (str * str)))
    (listing : list (str * str)) : list DocMetadata :=
  match testDir with Some tests => processTests tests | None => [] end ++
  flat_map (λ entry : str * str, extractSolidityDocs entry.2) (contract_files listing).

(** A script that only prints: it completes, and the files and the
    directories are as before. *)
Definition prints_only (m : Script unit) : Prop :=
  ∀ w, ∃ out, m w = (Done (), World (files w) (dirs w) (console w ++ out)).

(** The names of the properties that every object inherits, the keys of
    [Object_prototype].  A lookup [table[key]] with one of these names finds
    the inherited property where the object has no entry of its own. *)
Definition inherited_property (key : str) : bool :=
  bool_decide (key ∈ [ lit "constructor"; lit "__defineGetter__"; lit "__defineSetter__";
                       lit "hasOwnProperty"; lit "__lookupGetter__";
                       lit "__lookupSetter__"; lit "isPrototypeOf";
                       lit "propertyIsEnumerable"; lit "toString"; lit "valueOf";
                       lit "__proto__"; lit "toLocaleString" ]).

(** A key under which an object groups values like an association list: not
    the name of an inherited property, and not a run of digits, which the
    object would enumerate as an array index, before the other keys. *)
Definition plain_key (key : str) : bool :=
  negb (inherited_property key) &&
  negb (negb (bool_decide (key = [])) && forallb is_digit key).

(** The command lines on which the example script ends with status 1: a
    command it does not know, [create] without a key, and [create] with a
    key that is not in the catalog (the script rejects the key or, for the
    name of an inherited property, fails with an error). *)
Definition rejected_by_create_example (args : list str) : Prop :=
  (∃ command rest, args = command :: rest ∧
     command ∉ [lit "--help"; lit "-h"; lit "list"; lit "create"]) ∨
  args = [lit "create"] ∨
  (∃ key rest, args = lit "create" :: key :: rest ∧
     table_get CreateExample.EXAMPLE_CATEGORIES key = None).

(** The directory of a category below the output directory, and a file in
    it. *)
Definition category_directory (base : path) (key : str) : path :=
  (base.1, base.2 ++ [key]).

Definition category_file (base : path) (key file : str) : path :=
  (base.1, base.2 ++ [key; file]).

(** The texts [createCategoryStructure] writes for a category: the one of
    [CATEGORY.md], built by [generateCategoryDocs], and the one of
    [README.md]. *)
Definition categoryDocument (category : CreateCategory.Category) : str :=
  ("# " +++ CreateCategory.name category +++ [nl; nl]) ++
  (CreateCategory.description category +++ [nl; nl]) ++
  ("## Concepts Covered" +++ [nl; nl]) ++
  flat_map (λ concept, "- " +++ concept +++ [nl]) (CreateCategory.concepts category) ++
  [nl] ++
  ("## Examples" +++ [nl; nl]) ++
  flat_map (λ example,
    "- [" +++ example +++ "](../examples/" +++ example +++ "/README.md)" +++ [nl])
    (CreateCategory.examples category) ++
  [nl] ++
  ("## Learning Path" +++ [nl; nl]) ++
  ("Start with the first example and work through each one to build your understanding of these concepts." +++ [nl]).

Definition categoryIndex (category : CreateCategory.Category) : str :=
  ("# " +++ CreateCategory.name category +++ [nl; nl]) ++
  (CreateCategory.description category +++ [nl; nl]) ++
  ("## Contents" +++ [nl; nl]) ++
  flat_map (λ example, "- [" +++ example +++ "](" +++ example +++ "/)" +++ [nl])
    (CreateCategory.examples category).

(** The lines of a text that are level-2 headings. *)
Definition level2_headings (text : str) : list str :=
  List.filter (λ line, startsWith line "## ") (split nl text).

(** The distinct keys of a list, in the order of their first occurrence. *)
Fixpoint first_seen (keys : list str) : list str :=
  match keys with
  | [] => []
  | k :: rest => k :: List.filter (λ k', negb (bool_decide (k' = k))) (first_seen rest)
  end.

(** Records whose chapters and categories are keys that the grouping
    objects of [generateMarkdown] treat like an association list. *)
Definition plain_records (docs : list GenerateDocs.DocMetadata) : Prop :=
  Forall (λ doc, plain_key (GenerateDocs.chapter doc) = true ∧
                 plain_key (GenerateDocs.category doc) = true) docs.

(** The items with a given key, in their order. *)
Definition with_key {V} (f : V → str) (k : str) (items : list V) : list V :=
  List.filter (λ item, bool_decide (f item = k)) items.

(** The test files of a listing. *)
Definition test_files (listing : list (str * str)) : list (str * str) :=
  List.filter (λ entry : str * str,
    endsWith entry.1 ".test.ts" || endsWith entry.1 ".spec.ts") listing.

(** What a directory holds for the script: nothing when it does not exist. *)
Definition listed (dir : option (list (str * str))) : list (str * str) :=
  default [] dir.

(** The writes of a documentation run, in order: the API reference of every
    contract file, then the file of every chapter. *)
Definition documentation_writes (docsDir : path) (testDir : option (list (str * str)))
    (listing : list (str * str)) : list (path * str) :=
  let docs := collected_docs testDir listing in
  map (λ entry : str * str, (path_join docsDir "api-reference.md", apiDoc entry.2))
      (contract_files listing) ++
  map (λ ch, (chapterPath docsDir ch, chapterContent ch (with_key chapter ch docs)))
      (first_seen (map chapter docs)).

(** A segment of a kebab-case name that starts with a letter. *)
Definition letter_segment (w : str) : Prop :=
  ∃ c w', w = c :: w' ∧ is_lower c = true ∧
          Forall (λ c, is_lower c || is_digit c = true) w'.

(** A kebab-case name whose segments all start with a letter. *)
Definition letter_kebab (key : str) : Prop :=
  Forall letter_segment (split "-"%char key).

(** A field as the extractors leave it when they read it from a tag: on one
    line, and with no white space at either end. *)
Definition tidy (field : str) : Prop :=
  trim field = field ∧ all_chars not_line_terminator field.

(** The two files of a category. *)
Definition category_files (base : path) (key : str) : list path :=
  [category_file base key "CATEGORY.md"; category_file base key "README.md"].

(** Room for the directory and the two files of a category in an output
    directory. *)
Definition category_room (w : world) (outputDir key : str) : bool :=
  let base := path_of_string outputDir in
  room_for w [category_directory base key] (category_files base key).

(** Room for all the categories of the catalog and their index. *)
Definition categories_room (w : world) (outputDir : str) : bool :=
  let base := path_of_string outputDir in
  room_for w
    (map (λ entry : str * CreateCategory.Category, category_directory base entry.1)
         CreateCategory.CATEGORIES)
    ((base.1, base.2 ++ [lit "CATEGORIES.md"]) ::
     flat_map (λ entry : str * CreateCategory.Category, category_files base entry.1)
              CreateCategory.CATEGORIES).

(** The command lines on which the category script ends with status 1: a
    command it does not know, [create] without a key, and [create] with the
    name of an inherited property, on which the run fails with an error. *)
Definition rejected_by_create_category (args : list str) : Prop :=
  (∃ command rest, args = command :: rest ∧
     command ∉ [lit "--help"; lit "-h"; lit "list"; lit "create"; lit "create-all"]) ∨
  args = [lit "create"] ∨
  (∃ key rest, args = lit "create" :: key :: rest ∧
     table_get CreateCategory.CATEGORIES key = None ∧ inherited_property key = true).

(** A text in the 7-bit range, where the case conversions, the character
    classes and [trim] of the embedding are those of JavaScript. *)
Definition ascii_text (s : str) : bool := forallb (λ c, nat_of_ascii c <? 128) s.

(** Records whose chapters are texts in the 7-bit range. *)
Definition ascii_chapters (docs : list DocMetadata) : Prop :=
  Forall (λ doc, ascii_text (chapter doc) = true) docs.

(** Room for a documentation run: for the directory [docs] and for the files
    the run writes into it. *)
Definition documentation_room (w : world) (cwd : path)
    (testDir contractDir : option (list (str * str))) : bool :=
  let docsDir := path_join cwd "docs" in
  room_for w [docsDir]
    (map fst (documentation_writes docsDir testDir (listed contractDir))).

(** A documentation run that the embedding follows step by step: the files
    it reads are 7-bit texts, the collected records have plain chapters and
    categories, and the file system has room for what it writes. *)
Definition ordinary_run (w : world) (cwd : path)
    (testDir contractDir : option (list (str * str))) : Prop :=
  forallb (λ entry : str * str, ascii_text entry.2) (test_files (listed testDir)) = true ∧
  forallb (λ entry : str * str, ascii_text entry.2)
          (contract_files (listed contractDir)) = true ∧
  plain_records (collected_docs testDir (listed contractDir)) ∧
  documentation_room w cwd testDir contractDir = true.

(** * Properties *)

(** ** Strings *)

Lemma upper_char_idem c : upper_char (upper_char c) = upper_char c.
Proof. destruct c as [[] [] [] [] [] [] [] []]; reflexivity. Qed.

Lemma upper_char_dash c : upper_char c = "-"%char → c = "-"%char.
Proof.
  destruct c as [[] [] [] [] [] [] [] []]; vm_compute; intros E;
    first [reflexivity | discriminate E].
Qed.

Lemma split_not_nil sep s : split sep s ≠ [].
Proof.
  destruct s as [|c s]; simpl; [done|].
  destruct (decide (c = sep)); [done|]. by destruct (split sep s).
Qed.

Lemma split_no_sep sep s : Forall (λ c, c ≠ sep) s → split sep s = [s].
Proof.
  induction 1 as [|c s Hc _ IH]; simpl; [done|].
  destruct (decide (c = sep)); [done|]. by rewrite IH.
Qed.

Lemma split_app_sep sep w s :
  Forall (λ c, c ≠ sep) w → split sep (w ++ sep :: s) = w :: split sep s.
Proof.
  induction 1 as [|c w Hc _ IH]; simpl.
  - by destruct (decide (sep = sep)).
  - destruct (decide (c = sep)); [done|]. by rewrite IH.
Qed.

Lemma split_join sep segs :
  segs ≠ [] → Forall (Forall (λ c, c ≠ sep)) segs →
  split sep (join [sep] segs) = segs.
Proof.
  intros Hne Hall. induction Hall as [|w ws Hw Hws IH]; [done|].
  destruct ws as [|w' ws].
  - simpl. by apply split_no_sep.
  - change (join [sep] (w :: w' :: ws)) with (w ++ sep :: join [sep] (w' :: ws)).
    rewrite split_app_sep by done. by rewrite IH.
Qed.

Lemma split_Forall sep s : Forall (Forall (λ c, c ≠ sep)) (split sep s).
Proof.
  induction s as [|c s IH]; simpl; [by repeat constructor|].
  destruct (decide (c = sep)); [by constructor|].
  destruct (split sep s) as [|w ws]; [by repeat constructor|].
  inversion_clear IH. by repeat constructor.
Qed.

Lemma join_split sep s : join [sep] (split sep s) = s.
Proof.
  induction s as [|c s IH]; simpl; [done|].
  destruct (decide (c = sep)) as [->|].
  - pose proof (split_not_nil sep s).
    destruct (split sep s) as [|w ws]; [done|]. simpl in *. by rewrite IH.
  - destruct (split sep s) as [|w ws] eqn:E; [by destruct (split_not_nil sep s)|].
    rewrite <- IH. by destruct ws.
Qed.

Lemma join_nil_concat (parts : list str) : join [] parts = List.concat parts.
Proof.
  induction parts as [|w ws IH]; [done|].
  destruct ws; simpl in *; [by rewrite app_nil_r|]. by rewrite IH.
Qed.

(** ** The naming transform *)

Lemma capitalize_upper_first w : capitalize w = upper_first w.
Proof. by destruct w. Qed.

Lemma convertToCamelCase_concat s :
  convertToCamelCase s = List.concat (map upper_first (split "-"%char s)).
Proof.
  unfold convertToCamelCase. rewrite join_nil_concat. f_equal.
  rewrite (imap_ext _ (λ _, upper_first)).
  - apply imap_const.
  - intros i w _. simpl. rewrite capitalize_upper_first. by destruct (decide (i = 0)).
Qed.

Lemma upper_first_concat_fixed (ws : list str) :
  upper_first (List.concat (map upper_first ws)) = List.concat (map upper_first ws).
Proof.
  induction ws as [|w ws IH]; [done|].
  destruct w as [|c w]; simpl; [done|]. by rewrite upper_char_idem.
Qed.

Lemma upper_first_no_dash w :
  Forall (λ c, c ≠ "-"%char) w → Forall (λ c, c ≠ "-"%char) (upper_first w).
Proof.
  destruct 1 as [|c w Hc Hw]; simpl; constructor; [|done].
  intros E. by apply Hc, upper_char_dash.
Qed.

Lemma convertToCamelCase_no_dash s :
  Forall (λ c, c ≠ "-"%char) (convertToCamelCase s).
Proof.
  rewrite convertToCamelCase_concat.
  induction (split_Forall "-"%char s) as [|w ws Hw _ IH]; simpl; [done|].
  apply Forall_app. split; [by apply upper_first_no_dash|done].
Qed.

Lemma kebab_segment_no_dash w : kebab_segment w → Forall (λ c, c ≠ "-"%char) w.
Proof.
  intros [_ H]. eapply Forall_impl; [exact H|].
  intros c Hc ->. by vm_compute in Hc.
Qed.

(** C3. [convertToCamelCase] is a total function, it is idempotent, and on
    a kebab-case name, that is, non-empty segments of lower-case letters and
    digits joined by hyphens, it upper-cases the first character of every
    segment, changes no other character, and concatenates the segments
    without a separator; [encrypted-counter] becomes [EncryptedCounter]. *)
Theorem convertToCamelCase_spec :
  (∀ s, ∃ r, convertToCamelCase s = r) ∧
  (∀ s, convertToCamelCase (convertToCamelCase s) = convertToCamelCase s) ∧
  (∀ segs, segs ≠ [] → Forall kebab_segment segs →
     convertToCamelCase (join "-" segs) = List.concat (map upper_first segs)) ∧
  convertToCamelCase "encrypted-counter" = lit "EncryptedCounter".
Proof.
  split; [by eauto|]. split; [|split; [|reflexivity]].
  - intros s.
    rewrite (convertToCamelCase_concat (convertToCamelCase s)).
    rewrite split_no_sep by apply convertToCamelCase_no_dash.
    simpl. rewrite app_nil_r, convertToCamelCase_concat.
    apply upper_first_concat_fixed.
  - intros segs Hne Hseg.
    rewrite convertToCamelCase_concat.
    change (lit "-") with ["-"%char]. rewrite split_join; [done..|].
    eapply Forall_impl; [exact Hseg|]. apply kebab_segment_no_dash.
Qed.

Lemma convertToCamelCase_spec_witness :
  [lit "user"; lit "decryption"] ≠ [] ∧
  Forall kebab_segment [lit "user"; lit "decryption"] ∧
  convertToCamelCase (join "-" [lit "user"; lit "decryption"])
  = List.concat (map upper_first [lit "user"; lit "decryption"]).
Proof.
  assert (Forall kebab_segment [lit "user"; lit "decryption"]) as Hsegs
    by (repeat constructor; done).
  split; [done|]. split; [exact Hsegs|].
  by apply (proj1 (proj2 (proj2 convertToCamelCase_spec))).
Defined.

(** ** Running scripts *)

(** Unfold the effects of a script down to the world it produces, leaving
    the texts folded. *)
Ltac script_step :=
  lazy beta iota zeta delta
    [mbind mret Script_bind Script_ret console_log console_error process_exit
     writeFileSync mkdirSync_recursive files dirs console fst snd].

(** ** Unknown catalog keys *)

Lemma property_get_Own {V} (table : list (str * V)) key v :
  table_get table key = Some v → property_get table key = Own v.
Proof. intros H. unfold property_get. by rewrite H. Qed.

Lemma inherited_property_false key :
  inherited_property key = false → table_get Object_prototype key = None.
Proof.
  unfold inherited_property. rewrite bool_decide_eq_false, !not_elem_of_cons.
  intros H. unfold Object_prototype, table_get.
  repeat (destruct H as [? H]; destruct (decide _) as [?|_]; [done|]). done.
Qed.

Lemma inherited_property_true key :
  inherited_property key = true → ∃ value, table_get Object_prototype key = Some value.
Proof.
  unfold inherited_property. rewrite bool_decide_eq_true, !elem_of_cons, elem_of_nil.
  intros H. repeat (destruct H as [->|H]; [eexists; reflexivity|]). done.
Qed.

Lemma property_get_Undefined {V} (table : list (str * V)) key :
  table_get table key = None → inherited_property key = false →
  property_get table key = Undefined.
Proof.
  intros H Hplain. unfold property_get. by rewrite H, inherited_property_false.
Qed.

Lemma CreateExample_main_create (key : str) (rest : list str) (w : world) :
  CreateExample.main (lit "create" :: key :: rest) w
  = CreateExample.generateExample key (arg_or (head rest) ".") w.
Proof. reflexivity. Qed.

Lemma generateExample_unknown (key outputDir : str) (w : world) :
  table_get CreateExample.EXAMPLE_CATEGORIES key = None →
  inherited_property key = false →
  CreateExample.generateExample key outputDir w
  = (Exited 1,
     World (files w) (dirs w)
       (console w ++
        [ (Stderr, "Unknown example: " +++ key);
          (Stderr, "Available examples: " +++
                   join ", " (table_keys CreateExample.EXAMPLE_CATEGORIES)) ])).
Proof.
  intros Hkey Hplain. unfold CreateExample.generateExample.
  rewrite property_get_Undefined by done.
  script_step. by rewrite <- app_assoc.
Qed.

Lemma CreateCategory_main_create (key : str) (rest : list str) (w : world) :
  CreateCategory.main (lit "create" :: key :: rest) w
  = CreateCategory.createCategoryStructure key
      (arg_or (head rest) "./docs/categories") w.
Proof. reflexivity. Qed.

Lemma createCategoryStructure_unknown (key outputDir : str) (w : world) :
  table_get CreateCategory.CATEGORIES key = None →
  inherited_property key = false →
  CreateCategory.createCategoryStructure key outputDir w
  = (Done (),
     World (files w) (dirs w) (console w ++ [(Stderr, "Unknown category: " +++ key)])).
Proof.
  intros Hkey Hplain. unfold CreateCategory.createCategoryStructure.
  by rewrite property_get_Undefined.
Qed.

(** ** Paths *)

Lemma path_join_plain (base : path) (seg : str) :
  plain_segment seg = true → path_join base seg = (base.1, base.2 ++ [seg]).
Proof.
  unfold plain_segment. rewrite !andb_true_iff, !negb_true_iff, !bool_decide_eq_false.
  intros [[[Hslash Hnil] Hdot] Hdots].
  unfold path_join. rewrite split_no_sep.
  - simpl. unfold norm_step.
    destruct (decide (seg = [] ∨ seg = lit ".")) as [[?|?]|_]; [done..|].
    by destruct (decide (seg = lit "..")).
  - apply Forall_forall. intros c Hc.
    rewrite forallb_forall in Hslash. specialize (Hslash c).
    rewrite negb_true_iff, bool_decide_eq_false in Hslash. apply Hslash.
    by apply list_elem_of_In.
Qed.

Lemma ancestors_self (p : path) : p ∈ ancestors p.
Proof.
  unfold ancestors. apply list_elem_of_fmap. exists (List.length p.2). split.
  - rewrite firstn_all. by destruct p.
  - apply list_elem_of_In, in_seq. lia.
Qed.

Lemma ancestors_inv (p q : path) :
  p ∈ ancestors q → ∃ n, p = (q.1, take n q.2).
Proof.
  unfold ancestors. intros (n & -> & _)%list_elem_of_fmap. eauto.
Qed.

Lemma table_get_In {V} (table : list (str * V)) key v :
  table_get table key = Some v → (key, v) ∈ table.
Proof.
  induction table as [|[k x] table IH]; simpl; [done|].
  destruct (decide (k = key)) as [->|].
  - intros [= ->]. constructor.
  - intros H. constructor. by apply IH.
Qed.

(** ** The project scaffold *)

Lemma bind_Done {A B} (m : Script A) (k : A → Script B) (w w' : world) (a : A) :
  m w = (Done a, w') → (m ≫= k) w = k a w'.
Proof. intros E. unfold mbind, Script_bind. by rewrite E. Qed.

Lemma bind_Exited {A B} (m : Script A) (k : A → Script B) (w w' : world) code :
  m w = (Exited code, w') → (m ≫= k) w = (Exited code, w').
Proof. intros E. unfold mbind, Script_bind. by rewrite E. Qed.

(** [if (!fs.existsSync(p)) fs.mkdirSync(p, { recursive: true })]. *)
Lemma ensure_directory (p : path) (w : world) :
  ∃ D : gset path,
    (ex ← existsSync p; if negb ex then mkdirSync_recursive p else mret ()) w
    = (Done (), World (files w) D (console w)) ∧
    dirs w ⊆ D ∧
    (p ∈ D ∨ is_Some (files w !! p)) ∧
    (∀ q, q ∈ D → q ∈ dirs w ∨ q ∈ ancestors p).
Proof.
  unfold mbind, Script_bind, existsSync.
  destruct (bool_decide (p ∈ dirs w ∨ is_Some (files w !! p))) eqn:Hex; cbn [negb].
  - apply bool_decide_eq_true in Hex. exists (dirs w). destruct w. cbn in *.
    repeat split; [done|done|by left].
  - exists (dirs w ∪ list_to_set (ancestors p)). unfold mkdirSync_recursive.
    repeat split; [set_solver| |].
    + left. apply elem_of_union_r, elem_of_list_to_set, ancestors_self.
    + intros q [?|Hq]%elem_of_union; [by left|right]. by apply elem_of_list_to_set in Hq.
Qed.

(** The loop of [createProjectStructure], for any way [g] of building the
    full path: nothing but directories changes, what existed still exists,
    every directory asked for exists afterwards unless a regular file has
    its path, and every new directory is one asked for or an ancestor. *)
Lemma ensure_directories (g : str → path) (names : list str) (w : world) :
  ∃ D : gset path,
    forEach names (λ dir,
      let fullPath := g dir in
      ex ← existsSync fullPath;
      if negb ex then mkdirSync_recursive fullPath else mret ()) w
    = (Done (), World (files w) D (console w)) ∧
    dirs w ⊆ D ∧
    (∀ d, d ∈ names → g d ∈ D ∨ is_Some (files w !! g d)) ∧
    (∀ p, p ∈ D → p ∈ dirs w ∨ ∃ d, d ∈ names ∧ p ∈ ancestors (g d)).
Proof.
  revert w. induction names as [|d names IH]; intros w.
  - exists (dirs w). destruct w. simpl. repeat split; [done| |by left].
    intros d Hd. by apply elem_of_nil in Hd.
  - destruct (ensure_directory (g d) w) as (D1 & E1 & Hsub1 & Hd1 & Hnew1).
    destruct (IH (World (files w) D1 (console w))) as (D & E & Hsub & Hall & Hnew).
    cbn [files dirs console] in E, Hsub, Hall, Hnew.
    exists D. split; [|split; [by etrans|split]].
    + cbn [forEach]. cbv zeta. by rewrite (bind_Done _ _ _ _ _ E1).
    + intros d' [Heq|Hd']%elem_of_cons; [|by apply Hall].
      rewrite Heq. destruct Hd1 as [?|?]; [left; by apply Hsub|by right].
    + intros p Hp. destruct (Hnew p Hp) as [Hp1|(d' & ? & ?)].
      * destruct (Hnew1 p Hp1) as [?|?]; [by left|].
        right. exists d. split; [by left|done].
      * right. exists d'. split; [by right|done].
Qed.

Lemma seed_directory_paths (projectPath : path) :
  map (path_join projectPath)
    [ lit "contracts"; lit "test"; lit "deploy"; lit "tasks"; lit "scripts";
      lit "docs"; lit ".github/workflows"; lit ".vscode" ]
  = map (λ seed, (projectPath.1, projectPath.2 ++ seed)) seed_directories.
Proof.
  cbn [map seed_directories]. repeat f_equal.
  change (path_join projectPath (lit ".github/workflows"))
    with (projectPath.1, (projectPath.2 ++ [lit ".github"]) ++ [lit "workflows"]).
  by rewrite <- app_assoc.
Qed.

Lemma createProjectStructure_spec (projectPath : path) (w : world) :
  ∃ D : gset path,
    CreateExample.createProjectStructure projectPath w
    = (Done (), World (files w) D (console w)) ∧
    dirs w ⊆ D ∧
    (∀ seed, seed ∈ seed_directories →
       (projectPath.1, projectPath.2 ++ seed) ∈ D ∨
       is_Some (files w !! (projectPath.1, projectPath.2 ++ seed))) ∧
    (∀ p, p ∈ D → p ∈ dirs w ∨
       ∃ seed, seed ∈ seed_directories ∧
               p ∈ ancestors (projectPath.1, projectPath.2 ++ seed)).
Proof.
  unfold CreateExample.createProjectStructure.
  destruct (ensure_directories (path_join projectPath)
    [ lit "contracts"; lit "test"; lit "deploy"; lit "tasks"; lit "scripts";
      lit "docs"; lit ".github/workflows"; lit ".vscode" ] w)
    as (D & E & Hsub & Hall & Hnew).
  exists D. split; [exact E|]. split; [done|].
  pose proof (seed_directory_paths projectPath) as Hpaths. split.
  - intros seed Hseed.
    assert ((projectPath.1, projectPath.2 ++ seed)
            ∈ map (λ seed, (projectPath.1, projectPath.2 ++ seed)) seed_directories) as Hin
      by (apply list_elem_of_fmap; eauto).
    rewrite <- Hpaths in Hin. apply list_elem_of_fmap in Hin as (d & -> & Hd).
    by apply Hall.
  - intros p Hp. destruct (Hnew p Hp) as [?|(d & Hd & Hanc)]; [by left|]. right.
    assert (path_join projectPath d
            ∈ map (λ seed, (projectPath.1, projectPath.2 ++ seed)) seed_directories) as Hin
      by (rewrite <- Hpaths; apply list_elem_of_fmap; eauto).
    apply list_elem_of_fmap in Hin as (seed & Heq & Hseed).
    exists seed. split; [done|]. by rewrite <- Heq.
Qed.

Lemma catalog_names_plain :
  Forall (λ entry : str * CreateExample.ExampleConfig,
    let Name := convertToCamelCase entry.1 in
    plain_segment Name && plain_segment (Name +++ ".sol") &&
    plain_segment (Name +++ ".test.ts") = true)
  CreateExample.EXAMPLE_CATEGORIES.
Proof. repeat constructor. Qed.

(** A complete run of [generateExample] on a catalog key. *)
Lemma generateExample_run (key outputDir : str)
    (config : CreateExample.ExampleConfig) (w : world) :
  table_get CreateExample.EXAMPLE_CATEGORIES key = Some config →
  let base := path_of_string outputDir in
  let Name := convertToCamelCase key in
  let inside := project_file base Name in
  ∃ (D : gset path) (out : list (stream * str)),
    CreateExample.generateExample key outputDir w =
      (Done (),
       World
         (<[inside [lit "README.md"] := CreateExample.readmeContent config]>
          (<[inside [lit "package.json"] :=
               JSON_stringify (CreateExample.packageJson key config)]>
          (<[inside [lit "tsconfig.json"] := JSON_stringify CreateExample.tsconfig]>
          (<[inside [lit "hardhat.config.ts"] :=
               CreateExample.generateHardhatConfigTemplate]>
          (<[inside [lit "test"; Name +++ ".test.ts"] :=
               CreateExample.generateTestTemplate Name]>
          (<[inside [lit "contracts"; Name +++ ".sol"] :=
               CreateExample.generateContractTemplate
                 (CreateExample.name config) (CreateExample.category config)]>
             (files w))))))) D out) ∧
    dirs w ⊆ D ∧
    (∀ seed, seed ∈ seed_directories →
       inside seed ∈ D ∨ is_Some (files w !! inside seed)) ∧
    (∀ p, p ∈ D → p ∈ dirs w ∨
       ∃ seed, seed ∈ seed_directories ∧ p ∈ ancestors (inside seed)).
Proof.
  intros Hkey. cbv zeta. unfold project_file.
  pose proof catalog_names_plain as Hplain.
  rewrite Forall_forall in Hplain.
  specialize (Hplain _ (table_get_In _ _ _ Hkey)). cbv zeta in Hplain.
  cbn [fst] in Hplain.
  apply andb_true_iff in Hplain as [[HName Hsol]%andb_true_iff Htest].
  unfold CreateExample.generateExample. rewrite (property_get_Own _ _ _ Hkey). cbv zeta.
  set (Name := convertToCamelCase key) in *.
  destruct (path_of_string outputDir) as [abs segs]. destruct w as [fs ds out].
  rewrite !(path_join_plain _ Name) by done.
  rewrite !(path_join_plain _ (lit "contracts")), !(path_join_plain _ (lit "test")),
    !(path_join_plain _ (lit "hardhat.config.ts")), !(path_join_plain _ (lit "tsconfig.json")),
    !(path_join_plain _ (lit "package.json")), !(path_join_plain _ (lit "README.md")),
    !(path_join_plain _ (Name +++ ".sol")), !(path_join_plain _ (Name +++ ".test.ts"))
    by done.
  script_step.
  match goal with
  | |- context [CreateExample.createProjectStructure ?P ?W] =>
      destruct (createProjectStructure_spec P W) as (D & E & Hsub & Hall & Hnew);
      rewrite E
  end.
  script_step. lazy beta iota zeta delta [fst snd files dirs console] in Hsub, Hall, Hnew.
  rewrite <- !app_assoc. cbn [app].
  assert (∀ rel, (abs, (segs ++ [Name]) ++ rel) = (abs, segs ++ Name :: rel))
    as Hinside by (intros rel; by rewrite <- app_assoc).
  eexists D, _. split; [reflexivity|]. split; [done|]. split.
  - intros seed Hseed. rewrite <- Hinside. by apply Hall.
  - intros p Hp. destruct (Hnew p Hp) as [?|(seed & Hseed & Hanc)]; [by left|right].
    exists seed. by rewrite <- Hinside.
Qed.

(** Two files of a project are the same only if their relative paths are. *)
Lemma project_file_inj base Name rel1 rel2 :
  project_file base Name rel1 = project_file base Name rel2 → rel1 = rel2.
Proof. unfold project_file. intros [= H%app_inv_head]. by injection H. Qed.

Ltac project_files_differ :=
  let H := fresh in
  intros H%project_file_inj; revert H; clear;
  first [ discriminate
        | intros H; injection H as H; revert H; vm_compute; discriminate ].

(** ** Room in the file system *)

Lemma room_for_spec (w : world) (needed targets : list path) :
  room_for w needed targets = true →
  (∀ d q, d ∈ needed → q ∈ ancestors d → files w !! q = None) ∧
  (∀ p, p ∈ targets →
     (p ∉ dirs w) ∧ (∀ d, d ∈ needed → p ∉ ancestors d) ∧
     (parent p ∈ dirs w ∨ (parent p).2 = [] ∨
      ∃ d, d ∈ needed ∧ parent p ∈ ancestors d)).
Proof.
  unfold room_for. cbv zeta. rewrite !andb_true_iff, !forallb_forall.
  intros [[_ Hfiles] Htargets]. split.
  - intros d q Hd Hq. eapply bool_decide_eq_true, Hfiles, in_flat_map.
    exists d. split; by apply list_elem_of_In.
  - intros p Hp%list_elem_of_In. specialize (Htargets p Hp).
    rewrite !andb_true_iff, !orb_true_iff, !bool_decide_eq_true in Htargets.
    destruct Htargets as [[Hdir Hasked] Hparent]. split; [done|]. split.
    + intros d Hd Hanc. apply Hasked, list_elem_of_In, in_flat_map.
      exists d. split; by apply list_elem_of_In.
    + destruct Hparent as [[?|?]|Hin]; [by left|by right; left|right; right].
      apply list_elem_of_In, in_flat_map in Hin as (d & Hd & Hin).
      exists d. split; by apply list_elem_of_In.
Qed.

Lemma room_for_nameable (w : world) (needed targets : list path) :
  room_for w needed targets = true → forallb nameable (needed ++ targets) = true.
Proof. unfold room_for. cbv zeta. rewrite !andb_true_iff. by intros [[? _] _]. Qed.

(** Room, as a proposition. *)
Lemma room_for_intro (w : world) (needed targets : list path) :
  forallb nameable (needed ++ targets) = true →
  (∀ d q, d ∈ needed → q ∈ ancestors d → files w !! q = None) →
  (∀ p, p ∈ targets →
     (p ∉ dirs w) ∧ (∀ d, d ∈ needed → p ∉ ancestors d) ∧
     (parent p ∈ dirs w ∨ (parent p).2 = [] ∨
      ∃ d, d ∈ needed ∧ parent p ∈ ancestors d)) →
  room_for w needed targets = true.
Proof.
  intros Hnames Hfiles Htargets. unfold room_for. cbv zeta.
  rewrite Hnames. cbn [andb]. rewrite andb_true_iff, !forallb_forall. split.
  - intros q (d & Hd & Hq)%in_flat_map. apply bool_decide_eq_true.
    apply (Hfiles d q); by apply list_elem_of_In.
  - intros p Hp%list_elem_of_In. destruct (Htargets p Hp) as (Hdir & Hasked & Hparent).
    rewrite !andb_true_iff, !orb_true_iff, !bool_decide_eq_true.
    split; [split; [done|]|].
    + intros (d & Hd & Hin)%list_elem_of_In%in_flat_map.
      apply (Hasked d); by apply list_elem_of_In.
    + destruct Hparent as [?|[?|(d & Hd & Hin)]]; [by left; left|by left; right|right].
      apply list_elem_of_In, in_flat_map. exists d. split; by apply list_elem_of_In.
Qed.

(** Room is kept by a run that writes the files and makes the directories it
    was given for. *)
Lemma room_for_after (w : world) (needed targets : list path)
    (fs : gmap path str) (D : gset path) (out : list (stream * str)) :
  room_for w needed targets = true →
  (∀ q, q ∉ targets → fs !! q = files w !! q) →
  dirs w ⊆ D →
  (∀ q, q ∈ D → q ∈ dirs w ∨ ∃ d, d ∈ needed ∧ q ∈ ancestors d) →
  room_for (World fs D out) needed targets = true.
Proof.
  intros Hroom Hfs Hsub Hnew. pose proof (room_for_nameable _ _ _ Hroom) as Hnames.
  apply room_for_spec in Hroom as [Hfiles Htargets].
  apply room_for_intro; cbn [files dirs]; [done|..].
  - intros d q Hd Hq. rewrite Hfs; [by eapply Hfiles|].
    intros Hin. destruct (Htargets q Hin) as (_ & Hasked & _). by apply (Hasked d).
  - intros p Hp. destruct (Htargets p Hp) as (Hdir & Hasked & Hparent).
    split; [|split; [done|]].
    + intros [?|(d & Hd & Hin)]%Hnew; [done|]. by apply (Hasked d).
    + destruct Hparent as [?|[?|?]]; [left; by apply Hsub|by right; left|by right; right].
Qed.

(** Room is kept by a run that leaves the paths asked for free of files and
    makes no directory at the path of a file to write. *)
Lemma room_for_apart (w : world) (needed targets : list path)
    (fs : gmap path str) (D : gset path) (out : list (stream * str)) :
  room_for w needed targets = true →
  (∀ d q, d ∈ needed → q ∈ ancestors d → fs !! q = files w !! q) →
  dirs w ⊆ D →
  (∀ p, p ∈ targets → p ∈ D → p ∈ dirs w) →
  room_for (World fs D out) needed targets = true.
Proof.
  intros Hroom Hfs Hsub Hnew. pose proof (room_for_nameable _ _ _ Hroom) as Hnames.
  apply room_for_spec in Hroom as [Hfiles Htargets].
  apply room_for_intro; cbn [files dirs]; [done|..].
  - intros d q Hd Hq. rewrite (Hfs d q Hd Hq). by eapply Hfiles.
  - intros p Hp. destruct (Htargets p Hp) as (Hdir & Hasked & Hparent).
    split; [|split; [done|]].
    + intros Hin. by apply Hdir, Hnew.
    + destruct Hparent as [?|[?|?]]; [left; by apply Hsub|by right; left|by right; right].
Qed.

(** A path of one project is not a path of another project, nor an ancestor
    of one. *)
Lemma project_paths_apart (base : path) (Name1 Name2 : str) (rel1 rel2 : list str) :
  Name1 ≠ Name2 →
  project_file base Name1 rel1 ∉ ancestors (project_file base Name2 rel2).
Proof.
  intros Hne [n E]%ancestors_inv. unfold project_file in E. cbn [fst snd] in E.
  injection E as E.
  destruct (decide (n ≤ List.length base.2)) as [Hle|Hgt].
  - rewrite take_app_le in E by done.
    apply (f_equal (@List.length str)) in E.
    rewrite length_app, length_take in E. simpl in E. lia.
  - rewrite take_app_ge in E by lia. apply app_inv_head in E.
    destruct (n - List.length base.2) as [|k] eqn:Hk; [lia|].
    cbn [take] in E. by injection E as E _.
Qed.

(** With room for the project, the seed directories are free of regular
    files and the six files are not directories, before and after the
    directories are made. *)
Lemma project_room_spec (w : world) (outputDir key : str) (D : gset path) :
  project_room w outputDir key = true →
  let inside := project_file (path_of_string outputDir) (convertToCamelCase key) in
  (∀ p, p ∈ D → p ∈ dirs w ∨
     ∃ seed, seed ∈ seed_directories ∧ p ∈ ancestors (inside seed)) →
  (∀ seed, seed ∈ seed_directories → files w !! inside seed = None) ∧
  (∀ rel, rel ∈ project_files (convertToCamelCase key) → inside rel ∉ D).
Proof.
  intros [Hfiles Htargets]%room_for_spec inside Hnew. split.
  - intros seed Hseed. apply (Hfiles (inside seed)); [|apply ancestors_self].
    apply list_elem_of_fmap. eauto.
  - intros rel Hrel Hin.
    destruct (Htargets (inside rel)) as (Hdir & Hasked & _).
    { apply list_elem_of_fmap. eauto. }
    destruct (Hnew _ Hin) as [?|(seed & Hseed & Hanc)]; [done|].
    apply (Hasked (inside seed)); [|done]. apply list_elem_of_fmap. eauto.
Qed.

(** C2. For a catalog key, in a world with room for the project,
    [generateExample] completes; the files it writes are the six files
    [contracts/<Name>.sol], [test/<Name>.test.ts], [hardhat.config.ts],
    [tsconfig.json], [package.json] and [README.md] in the directory
    [<Name>] directly under the output directory, where [<Name>] is
    [convertToCamelCase] of the key, and every other file is as before; the
    eight seed directories exist in that directory afterwards, none of the
    six files has the path of a directory, what existed still exists, and a
    directory that is new is an ancestor of the output directory or is the
    project directory, a seed directory, or lies between the two. *)
Theorem generateExample_layout (key outputDir : str)
    (config : CreateExample.ExampleConfig) (w : world) :
  table_get CreateExample.EXAMPLE_CATEGORIES key = Some config →
  project_room w outputDir key = true →
  let base := path_of_string outputDir in
  let Name := convertToCamelCase key in
  let inside := project_file base Name in
  let r := CreateExample.generateExample key outputDir w in
  r.1 = Done () ∧
  files r.2 =
    <[inside [lit "README.md"] := CreateExample.readmeContent config]>
    (<[inside [lit "package.json"] :=
         JSON_stringify (CreateExample.packageJson key config)]>
    (<[inside [lit "tsconfig.json"] := JSON_stringify CreateExample.tsconfig]>
    (<[inside [lit "hardhat.config.ts"] := CreateExample.generateHardhatConfigTemplate]>
    (<[inside [lit "test"; Name +++ ".test.ts"] := CreateExample.generateTestTemplate Name]>
    (<[inside [lit "contracts"; Name +++ ".sol"] :=
         CreateExample.generateContractTemplate
           (CreateExample.name config) (CreateExample.category config)]>
       (files w)))))) ∧
  NoDup (map inside (project_files Name)) ∧
  List.length (project_files Name) = 6 ∧
  List.length seed_directories = 8 ∧
  (∀ seed, seed ∈ seed_directories → inside seed ∈ dirs r.2) ∧
  (∀ rel, rel ∈ project_files Name → inside rel ∉ dirs r.2) ∧
  dirs w ⊆ dirs r.2 ∧
  (∀ p, p ∈ dirs r.2 →
     p ∈ dirs w ∨ (∃ n, p = (base.1, take n base.2)) ∨
     ∃ seed n, seed ∈ seed_directories ∧ p = inside (take n seed)).
Proof.
  intros Hkey Hroom. cbv zeta.
  destruct (generateExample_run key outputDir config w Hkey)
    as (D & out & -> & Hsub & Hall & Hnew).
  destruct (project_room_spec w outputDir key D Hroom Hnew) as [Hfree Hfiles].
  cbn [fst snd files dirs console].
  split; [done|]. split; [done|]. split.
  { cbn [map project_files].
    repeat (apply NoDup_cons; split); [..|apply NoDup_nil; done];
      rewrite ?elem_of_cons, ?elem_of_nil;
      intros H; repeat destruct H as [H|H]; try done; revert H;
      project_files_differ. }
  split; [done|]. split; [done|]. split.
  { intros seed Hseed. destruct (Hall seed Hseed) as [?|Hfile]; [done|].
    rewrite (Hfree seed Hseed) in Hfile. by destruct Hfile. }
  split; [done|]. split; [done|].
  intros p Hp. destruct (Hnew p Hp) as [?|(seed & Hseed & Hanc)]; [by left|right].
  apply ancestors_inv in Hanc as [n ->]. unfold project_file. cbn [fst snd].
  set (segs := (path_of_string outputDir).2).
  destruct (decide (n ≤ List.length segs)).
  - left. exists n. by rewrite take_app_le.
  - right. exists seed, (n - S (List.length segs)). split; [done|].
    rewrite take_app_ge by lia.
    replace (n - List.length segs) with (S (n - S (List.length segs))) by lia.
    done.
Qed.

Lemma generateExample_layout_witness :
  table_get CreateExample.EXAMPLE_CATEGORIES (lit "user-decryption")
  = Some {| CreateExample.name := "User Decryption";
            CreateExample.description := "User-initiated decryption of encrypted values";
            CreateExample.category := "decryption";
            CreateExample.features := [lit "user-decrypt"; lit "authorized-decryption"] |} ∧
  project_room (World ∅ ∅ []) "./examples" "user-decryption" = true ∧
  (CreateExample.generateExample "user-decryption" "./examples" (World ∅ ∅ [])).1 = Done ().
Proof.
  split; [reflexivity|]. split; [vm_compute; reflexivity|].
  eapply (generateExample_layout "user-decryption" "./examples" _ (World ∅ ∅ [])).
  - reflexivity.
  - vm_compute. reflexivity.
Defined.

(** ** Keys outside the catalogs *)

Lemma inherited_names_plain :
  Forall (λ entry : str * inherited_value,
    let Name := convertToCamelCase entry.1 in
    plain_segment entry.1 && plain_segment Name && plain_segment (Name +++ ".sol") &&
    plain_segment (Name +++ ".test.ts") = true)
  Object_prototype.
Proof. repeat constructor. Qed.

(** The run of [generateExample] on the name of an inherited property. *)
Lemma generateExample_inherited_run (key outputDir : str)
    (value : inherited_value) (w : world) :
  table_get Object_prototype key = Some value →
  let base := path_of_string outputDir in
  let Name := convertToCamelCase key in
  let inside := project_file base Name in
  ∃ (D : gset path) (out : list str),
    CreateExample.generateExample_inherited value key outputDir w =
      (Thrown "TypeError",
       World
         match value with
         | Prototype => files w
         | Method name =>
             <[inside [lit "package.json"] :=
                 JSON_stringify (CreateExample.packageJsonOf key None)]>
            (<[inside [lit "tsconfig.json"] := JSON_stringify CreateExample.tsconfig]>
            (<[inside [lit "hardhat.config.ts"] :=
                 CreateExample.generateHardhatConfigTemplate]>
            (<[inside [lit "test"; Name +++ ".test.ts"] :=
                 CreateExample.generateTestTemplate Name]>
            (<[inside [lit "contracts"; Name +++ ".sol"] :=
                 CreateExample.generateContractTemplate name "undefined"]>
               (files w)))))
         end
         D (console w ++ map (λ line, (Stdout, line)) out)) ∧
    dirs w ⊆ D ∧
    (∀ seed, seed ∈ seed_directories →
       inside seed ∈ D ∨ is_Some (files w !! inside seed)) ∧
    (∀ p, p ∈ D → p ∈ dirs w ∨
       ∃ seed, seed ∈ seed_directories ∧ p ∈ ancestors (inside seed)).
Proof.
  intros Hkey. cbv zeta. unfold project_file.
  pose proof inherited_names_plain as Hplain.
  rewrite Forall_forall in Hplain.
  specialize (Hplain _ (table_get_In _ _ _ Hkey)). cbv zeta in Hplain.
  cbn [fst] in Hplain.
  apply andb_true_iff in Hplain as [[[_ HName]%andb_true_iff Hsol]%andb_true_iff Htest].
  unfold CreateExample.generateExample_inherited. cbv zeta.
  set (Name := convertToCamelCase key) in *.
  destruct (path_of_string outputDir) as [abs segs]. destruct w as [fs ds out].
  rewrite !(path_join_plain _ Name) by done.
  rewrite ?(path_join_plain _ (lit "contracts")), ?(path_join_plain _ (lit "test")),
    ?(path_join_plain _ (lit "hardhat.config.ts")), ?(path_join_plain _ (lit "tsconfig.json")),
    ?(path_join_plain _ (lit "package.json")),
    ?(path_join_plain _ (Name +++ ".sol")), ?(path_join_plain _ (Name +++ ".test.ts"))
    by done.
  script_step.
  match goal with
  | |- context [CreateExample.createProjectStructure ?P ?W] =>
      destruct (createProjectStructure_spec P W) as (D & E & Hsub & Hall & Hnew);
      rewrite E
  end.
  lazy beta iota zeta delta [fst snd files dirs console] in Hsub, Hall, Hnew.
  assert (∀ rel, (abs, (segs ++ [Name]) ++ rel) = (abs, segs ++ Name :: rel))
    as Hinside by (intros rel; by rewrite <- app_assoc).
  destruct value as [name|].
  - script_step. unfold throw. rewrite <- !app_assoc. cbn [app].
    exists D.
    eexists [_; _; _; _; _; _; _]. split; [reflexivity|]. split; [done|]. split.
    + intros seed Hseed. rewrite <- Hinside. by apply Hall.
    + intros p Hp. destruct (Hnew p Hp) as [?|(seed & Hseed & Hanc)]; [by left|right].
      exists seed. by rewrite <- Hinside.
  - script_step. unfold throw. rewrite <- !app_assoc. cbn [app].
    exists D.
    eexists [_; _]. split; [reflexivity|]. split; [done|]. split.
    + intros seed Hseed. rewrite <- Hinside. by apply Hall.
    + intros p Hp. destruct (Hnew p Hp) as [?|(seed & Hseed & Hanc)]; [by left|right].
      exists seed. by rewrite <- Hinside.
Qed.

Lemma property_get_Inherited {V} (table : list (str * V)) key value :
  table_get table key = None → table_get Object_prototype key = Some value →
  property_get table key = Inherited value.
Proof. intros H1 H2. unfold property_get. by rewrite H1, H2. Qed.

(** C4. A key without an entry in the example catalog.  Unless the key is
    the name of a property that every object inherits, [generateExample]
    leaves the files and the directories as they were, prints the error and
    the list of valid keys on standard error, and ends the process with
    status 1.  For the name of an inherited property the lookup finds that
    property and the guard lets the run pass: in a world with room for a
    project nothing is printed on standard error, the seed directories are
    made, five files are written (none for [__proto__], whose value has no
    name), and the run ends with a [TypeError] that nothing catches.  In
    both cases the [create] command ends with status 1. *)
Theorem generateExample_unknown_key (key outputDir : str) (rest : list str) (w : world) :
  table_get CreateExample.EXAMPLE_CATEGORIES key = None →
  let r := CreateExample.generateExample key outputDir w in
  let inside := project_file (path_of_string outputDir) (convertToCamelCase key) in
  (inherited_property key = false →
     r.1 = Exited 1 ∧
     files r.2 = files w ∧
     dirs r.2 = dirs w ∧
     console r.2 = console w ++
       [ (Stderr, "Unknown example: " +++ key);
         (Stderr, lit "Available examples: encrypted-counter, access-control, encrypted-arithmetic, user-decryption, public-decryption") ] ∧
     let m := CreateExample.main (lit "create" :: key :: rest) w in
     files m.2 = files w ∧ dirs m.2 = dirs w) ∧
  (inherited_property key = true → project_room w outputDir key = true →
     r.1 = Thrown "TypeError" ∧
     (∀ line, (Stderr, line) ∈ console r.2 → (Stderr, line) ∈ console w) ∧
     (∀ seed, seed ∈ seed_directories → inside seed ∈ dirs r.2) ∧
     (key ≠ lit "__proto__" →
      ∀ rel, rel ∈ project_files (convertToCamelCase key) → rel ≠ [lit "README.md"] →
             is_Some (files r.2 !! inside rel)) ∧
     (key = lit "__proto__" → files r.2 = files w)) ∧
  exit_status (CreateExample.main (lit "create" :: key :: rest) w).1 = 1.
Proof.
  intros Hkey. cbv zeta. rewrite CreateExample_main_create.
  destruct (inherited_property key) eqn:Hinherited.
  - destruct (inherited_property_true key Hinherited) as [value Hvalue].
    unfold CreateExample.generateExample.
    rewrite (property_get_Inherited _ _ _ Hkey Hvalue).
    split; [done|]. split; [|
      by destruct (generateExample_inherited_run key (arg_or (head rest) ".") value w Hvalue)
        as (D & out & -> & _)].
    intros _ Hroom.
    destruct (generateExample_inherited_run key outputDir value w Hvalue)
      as (D & out & -> & Hsub & Hall & Hnew).
    destruct (project_room_spec w outputDir key D Hroom Hnew) as [Hfree Hfiles].
    cbn [fst snd files dirs console].
    split; [done|]. split; [|split; [|split]].
    + intros line [?|Hin]%elem_of_app; [done|].
      by apply list_elem_of_fmap in Hin as (? & [=] & _).
    + intros seed Hseed. destruct (Hall seed Hseed) as [?|Hfile]; [done|].
      rewrite (Hfree seed Hseed) in Hfile. by destruct Hfile.
    + intros Hproto rel Hrel Hreadme. destruct value as [name|].
      * unfold project_files in Hrel.
        rewrite !elem_of_cons, elem_of_nil in Hrel.
        destruct Hrel as [->|[->|[->|[->|[->|[->|[]]]]]]]; [..|done];
          rewrite ?lookup_insert_is_Some'; tauto.
      * exfalso. apply Hproto. revert Hvalue. clear. unfold Object_prototype, table_get.
        repeat (destruct (decide _) as [<-|_]; [by intros [=]|]). done.
    + intros ->. by injection Hvalue as <-.
  - split; [|split; [done|by rewrite generateExample_unknown]].
    intros _. by rewrite !generateExample_unknown.
Qed.

Lemma generateExample_unknown_key_witness :
  table_get CreateExample.EXAMPLE_CATEGORIES (lit "constructor") = None ∧
  (CreateExample.generateExample "constructor" "out" (World ∅ ∅ [])).1 = Thrown "TypeError" ∧
  is_Some (files (CreateExample.generateExample "constructor" "out" (World ∅ ∅ [])).2
             !! (false, [lit "out"; lit "Constructor"; lit "contracts"; lit "Constructor.sol"])) ∧
  (false, [lit "out"; lit "Constructor"; lit "contracts"])
    ∈ dirs (CreateExample.generateExample "constructor" "out" (World ∅ ∅ [])).2 ∧
  table_get CreateExample.EXAMPLE_CATEGORIES (lit "not-a-real-key") = None ∧
  (CreateExample.generateExample "not-a-real-key" "out" (World ∅ ∅ [])).1 = Exited 1.
Proof.
  split; [reflexivity|].
  destruct (generateExample_unknown_key "constructor" "out" [] (World ∅ ∅ []) eq_refl)
    as (_ & Hinherited & _).
  destruct (Hinherited eq_refl) as (Hthrown & _ & Hseeds & Hfiles & _);
    [vm_compute; reflexivity|].
  split; [exact Hthrown|]. split; [|split].
  - apply (Hfiles ltac:(discriminate) [lit "contracts"; lit "Constructor.sol"]);
      [|discriminate].
    apply list_elem_of_here.
  - apply (Hseeds [lit "contracts"]). apply list_elem_of_here.
  - split; [reflexivity|].
    destruct (generateExample_unknown_key "not-a-real-key" "out" [] (World ∅ ∅ []) eq_refl)
      as (Hunknown & _).
    apply Hunknown. reflexivity.
Defined.

(** [if (!fs.existsSync(p)) fs.mkdirSync(p, { recursive: true })], and what
    follows it. *)
Lemma ensure_directory_then {B} (p : path) (k : Script B) (w : world) :
  ∃ D : gset path,
    (ex ← existsSync p; (if negb ex then mkdirSync_recursive p else mret ()) ;; k) w
    = k (World (files w) D (console w)) ∧
    dirs w ⊆ D ∧
    (p ∈ D ∨ is_Some (files w !! p)) ∧
    (∀ q, q ∈ D → q ∈ dirs w ∨ q ∈ ancestors p) ∧
    (p ∈ dirs w ∨ is_Some (files w !! p) → D = dirs w).
Proof.
  unfold mbind, Script_bind, existsSync.
  destruct (bool_decide (p ∈ dirs w ∨ is_Some (files w !! p))) eqn:Hex; cbn [negb].
  - apply bool_decide_eq_true in Hex. exists (dirs w). destruct w. cbn in *.
    repeat split; [done|done|by left].
  - apply bool_decide_eq_false in Hex.
    exists (dirs w ∪ list_to_set (ancestors p)). unfold mkdirSync_recursive.
    split; [done|]. split; [apply union_subseteq_l|]. split; [|split; [|done]].
    + left. apply elem_of_union_r, elem_of_list_to_set, ancestors_self.
    + intros q [?|Hq]%elem_of_union; [by left|right]. by apply elem_of_list_to_set in Hq.
Qed.

(** A key that is not in the example catalog: the [create] command ends
    with status 1, through [process.exit] or through an uncaught error. *)
Lemma CreateExample_create_unknown (key : str) (rest : list str) (w : world) :
  table_get CreateExample.EXAMPLE_CATEGORIES key = None →
  exit_status (CreateExample.main (lit "create" :: key :: rest) w).1 = 1.
Proof.
  intros Hkey. rewrite CreateExample_main_create.
  destruct (inherited_property key) eqn:Hinherited.
  - destruct (inherited_property_true key Hinherited) as [value Hvalue].
    unfold CreateExample.generateExample.
    rewrite (property_get_Inherited _ _ _ Hkey Hvalue).
    by destruct (generateExample_inherited_run key (arg_or (head rest) ".") value w Hvalue)
      as (D & out & -> & _).
  - by rewrite generateExample_unknown.
Qed.

(** The run of [createCategoryStructure] on the name of an inherited
    property. *)
Lemma createCategoryStructure_inherited_run (key outputDir : str)
    (value : inherited_value) (w : world) :
  table_get Object_prototype key = Some value →
  let directory := category_directory (path_of_string outputDir) key in
  ∃ D : gset path,
    CreateCategory.createCategoryStructure_inherited key outputDir w
    = (Thrown "TypeError", World (files w) D (console w)) ∧
    dirs w ⊆ D ∧
    (directory ∈ D ∨ is_Some (files w !! directory)) ∧
    (∀ q, q ∈ D → q ∈ dirs w ∨ q ∈ ancestors directory).
Proof.
  intros Hkey. cbv zeta. unfold category_directory.
  pose proof inherited_names_plain as Hplain.
  rewrite Forall_forall in Hplain.
  specialize (Hplain _ (table_get_In _ _ _ Hkey)). cbv zeta in Hplain.
  cbn [fst] in Hplain.
  apply andb_true_iff in Hplain as [[[Hplain _]%andb_true_iff _]%andb_true_iff _].
  unfold CreateCategory.createCategoryStructure_inherited. cbv zeta.
  rewrite (path_join_plain _ key) by done.
  destruct (ensure_directory_then ((path_of_string outputDir).1,
                                   (path_of_string outputDir).2 ++ [key])
              (throw (A:=unit) "TypeError") w)
    as (D & E & Hsub & Hdir & Hnew & _).
  exists D. by rewrite E.
Qed.

(** C5. A key without an entry in the category catalog.  Unless the key is
    the name of a property that every object inherits,
    [createCategoryStructure] writes no file and creates no directory,
    prints the error on standard error and returns normally, so that the
    [create] command of the category script ends with status 0.  For the
    name of an inherited property the lookup finds that property and the
    guard lets the run pass: where no regular file is in the way, the
    directory of the category is made, nothing is printed or written, and
    the run ends with a [TypeError] that nothing catches, so the [create]
    command ends with status 1.  The [create] command of the example script
    ends with status 1 on every key that is not in its catalog. *)
Theorem createCategoryStructure_unknown_key (key outputDir : str) (rest : list str) (w : world) :
  table_get CreateCategory.CATEGORIES key = None →
  let r := CreateCategory.createCategoryStructure key outputDir w in
  let m := CreateCategory.main (lit "create" :: key :: rest) w in
  (inherited_property key = false →
     r.1 = Done () ∧
     files r.2 = files w ∧
     dirs r.2 = dirs w ∧
     console r.2 = console w ++ [(Stderr, "Unknown category: " +++ key)] ∧
     exit_status m.1 = 0 ∧ files m.2 = files w ∧ dirs m.2 = dirs w) ∧
  (inherited_property key = true →
     exit_status m.1 = 1 ∧
     (room_for w [category_directory (path_of_string outputDir) key] [] = true →
      r.1 = Thrown "TypeError" ∧
      files r.2 = files w ∧
      console r.2 = console w ∧
      category_directory (path_of_string outputDir) key ∈ dirs r.2)) ∧
  (table_get CreateExample.EXAMPLE_CATEGORIES key = None →
   exit_status (CreateExample.main (lit "create" :: key :: rest) w).1 = 1).
Proof.
  intros Hkey. cbv zeta. rewrite CreateCategory_main_create.
  split; [|split].
  - intros Hplain. by rewrite !createCategoryStructure_unknown.
  - intros [value Hvalue]%inherited_property_true.
    unfold CreateCategory.createCategoryStructure.
    rewrite (property_get_Inherited _ _ _ Hkey Hvalue). split.
    + by destruct (createCategoryStructure_inherited_run key
                     (arg_or (head rest) "./docs/categories") value w Hvalue)
        as (D & -> & _).
    + intros [Hfree _]%room_for_spec.
      destruct (createCategoryStructure_inherited_run key outputDir value w Hvalue)
        as (D & -> & Hsub & Hdir & Hnew).
      cbn [fst snd files dirs console]. repeat split.
      destruct Hdir as [?|Hfile]; [done|].
      rewrite (Hfree (category_directory (path_of_string outputDir) key)) in Hfile.
      * by destruct Hfile.
      * apply list_elem_of_here.
      * apply ancestors_self.
  - intros Hkey'.
    by apply CreateExample_create_unknown.
Qed.

Lemma createCategoryStructure_unknown_key_witness :
  table_get CreateCategory.CATEGORIES (lit "constructor") = None ∧
  exit_status (CreateCategory.main [lit "create"; lit "constructor"] (World ∅ ∅ [])).1 = 1 ∧
  console (CreateCategory.createCategoryStructure "constructor" "out" (World ∅ ∅ [])).2 = [] ∧
  (false, [lit "out"; lit "constructor"])
    ∈ dirs (CreateCategory.createCategoryStructure "constructor" "out" (World ∅ ∅ [])).2 ∧
  table_get CreateCategory.CATEGORIES (lit "no-such-category") = None ∧
  (CreateCategory.createCategoryStructure "no-such-category" "out" (World ∅ ∅ [])).1 = Done ().
Proof.
  split; [reflexivity|].
  destruct (createCategoryStructure_unknown_key "constructor" "out" [] (World ∅ ∅ []) eq_refl)
    as (_ & Hinherited & _).
  destruct (Hinherited eq_refl) as (Hstatus & Hrun).
  destruct Hrun as (_ & _ & Hconsole & Hdir); [vm_compute; reflexivity|].
  split; [exact Hstatus|]. split; [exact Hconsole|]. split; [exact Hdir|].
  split; [reflexivity|].
  destruct (createCategoryStructure_unknown_key "no-such-category" "out" [] (World ∅ ∅ [])
              eq_refl) as (Hunknown & _).
  apply Hunknown. reflexivity.
Defined.

(** ** The identifier in the generated contract *)

Lemma catalog_contract_texts :
  Forall (λ entry : str * CreateExample.ExampleConfig,
    let Name := convertToCamelCase entry.1 in
    let contractText :=
      CreateExample.generateContractTemplate
        (CreateExample.name entry.2) (CreateExample.category entry.2) in
    includes contractText Name = false ∧
    includes contractText
      ("contract " +++ CreateExample.name entry.2 +++ " is ZamaEthereumConfig") = true ∧
    includes (CreateExample.generateTestTemplate Name)
      ("getContractFactory(" +++ dq +++ Name +++ dq +++ ")") = true)
  CreateExample.EXAMPLE_CATEGORIES.
Proof. repeat constructor; vm_compute; reflexivity. Qed.

(** C1, on the code: for every catalog key, the contract file that
    [generateExample] writes does not contain the identifier
    [convertToCamelCase key].  The contract template receives the entry's
    display name, which has spaces and no hyphen, and declares
    [contract <display name> is ...]; the test file written next to it does
    ask the contract factory for [convertToCamelCase key]. *)
Theorem generated_contract_lacks_identifier (key outputDir : str)
    (config : CreateExample.ExampleConfig) (w : world) :
  table_get CreateExample.EXAMPLE_CATEGORIES key = Some config →
  let Name := convertToCamelCase key in
  let inside := project_file (path_of_string outputDir) Name in
  let w' := (CreateExample.generateExample key outputDir w).2 in
  ∃ contractText testText,
    files w' !! inside [lit "contracts"; Name +++ ".sol"] = Some contractText ∧
    includes contractText Name = false ∧
    includes contractText
      ("contract " +++ CreateExample.name config +++ " is ZamaEthereumConfig") = true ∧
    files w' !! inside [lit "test"; Name +++ ".test.ts"] = Some testText ∧
    includes testText ("getContractFactory(" +++ dq +++ Name +++ dq +++ ")") = true.
Proof.
  intros Hkey. cbv zeta.
  destruct (generateExample_run key outputDir config w Hkey)
    as (D & out & -> & _). cbn [snd files].
  pose proof catalog_contract_texts as Htexts. rewrite Forall_forall in Htexts.
  destruct (Htexts _ (table_get_In _ _ _ Hkey)) as (Hno & Hdecl & Htest).
  eexists _, _. split; [|split; [exact Hno|split; [exact Hdecl|split; [|exact Htest]]]].
  - rewrite !lookup_insert_ne by project_files_differ. apply lookup_insert_eq.
  - rewrite !lookup_insert_ne by project_files_differ. apply lookup_insert_eq.
Qed.

Lemma generated_contract_lacks_identifier_witness :
  table_get CreateExample.EXAMPLE_CATEGORIES (lit "encrypted-counter")
  = Some {| CreateExample.name := "Encrypted Counter";
            CreateExample.description :=
              "Basic FHE counter demonstrating simple encrypted arithmetic";
            CreateExample.category := "basic";
            CreateExample.features :=
              [lit "addition"; lit "subtraction"; lit "encryption"] |} ∧
  ∃ contractText,
    files (CreateExample.generateExample "encrypted-counter" "." (World ∅ ∅ [])).2
      !! project_file (path_of_string ".") (convertToCamelCase "encrypted-counter")
           [lit "contracts"; convertToCamelCase "encrypted-counter" +++ ".sol"]
    = Some contractText ∧
    includes contractText (convertToCamelCase "encrypted-counter") = false.
Proof.
  split; [reflexivity|].
  destruct (generated_contract_lacks_identifier "encrypted-counter" "." _
              (World ∅ ∅ []) eq_refl)
    as (contractText & testText & Hfile & Hlacks & _).
  exists contractText. split; [exact Hfile|exact Hlacks].
Defined.

(** ** Substrings *)

Lemma strip_prefix_Some (p s r : str) : strip_prefix p s = Some r ↔ s = p ++ r.
Proof.
  revert s. induction p as [|a p IH]; intros s; simpl.
  - split; [by intros [= ->]|by intros ->].
  - destruct s as [|b s]; [done|].
    destruct (decide (a = b)) as [->|Hne].
    + rewrite IH. split; [by intros ->|by intros [= ->]].
    + split; [done|]. intros [= -> _]. done.
Qed.

Lemma strip_prefix_app (p s : str) : strip_prefix p (p ++ s) = Some s.
Proof. by apply strip_prefix_Some. Qed.

Lemma includes_true (s sub : str) :
  includes s sub = true ↔ ∃ pre post, s = pre ++ sub ++ post.
Proof.
  induction s as [|c s IH]; simpl.
  - destruct (strip_prefix sub []) as [r|] eqn:E.
    + apply strip_prefix_Some in E. split; [|done]. intros _. by exists [], r.
    + split; [done|]. intros (pre & post & H).
      destruct pre; [|done]. simpl in H.
      assert (strip_prefix sub [] = Some post) by by apply strip_prefix_Some.
      congruence.
  - destruct (strip_prefix sub (c :: s)) as [r|] eqn:E.
    + apply strip_prefix_Some in E. split; [|done]. intros _. by exists [], r.
    + rewrite IH. split.
      * intros (pre & post & ->). by exists (c :: pre), post.
      * intros (pre & post & H). destruct pre as [|c' pre].
        -- simpl in H.
           assert (strip_prefix sub (c :: s) = Some post) by by apply strip_prefix_Some.
           congruence.
        -- injection H as -> ->. by exists pre, post.
Qed.

Lemma includes_false (s sub : str) :
  includes s sub = false ↔ ∀ pre post, s ≠ pre ++ sub ++ post.
Proof.
  rewrite <- not_true_iff_false, includes_true. split.
  - intros H pre post E. apply H. eauto.
  - intros H (pre & post & E). by eapply H.
Qed.

Lemma run_unique (p : ascii → bool) (u u' s s' : str) :
  all_chars p u → all_chars p u' → stops p s → stops p s' →
  u ++ s = u' ++ s' → u = u' ∧ s = s'.
Proof.
  intros Hu. revert u'. induction Hu as [|c u Hc _ IH]; intros u' Hu' Hs Hs' E.
  - destruct Hu' as [|c' u' Hc' _]; [done|].
    simpl in E. subst s. simpl in Hs. congruence.
  - destruct Hu' as [|c' u' Hc' Hu'].
    + simpl in E. subst s'. simpl in Hs'. congruence.
    + injection E as -> E. destruct (IH u' Hu' Hs Hs' E) as [-> ->]. done.
Qed.

(** ** The matcher *)

Lemma star_lazy_In p s s' :
  In s' (star_lazy p s) ↔ ∃ u, s = u ++ s' ∧ all_chars p u.
Proof.
  revert s'. induction s as [|c s IH]; intros s'; simpl.
  - split.
    + intros [<-|[]]. by exists [].
    + intros (u & E & _). left. symmetry in E. by apply app_eq_nil in E as [_ ->].
  - split.
    + intros [<-|H]; [by exists []|].
      destruct (p c) eqn:Hc; [|done].
      apply IH in H as (u & -> & Hu). exists (c :: u). by split; [|constructor].
    + intros (u & E & Hu). destruct Hu as [|c' u Hc' Hu].
      * left. done.
      * right. injection E as -> ->. rewrite Hc'. apply IH. eauto.
Qed.

Lemma star_greedy_rev p s : star_greedy p s = rev (star_lazy p s).
Proof.
  induction s as [|c s IH]; [done|].
  simpl. destruct (p c); [by rewrite IH|done].
Qed.

Lemma star_greedy_In p s s' :
  In s' (star_greedy p s) ↔ ∃ u, s = u ++ s' ∧ all_chars p u.
Proof. by rewrite star_greedy_rev, <- in_rev, star_lazy_In. Qed.

Lemma matches_suffix r s c s' c' : matches r s c s' c' → ∃ u, s = u ++ s'.
Proof.
  induction 1 as [w s c|p x s c _|g p u s c _| r1 r2 s c s1 c1 s2 c2 _ [u1 ->] _ [u2 ->]
                 | | |n r u s c c' _ _].
  - by exists w.
  - by exists [x].
  - by exists u.
  - exists (u1 ++ u2). by rewrite <- app_assoc.
  - done.
  - done.
  - by exists u.
Qed.

Lemma take_consumed (u s : str) : take (List.length (u ++ s) - List.length s) (u ++ s) = u.
Proof.
  rewrite length_app. replace (List.length u + List.length s - List.length s)
    with (List.length u) by lia.
  by rewrite take_app_length.
Qed.

(** The matcher finds exactly the declarative matches. *)
Lemma run_matches r s c s' c' : In (s', c') (run r s c) ↔ matches r s c s' c'.
Proof.
  split.
  - revert s c s' c'.
    induction r as [w|p|g p|r1 IH1 r2 IH2|r1 IH1 r2 IH2|n r IH]; intros s c s' c'; simpl.
    + destruct (strip_prefix w s) as [s0|] eqn:E; [|done].
      apply strip_prefix_Some in E as ->. intros [[= <- <-]|[]]. constructor.
    + destruct s as [|x s]; [done|]. destruct (p x) eqn:Hx; [|done].
      intros [[= <- <-]|[]]. by constructor.
    + intros (s0 & [= <- <-] & H)%in_map_iff.
      assert (∃ u, s = u ++ s0 ∧ all_chars p u) as (u & -> & Hu)
        by (destruct g; [by apply star_greedy_In|by apply star_lazy_In]).
      by constructor.
    + intros ([s1 c1] & H1 & H2)%in_flat_map. simpl in H2.
      econstructor; [by apply IH1|by apply IH2].
    + intros [H|H]%in_app_or; [apply matches_Alt_l|apply matches_Alt_r]; eauto.
    + intros ([s0 c0] & [= <- <-] & H)%in_map_iff. simpl.
      apply IH in H. destruct (matches_suffix _ _ _ _ _ H) as [u ->].
      rewrite take_consumed. by constructor.
  - induction 1 as [w s c|p x s c Hx|g p u s c Hu| r1 r2 s c s1 c1 s2 c2 _ IH1 _ IH2
                   |r1 r2 s c s' c' _ IH|r1 r2 s c s' c' _ IH|n r u s c c' _ IH]; simpl.
    + rewrite strip_prefix_app. by left.
    + rewrite Hx. by left.
    + apply in_map_iff. exists s. split; [done|].
      destruct g; [apply star_greedy_In|apply star_lazy_In]; eauto.
    + apply in_flat_map. by exists (s1, c1).
    + apply in_or_app. by left.
    + apply in_or_app. by right.
    + apply in_map_iff. exists (s, c'). simpl. by rewrite take_consumed.
Qed.

Lemma matches_Plus g p s c s' c' :
  matches (Plus g p) s c s' c' ↔ ∃ u, s = u ++ s' ∧ u ≠ [] ∧ all_chars p u ∧ c' = c.
Proof.
  unfold Plus. split.
  - intros H. inversion H as [| | |? ? ? ? s1 c1 ? ? H1 H2| | |]; subst.
    inversion H1; subst. inversion H2; subst.
    eexists (_ :: _). split; [done|]. split; [done|]. split; [by constructor|done].
  - intros (u & -> & Hne & Hu & ->). destruct Hu as [|x u Hx Hu]; [done|].
    econstructor; [by constructor|]. by constructor.
Qed.

(** [search] reports nothing exactly when the pattern matches at no
    position of the input. *)
Lemma search_None r s :
  search r s = None ↔ ∀ pre t, s = pre ++ t → run r t [] = [].
Proof.
  induction s as [|x s IH]; simpl.
  - destruct (run r [] []) as [|[s' c'] l] eqn:E.
    + split; [|done]. intros _ pre t Hs. symmetry in Hs.
      apply app_eq_nil in Hs as [_ ->]. done.
    + split; [done|]. intros H. by rewrite (H [] []) in E.
  - destruct (run r (x :: s) []) as [|[s' c'] l] eqn:E.
    + rewrite IH. split.
      * intros H [|y pre] t Hs; simpl in Hs; [by subst t|].
        injection Hs as -> ->. by eapply H.
      * intros H pre t ->. by apply (H (x :: pre)).
    + split; [done|]. intros H. by rewrite (H [] (x :: s)) in E.
Qed.

Lemma search_here r t s' c' l :
  run r t [] = (s', c') :: l → search r t = Some (c', s').
Proof. intros E. destruct t; simpl; by rewrite E. Qed.

Lemma search_Some r s :
  is_Some (search r s) ↔ ∃ pre t s' c', s = pre ++ t ∧ matches r t [] s' c'.
Proof.
  split.
  - induction s as [|x s IH]; simpl.
    + destruct (run r [] []) as [|[s' c'] l] eqn:E; [by intros [? ?]|].
      intros _. exists [], [], s', c'. split; [done|].
      apply run_matches. rewrite E. by left.
    + destruct (run r (x :: s) []) as [|[s' c'] l] eqn:E.
      * intros (pre & t & s' & c' & -> & H)%IH. by exists (x :: pre), t, s', c'.
      * intros _. exists [], (x :: s), s', c'. split; [done|].
        apply run_matches. rewrite E. by left.
  - intros (pre & t & s' & c' & -> & H%run_matches).
    destruct (search r (pre ++ t)) eqn:E; [done|].
    rewrite search_None in E. by rewrite (E pre t) in H.
Qed.

(** Positions at which the pattern cannot match are passed over. *)
Lemma search_skip r pre t :
  (∀ pre1 u, pre = pre1 ++ u → u ≠ [] → run r (u ++ t) [] = []) →
  search r (pre ++ t) = search r t.
Proof.
  induction pre as [|x pre IH]; intros H; [done|].
  change (search r ((x :: pre) ++ t)) with
    (match run r ((x :: pre) ++ t) [] with
     | (s', caps) :: _ => Some (caps, s')
     | [] => search r (pre ++ t)
     end).
  rewrite (H [] (x :: pre)) by done.
  apply IH. intros pre1 u -> Hu. by apply (H (x :: pre1)).
Qed.

Lemma exec_all_passes r (u s : str) :
  exec_all_from r (List.length u) (u ++ s) = exec_all_from r 0 s.
Proof. induction u as [|x u IH]; [done|]. simpl. apply IH. Qed.

(** A match that consumes [u] is reported, and the loop goes on after it. *)
Lemma exec_all_here r (u s' : str) c' l :
  u ≠ [] → run r (u ++ s') [] = (s', c') :: l →
  exec_all r (u ++ s') = c' :: exec_all r s'.
Proof.
  intros Hu E. destruct u as [|x u]; [done|].
  unfold exec_all. simpl. simpl in E. rewrite E. f_equal.
  replace (S (List.length (u ++ s')) - List.length s' - 1) with (List.length u)
    by (rewrite length_app; lia).
  apply exec_all_passes.
Qed.

Lemma exec_all_skip r pre t :
  (∀ pre1 u, pre = pre1 ++ u → u ≠ [] → run r (u ++ t) [] = []) →
  exec_all r (pre ++ t) = exec_all r t.
Proof.
  unfold exec_all. induction pre as [|x pre IH]; intros H; [done|].
  simpl. pose proof (H [] (x :: pre) eq_refl) as E. simpl in E. rewrite E by done.
  apply IH. intros pre1 u -> Hu. by apply (H (x :: pre1)).
Qed.

Lemma exec_all_none r s :
  (∀ pre t, s = pre ++ t → run r t [] = []) → exec_all r s = [].
Proof.
  unfold exec_all. induction s as [|x s IH]; intros H; simpl.
  - by rewrite (H [] []).
  - rewrite (H [] (x :: s)) by done. apply IH. intros pre t ->. by apply (H (x :: pre)).
Qed.

(** When every match at a position is the same, it is the one reported. *)
Lemma run_head r s y :
  In y (run r s []) → (∀ x, In x (run r s []) → x = y) → ∃ l, run r s [] = y :: l.
Proof.
  destruct (run r s []) as [|x l]; [done|]. intros _ H.
  exists l. f_equal. apply H. by left.
Qed.

(** *** Inversion of matches *)

Lemma matches_Lit_inv w s c s' c' :
  matches (Lit w) s c s' c' ↔ s = w ++ s' ∧ c' = c.
Proof.
  split; [by inversion 1|]. intros [-> ->]. constructor.
Qed.

Lemma matches_Class_inv p s c s' c' :
  matches (Class p) s c s' c' ↔ ∃ x, s = x :: s' ∧ p x = true ∧ c' = c.
Proof.
  split; [inversion 1; eauto|]. intros (x & -> & Hx & ->). by constructor.
Qed.

Lemma matches_Star_inv g p s c s' c' :
  matches (Star g p) s c s' c' ↔ ∃ u, s = u ++ s' ∧ all_chars p u ∧ c' = c.
Proof.
  split; [inversion 1; eauto|]. intros (u & -> & Hu & ->). by constructor.
Qed.

Lemma matches_Seq_inv r1 r2 s c s2 c2 :
  matches (Seq r1 r2) s c s2 c2 ↔
  ∃ s1 c1, matches r1 s c s1 c1 ∧ matches r2 s1 c1 s2 c2.
Proof.
  split; [inversion 1; eauto|]. intros (s1 & c1 & H1 & H2). by econstructor.
Qed.


Lemma matches_Group_inv n r s c s' c' :
  matches (Group n r) s c s' c' ↔
  ∃ u c0, s = u ++ s' ∧ matches r s c s' c0 ∧ c' = (n, u) :: c0.
Proof.
  split.
  - inversion 1; subst. eauto.
  - intros (u & c0 & -> & H & ->). by constructor.
Qed.

(** *** First occurrences of a literal *)

(** Before the first occurrence of a borderless word, the word does not
    start. *)
Lemma no_early_occurrence (w pre x : str) :
  borderless w = true → includes pre w = false →
  ∀ pre1 u, pre = pre1 ++ u → u ≠ [] → strip_prefix w (u ++ w ++ x) = None.
Proof.
  intros Hb Hpre pre1 u -> Hu.
  destruct (strip_prefix w (u ++ w ++ x)) as [r|] eqn:E; [exfalso|done].
  apply strip_prefix_Some in E.
  rewrite includes_false in Hpre.
  destruct (decide (List.length w ≤ List.length u)) as [Hle|Hgt].
  - apply (Hpre pre1 (drop (List.length w) u)). f_equal.
    rewrite <- (take_drop (List.length w) u) at 1. f_equal.
    apply (f_equal (take (List.length w))) in E.
    rewrite take_app_le, take_app_length in E by done. done.
  - unfold borderless in Hb. rewrite forallb_forall in Hb.
    specialize (Hb (List.length u)).
    rewrite negb_true_iff, bool_decide_eq_false in Hb. apply Hb.
    + apply in_seq. destruct u; [done|]. simpl in *. lia.
    + assert (w = u ++ drop (List.length u) w) as Hw.
      { rewrite <- (take_drop (List.length u) w) at 1. f_equal.
        apply (f_equal (take (List.length u))) in E.
        rewrite take_app_length, take_app_le in E by lia. done. }
      rewrite Hw in E at 2. rewrite <- app_assoc in E. apply app_inv_head in E.
      apply (f_equal (take (List.length w - List.length u))) in E.
      rewrite take_app_le in E by lia.
      rewrite take_app_le in E by (rewrite length_drop; lia).
      rewrite (take_ge (drop _ _)) in E by (rewrite length_drop; lia).
      done.
Qed.

Lemma run_Lit_None w r s c : strip_prefix w s = None → run (Seq (Lit w) r) s c = [].
Proof. intros E. simpl. by rewrite E. Qed.

Lemma run_Lit_Some w r s c : run (Seq (Lit w) r) (w ++ s) c = run r s c.
Proof. simpl. rewrite strip_prefix_app. simpl. apply app_nil_r. Qed.

(** ** Tags in comment blocks *)

Lemma matches_tagRegex tag s s' c' :
  matches (tagRegex tag) s [] s' c' ↔
  ∃ ws text, s = tag ++ ws ++ text ++ s' ∧
    ws ≠ [] ∧ all_chars is_space ws ∧
    text ≠ [] ∧ all_chars not_line_terminator text ∧ c' = [(1, text)].
Proof.
  unfold tagRegex. split.
  - intros (s1 & c1 & [-> ->]%matches_Lit_inv & H)%matches_Seq_inv.
    apply matches_Seq_inv in H as (s2 & c2 & H1 & H2).
    apply matches_Plus in H1 as (ws & -> & Hws & Hall & ->).
    apply matches_Group_inv in H2 as (u & c0 & E & H2 & ->).
    apply matches_Plus in H2 as (text & -> & Htext & Hall' & ->).
    apply app_inv_tail in E as <-. by exists ws, text.
  - intros (ws & text & -> & Hws & Hall & Htext & Hall' & ->).
    apply matches_Seq_inv. exists (ws ++ text ++ s'), []. split; [constructor|].
    apply matches_Seq_inv. exists (text ++ s'), []. split.
    + apply matches_Plus. by exists ws.
    + constructor. apply matches_Plus. by exists text.
Qed.

Lemma search_tagged tag block :
  is_Some (search (tagRegex tag) block) ↔ tagged tag block.
Proof.
  rewrite search_Some. unfold tagged. split.
  - intros (pre & t & s' & c' & -> & H). apply matches_tagRegex in H
      as (ws & text & -> & ? & ? & ? & ? & _). by exists pre, ws, text, s'.
  - intros (pre & ws & text & post & -> & ? & ? & ? & ?).
    exists pre, (tag ++ ws ++ text ++ post), post, [(1, text)]. split; [done|].
    apply matches_tagRegex. by exists ws, text.
Qed.






Lemma search_Some_matches r s c' s' :
  search r s = Some (c', s') → ∃ pre t, s = pre ++ t ∧ matches r t [] s' c'.
Proof.
  induction s as [|x s IH]; simpl.
  - destruct (run r [] []) as [|[s0 c0] l] eqn:E; [done|].
    intros [= <- <-]. exists [], []. split; [done|].
    apply run_matches. rewrite E. by left.
  - destruct (run r (x :: s) []) as [|[s0 c0] l] eqn:E.
    + intros (pre & t & -> & H)%IH. by exists (x :: pre), t.
    + intros [= <- <-]. exists [], (x :: s). split; [done|].
      apply run_matches. rewrite E. by left.
Qed.

(** *** Test declarations *)

Lemma matches_testNameRegex s s' c' :
  matches testNameRegex s [] s' c' ↔
  ∃ title, s = ("it(" +++ dq) ++ title ++ dq ++ s' ∧
    title ≠ [] ∧ all_chars (not_char "034"%char) title ∧ c' = [(1, title)].
Proof.
  unfold testNameRegex. split.
  - intros (s1 & c1 & [-> ->]%matches_Lit_inv & H)%matches_Seq_inv.
    apply matches_Seq_inv in H as (s2 & c2 & H1 & [-> ->]%matches_Lit_inv).
    apply matches_Group_inv in H1 as (u & c0 & E & H1 & ->).
    apply matches_Plus in H1 as (title & E' & Htitle & Hall & ->).
    rewrite E in E'. apply app_inv_tail in E' as ->. rewrite E. by exists title.
  - intros (title & -> & Htitle & Hall & ->).
    apply matches_Seq_inv. exists (title ++ dq ++ s'), []. split; [constructor|].
    apply matches_Seq_inv. exists (dq ++ s'), [(1, title)]. split; [|constructor].
    constructor. apply matches_Plus. by exists title.
Qed.

Lemma search_test_declaration line :
  is_Some (search testNameRegex line) ↔ test_declaration line.
Proof.
  rewrite search_Some. unfold test_declaration. split.
  - intros (pre & t & s' & c' & -> & H). apply matches_testNameRegex in H
      as (title & -> & ? & ? & _). by exists pre, title, s'.
  - intros (pre & title & post & -> & ? & ?).
    exists pre, (("it(" +++ dq) ++ title ++ dq ++ post), post, [(1, title)].
    split; [done|]. apply matches_testNameRegex. by exists title.
Qed.

Lemma test_declaration_guard line :
  test_declaration line →
  negb (bool_decide (line = [])) && includes line ("it(" +++ dq) = true.
Proof.
  intros (pre & title & post & -> & _). apply andb_true_iff. split.
  - apply negb_true_iff, bool_decide_eq_false. by destruct pre.
  - apply includes_true. eauto.
Qed.

Lemma testDoc_nil block line :
  testDoc block (Some line) = [] ↔ ¬ test_declaration line.
Proof.
  rewrite <- search_test_declaration. unfold testDoc.
  destruct (search testNameRegex line) as [m|] eqn:E.
  - rewrite test_declaration_guard by (apply search_test_declaration; by rewrite E).
    split; [done|]. intros H. destruct H. by eexists.
  - split; [by intros _ [? [=]]|]. intros _. by destruct (_ && _).
Qed.

(** The title of the first declaration on the line, quoted text and all. *)
Lemma search_first_declaration pre title post :
  includes pre ("it(" +++ dq) = false →
  title ≠ [] → all_chars (not_char "034"%char) title →
  search testNameRegex (pre ++ ("it(" +++ dq) ++ title ++ dq ++ post)
  = Some ([(1, title)], post).
Proof.
  intros Hpre Htitle Hall.
  rewrite search_skip.
  - destruct (run_head testNameRegex (("it(" +++ dq) ++ title ++ dq ++ post)
                (post, [(1, title)])) as [l E].
    + apply run_matches, matches_testNameRegex. by exists title.
    + intros [s' c'] (t & E & Ht & Hall' & ->)%run_matches%matches_testNameRegex.
      apply app_inv_head in E.
      destruct (run_unique (not_char "034"%char) title t (dq ++ post) (dq ++ s'))
        as [-> [= ->]]; done.
    + by apply search_here in E.
  - intros pre1 u -> Hu. apply run_Lit_None.
    by eapply (no_early_occurrence ("it(" +++ dq)).
Qed.

(** *** The scan over lines *)

Lemma unlines_snoc (init : list str) (closing : str) :
  unlines (init ++ [closing]) = flat_map (λ l, l ++ [nl]) init ++ closing.
Proof.
  unfold unlines. induction init as [|l init IH]; [done|].
  simpl. destruct (init ++ [closing]) as [|l' ls] eqn:E.
  - by destruct init.
  - rewrite IH. by rewrite <- !app_assoc.
Qed.

Lemma scanLines_skip before ls :
  Forall (λ l, includes l "/**" = false) before →
  scanLines None (before ++ ls) = scanLines None ls.
Proof.
  induction 1 as [|l before Hl _ IH]; [done|]. cbn [app scanLines]. by rewrite Hl.
Qed.

Lemma scanLines_body blk body closing rest :
  Forall (λ l, includes l "*/" = false) body → includes closing "*/" = true →
  scanLines (Some blk) (body ++ closing :: rest)
  = testDoc (blk ++ flat_map (λ l, l ++ [nl]) body ++ closing) (head rest)
    ++ scanLines None rest.
Proof.
  intros Hbody Hclosing. revert blk.
  induction Hbody as [|l body Hl _ IH]; intros blk; cbn [app scanLines flat_map].
  - by rewrite Hclosing.
  - rewrite Hl, IH. by rewrite <- !app_assoc.
Qed.

Lemma scanLines_block block rest :
  comment_block block →
  scanLines None (block ++ rest)
  = testDoc (unlines block) (head rest) ++ scanLines None rest.
Proof.
  intros (init & closing & -> & (first & Hfirst & Hopen) & Hinit & Hclosing).
  rewrite unlines_snoc, <- app_assoc. destruct init as [|l body].
  - injection Hfirst as ->. cbn [app scanLines flat_map]. by rewrite Hopen, Hclosing.
  - injection Hfirst as ->. inversion_clear Hinit as [|? ? Hl Hbody].
    cbn [app scanLines]. rewrite Hopen, Hl.
    cbn [app]. rewrite scanLines_body by done. cbn [flat_map]. by rewrite <- !app_assoc.
Qed.

Lemma scanLines_provenance st lines record :
  In record (scanLines st lines) →
  ∃ block line, In record (testDoc block (Some line)).
Proof.
  revert st. induction lines as [|l rest IH]; intros st; [done|].
  assert (∀ block, In record (testDoc block (head rest)) →
          ∃ block line, In record (testDoc block (Some line))) as Hdoc.
  { intros block. destruct rest as [|line ?]; [done|]. cbn [head]. eauto. }
  cbn [scanLines]. destruct st as [blk|].
  - destruct (includes l "*/"); [|by apply IH].
    intros [H|H]%in_app_or; [by eapply Hdoc|by eapply IH].
  - destruct (includes l "/**"); [|by apply IH].
    destruct (includes l "*/"); [|by apply IH].
    intros [H|H]%in_app_or; [by eapply Hdoc|by eapply IH].
Qed.

Lemma scanLines_scanned before rest :
  scanned before →
  ∃ earlier, scanLines None (before ++ rest) = earlier ++ scanLines None rest.
Proof.
  induction 1 as [|l ls Hl _ [earlier IH]|block ls Hblock _ [earlier IH]].
  - by exists [].
  - exists earlier. cbn [app scanLines]. by rewrite Hl.
  - exists (testDoc (unlines block) (head (ls ++ rest)) ++ earlier).
    by rewrite <- !app_assoc, scanLines_block, IH.
Qed.

(** C6. Take a comment block among the lines of a test file, the lines
    before it being lines without the comment opener and whole comment
    blocks.  What [extractTestDocs] produces for the block are the records
    [testDoc] makes of it and of the line after its closing line; the scan
    then goes on with that line.  These are no record when there is no line
    after the block or that line has no test declaration, and exactly one
    record when it has one; the title of that record is the quoted text of
    the first declaration on the line, character for character. *)
Theorem extractTestDocs_block (content : str) (before block after : list str) :
  split nl content = before ++ block ++ after →
  scanned before →
  comment_block block →
  let records := testDoc (unlines block) (head after) in
  (∃ earlier, extractTestDocs content = earlier ++ records ++ scanLines None after) ∧
  List.length records ≤ 1 ∧
  (records ≠ [] ↔ ∃ line, head after = Some line ∧ test_declaration line) ∧
  (records = [] ↔ ¬ ∃ line, head after = Some line ∧ test_declaration line) ∧
  (∀ line pre title post,
     head after = Some line →
     line = pre ++ ("it(" +++ dq) ++ title ++ dq ++ post →
     includes pre ("it(" +++ dq) = false →
     title ≠ [] → all_chars (not_char "034"%char) title →
     ∃ record, records = [record] ∧ name record = title).
Proof.
  intros Hlines Hbefore Hblock. cbv zeta.
  assert (testDoc (unlines block) (head after) = [] ↔
          ¬ ∃ line, head after = Some line ∧ test_declaration line) as Hnil.
  { destruct (head after) as [line|].
    - rewrite testDoc_nil. split.
      + intros H (line' & [= <-] & Hline). done.
      + intros H Hline. apply H. eauto.
    - split; [|done]. by intros _ (line & [=] & _). }
  split; [|split; [|split; [|split; [done|]]]].
  - unfold extractTestDocs. rewrite Hlines.
    destruct (scanLines_scanned before (block ++ after) Hbefore) as [earlier ->].
    exists earlier. by rewrite scanLines_block.
  - unfold testDoc. destruct (head after) as [line|]; [|simpl; lia].
    destruct (_ && _); [|simpl; lia].
    destruct (search testNameRegex line); simpl; lia.
  - rewrite Hnil. split; [|tauto].
    intros H. destruct (head after) as [line|]; [|by destruct H; intros (? & [=] & _)].
    exists line. split; [done|]. apply search_test_declaration.
    destruct (search testNameRegex line) eqn:E; [done|]. destruct H.
    intros (line' & [= <-] & Hd%search_test_declaration). rewrite E in Hd. by destruct Hd.
  - intros line pre title post -> -> Hpre Htitle Hall. unfold testDoc.
    rewrite test_declaration_guard by by exists pre, title, post.
    rewrite search_first_declaration by done. by eexists.
Qed.

Lemma extractTestDocs_block_witness :
  split nl (unlines [lit "// suite"; lit "/** @category basic */";
                     lit "it(" +++ dq +++ "adds, then reads" +++ dq +++ ", f);"])
  = [lit "// suite"] ++ [lit "/** @category basic */"]
    ++ [lit "it(" +++ dq +++ "adds, then reads" +++ dq +++ ", f);"] ∧
  scanned [lit "// suite"] ∧
  comment_block [lit "/** @category basic */"] ∧
  ∃ record,
    testDoc (unlines [lit "/** @category basic */"])
            (head [lit "it(" +++ dq +++ "adds, then reads" +++ dq +++ ", f);"])
    = [record] ∧
    name record = lit "adds, then reads".
Proof.
  assert (scanned [lit "// suite"]) as Hbefore by by repeat constructor.
  assert (comment_block [lit "/** @category basic */"]) as Hblock.
  { exists [], (lit "/** @category basic */"). repeat split; [|done..].
    by exists (lit "/** @category basic */"). }
  split; [reflexivity|]. split; [exact Hbefore|]. split; [exact Hblock|].
  pose proof (extractTestDocs_block
           (unlines [lit "// suite"; lit "/** @category basic */";
                     lit "it(" +++ dq +++ "adds, then reads" +++ dq +++ ", f);"])
           [lit "// suite"] [lit "/** @category basic */"]
           [lit "it(" +++ dq +++ "adds, then reads" +++ dq +++ ", f);"]
           eq_refl Hbefore Hblock) as H.
  cbv zeta in H. destruct H as (_ & _ & _ & _ & H).
  apply (H (lit "it(" +++ dq +++ "adds, then reads" +++ dq +++ ", f);")
           [] (lit "adds, then reads") (lit ", f);")).
  - reflexivity.
  - reflexivity.
  - reflexivity.
  - done.
  - repeat constructor.
Defined.

(** *** The API reference *)

Lemma word_not_space c : is_word c = true → is_space c = false.
Proof. destruct c as [[] [] [] [] [] [] [] []]; vm_compute; congruence. Qed.

Lemma space_not_word c : is_space c = true → is_word c = false.
Proof. destruct c as [[] [] [] [] [] [] [] []]; vm_compute; congruence. Qed.

Lemma star_greedy_head p (u s : str) :
  all_chars p u → stops p s → ∃ l, star_greedy p (u ++ s) = s :: l.
Proof.
  intros Hu Hs. induction Hu as [|x u Hx _ [l IH]].
  - destruct s as [|c s]; [by exists []|]. simpl in *. rewrite Hs. by exists [].
  - simpl. rewrite Hx, IH. by eexists.
Qed.

(** A greedy run first tries all of the characters of the class. *)
Lemma run_Plus_head p (u s : str) c :
  u ≠ [] → all_chars p u → stops p s →
  ∃ l, run (Plus true p) (u ++ s) c = (s, c) :: l.
Proof.
  intros Hne Hu Hs. destruct u as [|x u']; [done|].
  inversion_clear Hu as [|? ? Hx Hu'].
  destruct (star_greedy_head p u' s Hu' Hs) as [l E].
  unfold Plus. simpl. rewrite Hx. simpl. rewrite E. simpl. by eexists.
Qed.

Lemma stops_word_head (u s : str) :
  u ≠ [] → all_chars is_word u → stops is_space (u ++ s).
Proof.
  intros Hne Hu. destruct u as [|x u']; [done|].
  inversion_clear Hu. simpl. by apply word_not_space.
Qed.

(** The contract name is the first identifier after the keyword. *)
Lemma contractName_first (pre ws ident rest : str) :
  includes pre "contract" = false →
  ws ≠ [] → all_chars is_space ws →
  ident ≠ [] → all_chars is_word ident → stops is_word rest →
  contractName (pre ++ lit "contract" ++ ws ++ ident ++ rest) = ident.
Proof.
  intros Hpre Hws Hspace Hident Hword Hrest. unfold contractName.
  rewrite search_skip.
  - unfold contractNameRegex. 
    destruct (run_Plus_head is_space ws (ident ++ rest) [] Hws Hspace
                (stops_word_head _ _ Hident Hword)) as [l1 E1].
    destruct (run_Plus_head is_word ident rest [] Hident Hword Hrest) as [l2 E2].
    assert (∃ l, run (Seq (Lit "contract")
                        (Seq (Plus true is_space) (Group 1 (Plus true is_word))))
                   (lit "contract" ++ ws ++ ident ++ rest) []
                 = (rest, [(1, ident)]) :: l) as [l E].
    { rewrite run_Lit_Some. cbn [run]. fold (Plus true is_space). fold (Plus true is_word).
      rewrite E1. cbn [flat_map fst snd]. rewrite E2. cbn [map app fst snd].
      rewrite take_consumed. by eexists. }
    by rewrite (search_here _ _ _ _ _ E).
  - intros pre1 u -> Hu. apply run_Lit_None.
    by eapply (no_early_occurrence (lit "contract")).
Qed.

Lemma contractName_default (content : str) :
  includes content "contract" = false → contractName content = lit "Contract".
Proof.
  intros H. unfold contractName.
  destruct (search contractNameRegex content) as [[c' s']|] eqn:E; [|done].
  apply search_Some_matches in E as (pre & t & -> & Hm).
  unfold contractNameRegex in Hm.
  apply matches_Seq_inv in Hm as (s1 & c1 & [-> _]%matches_Lit_inv & _).
  rewrite includes_false in H. by destruct (H pre s1).
Qed.

Lemma matches_functionRegex s s' c' :
  matches functionRegex s [] s' c' ↔
  ∃ ws name ws' params mods,
    s = declaration_text ws name ws' params mods ++ s' ∧
    declaration_parts ws name ws' params mods ∧ c' = [(1, name)].
Proof.
  unfold functionRegex, declaration_text, declaration_parts. split.
  - intros (s1 & c1 & [-> ->]%matches_Lit_inv & M)%matches_Seq_inv.
    apply matches_Seq_inv in M as (s2 & c2 & (ws & -> & P1 & P2 & ->)%matches_Plus & M).
    apply matches_Seq_inv in M as (s3 & c3 & (u & c0 & E & Hn & ->)%matches_Group_inv & M).
    apply matches_Plus in Hn as (name & E' & P3 & P4 & ->).
    rewrite E in E'. apply app_inv_tail in E' as ->. subst s2.
    apply matches_Seq_inv in M as (s4 & c4 & (ws' & -> & P5 & ->)%matches_Star_inv & M).
    apply matches_Seq_inv in M as (s5 & c5 & [-> ->]%matches_Lit_inv & M).
    apply matches_Seq_inv in M as (s6 & c6 & (params & -> & P6 & ->)%matches_Star_inv & M).
    apply matches_Seq_inv in M as (s7 & c7 & [-> ->]%matches_Lit_inv & M).
    apply matches_Seq_inv in M as (s8 & c8 & (mods & -> & P7 & ->)%matches_Star_inv & M).
    apply matches_Lit_inv in M as [-> ->].
    exists ws, name, ws', params, mods. rewrite <- !app_assoc. done.
  - intros (ws & name & ws' & params & mods & -> & (? & ? & ? & ? & ? & ? & ?) & ->).
    rewrite <- !app_assoc.
    repeat first
      [ apply matches_Lit
      | eapply matches_Seq; [apply matches_Lit|]
      | eapply matches_Seq; [apply matches_Plus; eexists; split; [reflexivity|done]|]
      | eapply matches_Seq; [apply matches_Star; eassumption|]
      | eapply matches_Seq; [apply matches_Group, matches_Plus;
                             eexists; split; [reflexivity|done]|] ].
Qed.

Lemma stops_after_name (ws' rest : str) :
  all_chars is_space ws' → stops is_word (ws' ++ lit "(" ++ rest).
Proof.
  intros Hu. destruct ws' as [|x u']; [done|].
  inversion_clear Hu. simpl. by apply space_not_word.
Qed.

(** The pattern reads a declaration in one way only. *)
Lemma declaration_unique ws name ws' params mods s' ws2 name2 ws2' params2 mods2 s2' :
  declaration_parts ws name ws' params mods →
  declaration_parts ws2 name2 ws2' params2 mods2 →
  declaration_text ws name ws' params mods ++ s'
  = declaration_text ws2 name2 ws2' params2 mods2 ++ s2' →
  name = name2 ∧ s' = s2'.
Proof.
  unfold declaration_parts, declaration_text.
  intros (? & ? & ? & ? & ? & ? & ?) (? & ? & ? & ? & ? & ? & ?) E.
  rewrite <- !app_assoc in E. apply app_inv_head in E.
  apply run_unique with (p := is_space) in E as [-> E];
    [|done|done|by apply stops_word_head..].
  apply run_unique with (p := is_word) in E as [-> E];
    [|done|done|by apply stops_after_name..].
  split; [done|].
  apply run_unique with (p := is_space) in E as [-> E]; [|done..].
  apply app_inv_head in E.
  apply run_unique with (p := not_char ")"%char) in E as [-> E]; [|done..].
  apply app_inv_head in E.
  apply run_unique with (p := not_char "{"%char) in E as [-> E]; [|done..].
  by apply app_inv_head in E.
Qed.

(** The first declaration of a text is collected, and the loop goes on
    after its opening brace. *)
Lemma functionNames_declaration (pre post ws name ws' params mods : str) :
  includes pre "function" = false →
  declaration_parts ws name ws' params mods →
  functionNames (pre ++ declaration_text ws name ws' params mods ++ post)
  = name :: functionNames post.
Proof.
  intros Hpre Hparts. unfold functionNames.
  rewrite exec_all_skip.
  - destruct (run_head functionRegex (declaration_text ws name ws' params mods ++ post)
                (post, [(1, name)])) as [l E].
    + apply run_matches, matches_functionRegex.
      by exists ws, name, ws', params, mods.
    + intros [s2' c2] (ws2 & name2 & ws2' & params2 & mods2 & E & Hparts2 & ->)
        %run_matches%matches_functionRegex.
      by destruct (declaration_unique _ _ _ _ _ _ _ _ _ _ _ _ Hparts Hparts2 E) as [-> ->].
    + assert (declaration_text ws name ws' params mods ≠ []) as Hne by done.
      by rewrite (exec_all_here _ _ _ _ _ Hne E).
  - intros pre1 u -> Hu. apply run_Lit_None.
    unfold declaration_text. rewrite <- !app_assoc.
    by eapply (no_early_occurrence (lit "function")).
Qed.

Lemma functionNames_none (content : str) :
  includes content "function" = false → functionNames content = [].
Proof.
  intros H. unfold functionNames. rewrite exec_all_none; [done|].
  intros pre t ->. apply run_Lit_None.
  destruct (strip_prefix (lit "function") t) as [r|] eqn:E; [|done].
  apply strip_prefix_Some in E as ->.
  rewrite includes_false in H. by destruct (H pre r).
Qed.

Lemma matches_contractNameRegex s s' c' :
  matches contractNameRegex s [] s' c' ↔
  ∃ ws ident, s = lit "contract" ++ ws ++ ident ++ s' ∧
    ws ≠ [] ∧ all_chars is_space ws ∧
    ident ≠ [] ∧ all_chars is_word ident ∧ c' = [(1, ident)].
Proof.
  unfold contractNameRegex. split.
  - intros (s1 & c1 & [-> ->]%matches_Lit_inv & M)%matches_Seq_inv.
    apply matches_Seq_inv in M as (s2 & c2 & M1 & M2).
    apply matches_Plus in M1 as (ws & -> & Hws & Hall & ->).
    apply matches_Group_inv in M2 as (u & c0 & E & M2 & ->).
    apply matches_Plus in M2 as (ident & -> & Hident & Hall' & ->).
    apply app_inv_tail in E as <-. by exists ws, ident.
  - intros (ws & ident & -> & Hws & Hall & Hident & Hall' & ->).
    apply matches_Seq_inv. exists (ws ++ ident ++ s'), []. split; [constructor|].
    apply matches_Seq_inv. exists (ident ++ s'), []. split.
    + apply matches_Plus. by exists ws.
    + constructor. apply matches_Plus. by exists ident.
Qed.

Lemma contractName_no_match (content : str) :
  (¬ ∃ pre ws ident post,
       content = pre ++ lit "contract" ++ ws ++ ident ++ post ∧
       ws ≠ [] ∧ all_chars is_space ws ∧ ident ≠ [] ∧ all_chars is_word ident) →
  contractName content = lit "Contract".
Proof.
  intros H. unfold contractName.
  destruct (search contractNameRegex content) as [[c' s']|] eqn:E; [|done].
  apply search_Some_matches in E as (pre & t & -> & Hm).
  apply matches_contractNameRegex in Hm as (ws & ident & -> & ? & ? & ? & ? & _).
  destruct H. by exists pre, ws, ident, s'.
Qed.

(** *** The first match *)

(** [search] reports the first result of the matcher at the leftmost
    position where there is one. *)
Lemma search_first r s c' s' :
  search r s = Some (c', s') ↔
  ∃ pre t l, s = pre ++ t ∧ run r t [] = (s', c') :: l ∧
    ∀ pre1 u, pre = pre1 ++ u → u ≠ [] → run r (u ++ t) [] = [].
Proof.
  split.
  - induction s as [|x s IH]; simpl.
    + destruct (run r [] []) as [|[s0 c0] l] eqn:E; [done|].
      intros [= <- <-]. exists [], [], l. split; [done|]. split; [done|].
      intros pre1 u Hpre. symmetry in Hpre. by apply app_eq_nil in Hpre as [_ ->].
    + destruct (run r (x :: s) []) as [|[s0 c0] l] eqn:E.
      * intros (pre & t & l & -> & Hrun & Hnone)%IH.
        exists (x :: pre), t, l. split; [done|]. split; [done|].
        intros [|y pre1] u Hpre Hu.
        -- simpl in Hpre. subst u. exact E.
        -- injection Hpre as -> ->. by eapply Hnone.
      * intros [= <- <-]. exists [], (x :: s), l. split; [done|]. split; [done|].
        intros pre1 u Hpre. symmetry in Hpre. by apply app_eq_nil in Hpre as [_ ->].
  - intros (pre & t & l & -> & Hrun & Hnone).
    rewrite search_skip by done. by eapply search_here.
Qed.

Lemma run_nil r s : run r s [] = [] ↔ ¬ ∃ s' c', matches r s [] s' c'.
Proof.
  split.
  - intros E (s' & c' & H%run_matches). by rewrite E in H.
  - intros H. destruct (run r s []) as [|[s' c'] l] eqn:E; [done|].
    destruct H. exists s', c'. apply run_matches. rewrite E. by left.
Qed.

Lemma flat_map_nil {A B} (f : A → list B) (xs : list A) :
  (∀ x, In x xs → f x = []) → flat_map f xs = [].
Proof.
  induction xs as [|x xs IH]; intros H; [done|].
  simpl. rewrite (H x) by by left. apply IH. intros y Hy. apply H. by right.
Qed.

Lemma flat_map_map {A B C} (f : B → list C) (g : A → B) (xs : list A) :
  flat_map f (map g xs) = flat_map (λ x, f (g x)) xs.
Proof. induction xs as [|x xs IH]; [done|]. simpl. by rewrite IH. Qed.

(** What follows a greedy run is tried from the longest run down: the first
    result comes from the longest run after which there is one. *)
Lemma greedy_first {B} (p : ascii → bool) (f : str → list B) (s : str) (y : B) :
  (∃ l, flat_map f (star_greedy p s) = y :: l) ↔
  ∃ u t l, s = u ++ t ∧ all_chars p u ∧ f t = y :: l ∧
    ∀ u2 t2, t = u2 ++ t2 → u2 ≠ [] → all_chars p u2 → f t2 = [].
Proof.
  split.
  - induction s as [|c s IH]; intros [l E].
    + simpl in E. rewrite app_nil_r in E. exists [], [], l.
      split; [done|]. split; [done|]. split; [done|].
      intros u2 t2 Ht. symmetry in Ht. by apply app_eq_nil in Ht as [-> _].
    + cbn [star_greedy] in E. rewrite flat_map_app in E. cbn [flat_map] in E.
      rewrite app_nil_r in E.
      destruct (p c) eqn:Hc.
      * destruct (flat_map f (star_greedy p s)) as [|y' l'] eqn:E'.
        -- exists [], (c :: s), l. split; [done|]. split; [done|]. split; [done|].
           intros u2 t2 Ht Hne Hu2. destruct Hu2 as [|c2 u2 _ Hu2]; [done|].
           injection Ht as <- ->.
           destruct (f t2) as [|z zs] eqn:Ez; [done|exfalso].
           assert (In z (flat_map f (star_greedy p (u2 ++ t2)))) as Hin.
           { apply in_flat_map. exists t2. split; [|rewrite Ez; by left].
             apply star_greedy_In. eauto. }
           by rewrite E' in Hin.
        -- injection E as -> _.
           destruct IH as (u & t & l0 & -> & Hu & Hf & Hmax); [by eexists|].
           exists (c :: u), t, l0. split; [done|]. split; [by constructor|]. done.
      * exists [], (c :: s), l. split; [done|]. split; [done|]. split; [done|].
        intros u2 t2 Ht Hne Hu2. destruct Hu2 as [|c2 u2 Hc2 _]; [done|].
        injection Ht as <- _. congruence.
  - intros (u & t & l & -> & Hu & Hf & Hmax).
    induction Hu as [|c u Hc _ IH].
    + destruct t as [|c t].
      * simpl. rewrite app_nil_r. eauto.
      * cbn [app star_greedy]. rewrite flat_map_app. cbn [flat_map].
        rewrite app_nil_r, Hf.
        assert (flat_map f (if p c then star_greedy p t else []) = []) as ->; [|eauto].
        destruct (p c) eqn:Hc; [|done]. apply flat_map_nil.
        intros t2 (u2 & -> & Hu2)%star_greedy_In.
        apply (Hmax (c :: u2)); [done|done|by constructor].
    + cbn [app star_greedy]. rewrite Hc, flat_map_app.
      destruct IH as [l' ->]. eauto.
Qed.

Lemma run_Plus_Seq (p : ascii → bool) (R : regex) (c : ascii) (s : str) caps :
  run (Seq (Plus true p) R) (c :: s) caps
  = if p c then flat_map (λ s', run R s' caps) (star_greedy p s) else [].
Proof.
  unfold Plus. cbn [run]. destruct (p c); [|done].
  cbn [flat_map fst snd]. by rewrite app_nil_r, flat_map_map.
Qed.

Lemma span (p : ascii → bool) (s : str) :
  ∃ u t, s = u ++ t ∧ all_chars p u ∧ stops p t.
Proof.
  induction s as [|c s (u & t & -> & Hu & Ht)].
  - by exists [], [].
  - destruct (p c) eqn:Hc.
    + exists (c :: u), t. by split; [|split; [constructor|]].
    + by exists [], (c :: u ++ t).
Qed.

(** A captured run of a class: the first result takes the longest run. *)
Lemma run_Group_Plus_first (n : nat) (q : ascii → bool) (t post text : str) :
  (∃ l, run (Group n (Plus true q)) t [] = (post, [(n, text)]) :: l) ↔
  t = text ++ post ∧ text ≠ [] ∧ all_chars q text ∧ stops q post.
Proof.
  split.
  - intros [l E]. cbn [run] in E.
    destruct (run (Plus true q) t []) as [|[s0 c0] l0] eqn:E0; [done|].
    cbn [map fst snd] in E. injection E as -> Htext -> _.
    assert (matches (Plus true q) t [] post []) as Hm
      by (apply run_matches; rewrite E0; by left).
    apply matches_Plus in Hm as (u & -> & Hne & Hu & _).
    rewrite take_consumed in Htext. subst u.
    split; [done|]. split; [done|]. split; [done|].
    destruct (span q post) as (m & r & -> & Hm & Hr).
    destruct m as [|x m]; [done|exfalso].
    destruct (run_Plus_head q (text ++ x :: m) r [] ltac:(by destruct text))
      as [l' E']; [by apply Forall_app|done|].
    rewrite <- app_assoc in E'. rewrite E' in E0. injection E0 as E0 _.
    apply (f_equal (@List.length ascii)) in E0. cbn [List.length] in E0.
    rewrite length_app in E0. lia.
  - intros (-> & Hne & Hall & Hstops).
    destruct (run_Plus_head q text post [] Hne Hall Hstops) as [l E].
    cbn [run]. rewrite E. cbn [map fst snd]. rewrite take_consumed. eauto.
Qed.

Lemma star_greedy_not_nil p s : star_greedy p s ≠ [].
Proof. destruct s; cbn [star_greedy]; [done|]. by intros [_ [=]]%app_eq_nil. Qed.

(** A run of the class is found at a position exactly when the character
    there is in the class. *)
Lemma run_Plus_nil p c t : run (Plus true p) (c :: t) [] = [] ↔ p c = false.
Proof.
  unfold Plus. cbn [run]. destruct (p c); cbn [flat_map fst snd]; [|done].
  split; [|done]. rewrite app_nil_r. intros H%fmap_nil_inv. by destruct (star_greedy_not_nil p t).
Qed.

Lemma run_Group_Plus_nil (n : nat) (q : ascii → bool) (t : str) :
  run (Group n (Plus true q)) t [] = [] ↔ stops q t.
Proof.
  cbn [run]. split.
  - intros H%fmap_nil_inv. destruct t as [|c t]; [done|]. by apply run_Plus_nil in H.
  - intros H. destruct t as [|c t]; [done|]. simpl in H.
    apply (run_Plus_nil q c t) in H. by rewrite H.
Qed.

(** *** The text after a tag *)

(** The first result of a pattern made of a word, a greedy run of a class
    and a captured greedy run of another class, where the word stands. *)
Lemma word_run_capture_first (w : str) (p q : ascii → bool) (t post text : str) :
  (∃ l, run (Seq (Lit w) (Seq (Plus true p) (Group 1 (Plus true q)))) t []
        = (post, [(1, text)]) :: l) ↔
  ∃ ws, t = w ++ ws ++ text ++ post ∧
    ws ≠ [] ∧ all_chars p ws ∧
    (∀ ws' rest, text ++ post = ws' ++ rest → ws' ≠ [] → all_chars p ws' →
                 stops q rest) ∧
    text ≠ [] ∧ all_chars q text ∧
    stops q post.
Proof.
  split.
  - intros [l E].
    destruct (strip_prefix w t) as [rest|] eqn:Et;
      [|by rewrite run_Lit_None in E].
    apply strip_prefix_Some in Et as ->. rewrite run_Lit_Some in E.
    destruct rest as [|c rest]; [done|]. rewrite run_Plus_Seq in E.
    destruct (p c) eqn:Hc; [|done].
    destruct (proj1 (greedy_first p (λ s', run (Group 1 (Plus true q)) s' [])
                rest (post, [(1, text)])) (ex_intro _ l E))
      as (u & t' & l' & -> & Hu & Hrun & Hmax).
    destruct (proj1 (run_Group_Plus_first 1 q t' post text)
                (ex_intro _ l' Hrun)) as (-> & Hne & Hall & Hstops).
    exists (c :: u). split; [done|]. split; [done|]. split; [by constructor|].
    split; [|done].
    intros ws' rest' Heq Hws' Hall'.
    apply (proj1 (run_Group_Plus_nil 1 q rest')). by eapply Hmax.
  - intros (ws & -> & Hws & Hall & Hmax & Hne & Htext & Hstops).
    rewrite run_Lit_Some. destruct Hall as [|c u Hc Hu]; [done|].
    cbn [app]. rewrite run_Plus_Seq, Hc.
    apply (greedy_first p (λ s', run (Group 1 (Plus true q)) s' [])).
    destruct (proj2 (run_Group_Plus_first 1 q (text ++ post) post text))
      as [l E]; [done|].
    exists u, (text ++ post), l. split; [done|]. split; [done|]. split; [done|].
    intros u2 t2 Heq Hu2 Hall2.
    apply (proj2 (run_Group_Plus_nil 1 q t2)). by eapply Hmax.
Qed.

(** The first result of a tag pattern where the tag stands. *)
Lemma tagRegex_first (tag t post text : str) :
  (∃ l, run (tagRegex tag) t [] = (post, [(1, text)]) :: l) ↔
  ∃ ws, t = tag ++ ws ++ text ++ post ∧
    ws ≠ [] ∧ all_chars is_space ws ∧
    (∀ ws' rest, text ++ post = ws' ++ rest → ws' ≠ [] → all_chars is_space ws' →
                 stops not_line_terminator rest) ∧
    text ≠ [] ∧ all_chars not_line_terminator text ∧
    stops not_line_terminator post.
Proof. apply word_run_capture_first. Qed.

Lemma tagRegex_nil (tag s : str) :
  run (tagRegex tag) s [] = [] ↔ ¬ tag_starts tag s.
Proof.
  rewrite run_nil. unfold tag_starts. split; intros H H'; apply H.
  - destruct H' as (ws & text & post & -> & ? & ? & ? & ?).
    exists post, [(1, text)]. apply matches_tagRegex. by exists ws, text.
  - destruct H' as (s' & c' & (ws & text & -> & ? & ? & ? & ? & _)%matches_tagRegex).
    by exists ws, text, s'.
Qed.

(** The value of a tag is what the tag pattern captures, trimmed. *)
Lemma tag_value_search (tag block value : str) :
  tag_value tag block value ↔
  ∃ found, search (tagRegex tag) block = Some found ∧ value = trim (group 1 found.1).
Proof.
  split.
  - intros (pre & ws & text & post & -> & Hfirst & Hws & Hall & Hmax & Hne & Htext
            & Hstops & ->).
    exists ([(1, text)], post). split; [|done].
    apply search_first.
    destruct (proj2 (tagRegex_first tag (tag ++ ws ++ text ++ post) post text))
      as [l E]; [by exists ws|].
    exists pre, (tag ++ ws ++ text ++ post), l. split; [done|]. split; [done|].
    intros pre1 u Hpre Hu. apply tagRegex_nil. by eapply Hfirst.
  - intros ([c' s'] & (pre & t & l & -> & Hrun & Hnone)%search_first & ->).
    assert (matches (tagRegex tag) t [] s' c') as H
      by (apply run_matches; rewrite Hrun; by left).
    apply matches_tagRegex in H as (ws0 & text & _ & _ & _ & _ & _ & ->).
    destruct (proj1 (tagRegex_first tag t s' text) (ex_intro _ l Hrun))
      as (ws & -> & Hws & Hall & Hmax & Hne & Htext & Hstops).
    exists pre, ws, text, s'. split; [done|]. split; [|done].
    intros pre1 u Hpre Hu. apply tagRegex_nil. by eapply Hnone.
Qed.



(** A field read from a tag holds the fallback when the block does not carry
    the tag, and the value of the tag otherwise. *)
Lemma trimmed_or_spec fallback tag block :
  let value := trimmed_or fallback (search (tagRegex tag) block) in
  (¬ tagged tag block ∧ value = fallback) ∨ (tagged tag block ∧ tag_value tag block value).
Proof.
  cbv zeta. destruct (search (tagRegex tag) block) as [found|] eqn:E.
  - right. split; [apply search_tagged; by rewrite E|].
    apply tag_value_search. by exists found.
  - left. split; [|done]. intros H%search_tagged. rewrite E in H. by destruct H.
Qed.

(** *** Where a record comes from *)




Lemma scanLines_no_closer st lines :
  Forall (λ l, includes l "*/" = false) lines → scanLines st lines = [].
Proof.
  intros H. revert st. induction H as [|l lines Hl _ IH]; intros st; [done|].
  cbn [scanLines]. rewrite Hl. destruct st; [apply IH|].
  destruct (includes l "/**"); apply IH.
Qed.




(** *** Category and chapter of a record *)










(** *** The names of the API reference *)














(** *** A documentation run *)

Lemma forEach_writes {A} (xs : list A) (pathOf : A → path) (textOf : A → str) (w : world) :
  forEach xs (λ x,
    writeFileSync (pathOf x) (textOf x) ;;
    console_log ("Generated: " +++ path_to_string (pathOf x))) w
  = (Done (),
     World (written pathOf textOf xs (files w)) (dirs w)
           (console w ++
            map (λ x, (Stdout, "Generated: " +++ path_to_string (pathOf x))) xs)).
Proof.
  revert w. induction xs as [|x xs IH]; intros w.
  - destruct w. cbn. by rewrite app_nil_r.
  - cbn [forEach]. unfold mbind at 1, Script_bind at 1.
    unfold mbind at 1, Script_bind at 1. unfold writeFileSync at 1, console_log at 1.
    rewrite IH. cbn [files dirs console map written fold_left].
    by rewrite <- app_assoc.
Qed.

Lemma written_other {A} (pathOf : A → path) textOf (xs : list A) fs p :
  (∀ x, In x xs → pathOf x ≠ p) → written pathOf textOf xs fs !! p = fs !! p.
Proof.
  unfold written. revert fs. induction xs as [|x xs IH]; intros fs H; [done|].
  cbn [fold_left]. rewrite IH by (intros y Hy; apply H; by right).
  apply lookup_insert_ne, H. by left.
Qed.

Lemma written_same {A} (p : path) textOf (xs : list A) fs x :
  last xs = Some x → written (λ _, p) textOf xs fs !! p = Some (textOf x).
Proof.
  intros (xs' & ->)%last_Some. unfold written.
  rewrite fold_left_app. cbn [fold_left]. apply lookup_insert_eq.
Qed.

Lemma group_push_keys {V} key (v : V) groups k vs :
  In (k, vs) (group_push key v groups) → k = key ∨ ∃ vs', In (k, vs') groups.
Proof.
  induction groups as [|[k0 vs0] groups IH]; simpl.
  - intros [[= -> _]|[]]. by left.
  - destruct (decide (k0 = key)) as [->|Hne].
    + intros [[= <- _]|H]; [by left|]. right. exists vs. by right.
    + intros [[= <- <-]|H]; [right; exists vs0; by left|].
      destruct (IH H) as [?|[vs' ?]]; [by left|]. right. exists vs'. by right.
Qed.

Lemma group_by_keys {V} (f : V → str) (items : list V) k vs :
  In (k, vs) (group_by f items) → ∃ x, In x items ∧ f x = k.
Proof.
  unfold group_by.
  assert (∀ groups, In (k, vs) (fold_left (λ groups item, group_push (f item) item groups)
                                          items groups) →
          (∃ x, In x items ∧ f x = k) ∨ ∃ vs', In (k, vs') groups) as H.
  { induction items as [|x items IH]; intros groups; cbn [fold_left].
    - intros H. right. eauto.
    - intros [(y & Hy & <-)|[vs' [->|[vs'' H]]%group_push_keys]]%IH.
      + left. exists y. split; [by right|done].
      + left. exists x. split; [by left|done].
      + right. eauto. }
  intros [?|[vs' []]]%H. done.
Qed.

Lemma generateMarkdown_run (docs : list DocMetadata) (outputPath : path) (w : world) :
  generateMarkdown docs outputPath w
  = (Done (),
     World (written (λ entry, chapterPath outputPath entry.1)
                    (λ entry, chapterContent entry.1 entry.2)
                    (group_by chapter docs) (files w))
           (dirs w)
           (console w ++
            map (λ entry : str * list DocMetadata,
                   (Stdout, "Generated: " +++
                            path_to_string (chapterPath outputPath entry.1)))
                (group_by chapter docs))).
Proof.
  unfold generateMarkdown.
  apply (forEach_writes (group_by chapter docs)
           (λ entry, chapterPath outputPath entry.1)
           (λ entry, chapterContent entry.1 entry.2)).
Qed.

Lemma processContracts_run (docsDir : path) (listing : list (str * str)) (w : world) :
  let apiPath := path_join docsDir "api-reference.md" in
  processContracts docsDir listing w
  = (Done (flat_map (λ entry : str * str, extractSolidityDocs entry.2)
                    (contract_files listing)),
     World (written (λ _, apiPath) (λ entry : str * str, apiDoc entry.2)
                    (contract_files listing) (files w))
           (dirs w)
           (console w ++
            map (λ _, (Stdout, "Generated: " +++ path_to_string apiPath))
                (contract_files listing))).
Proof.
  cbv zeta. revert w. induction listing as [|[file content] listing IH]; intros w.
  - destruct w. cbn. by rewrite app_nil_r.
  - cbn [processContracts contract_files List.filter fst snd].
    destruct (endsWith file ".sol"); [|apply IH].
    unfold generateAPIReference.
    unfold mbind at 1, Script_bind at 1. unfold mbind at 1, Script_bind at 1.
    unfold writeFileSync at 1, console_log at 1.
    unfold mbind at 1, Script_bind at 1.
    fold (contract_files listing). rewrite IH.
    cbn [files dirs console map flat_map written fold_left fst snd].
    unfold mret, Script_ret. by rewrite <- app_assoc.
Qed.

(** The files after [generateDocumentation]: one API reference is written
    for each contract file, in listing order and always at the same path,
    and then one file for each chapter. *)
Lemma generateDocumentation_run (cwd : path) (testDir : option (list (str * str)))
    (listing : list (str * str)) (w : world) :
  let docsDir := path_join cwd "docs" in
  let apiPath := path_join docsDir "api-reference.md" in
  ∃ D out,
    generateDocumentation cwd testDir (Some listing) w
    = (Done (),
       World
         (written (λ entry, chapterPath docsDir entry.1)
                  (λ entry, chapterContent entry.1 entry.2)
                  (group_by chapter (collected_docs testDir listing))
            (written (λ _, apiPath) (λ entry : str * str, apiDoc entry.2)
                     (contract_files listing) (files w)))
         D out).
Proof.
  cbv zeta. unfold generateDocumentation. cbv zeta.
  set (docsDir := path_join cwd "docs").
  assert (∃ D, ∀ k : unit → Script unit,
            ((if negb (bool_decide (docsDir ∈ dirs w ∨ is_Some (files w !! docsDir)))
              then mkdirSync_recursive docsDir else mret ()) ≫= k) w
            = k () (World (files w) D (console w))) as [D HD].
  { destruct (bool_decide _); cbn [negb].
    - exists (dirs w). intros k. by destruct w.
    - eexists. intros k. reflexivity. }
  unfold mbind at 1, Script_bind at 1, existsSync at 1. rewrite HD.
  rewrite (bind_Done _ _ _ _ _ (processContracts_run docsDir listing _)).
  cbn [files dirs console].
  fold (collected_docs testDir listing).
  set (docs := collected_docs testDir listing).
  assert (∀ w', (if bool_decide (0 < List.length docs)
                 then generateMarkdown docs docsDir else mret ()) w'
                = generateMarkdown docs docsDir w') as Hmd.
  { intros w'. destruct docs as [|d docs']; [|done].
    rewrite generateMarkdown_run. destruct w'. cbn. by rewrite app_nil_r. }
  rewrite (bind_Done _ _ _ _ _ (eq_trans (Hmd _) (generateMarkdown_run docs docsDir _))).
  cbn [files dirs console console_log]. by eexists _, _.
Qed.

(** * Further properties of the scripts *)

(** ** The command lines *)

Lemma prints_only_log msg : prints_only (console_log msg).
Proof. intros w. by exists [(Stdout, msg)]. Qed.

Lemma prints_only_error msg : prints_only (console_error msg).
Proof. intros w. by exists [(Stderr, msg)]. Qed.

Lemma prints_only_seq (m k : Script unit) :
  prints_only m → prints_only k → prints_only (m ;; k).
Proof.
  intros Hm Hk w. destruct (Hm w) as [out1 E1]. rewrite (bind_Done _ _ _ _ _ E1).
  destruct (Hk (World (files w) (dirs w) (console w ++ out1))) as [out2 E2].
  rewrite E2. exists (out1 ++ out2). cbn [files dirs console]. by rewrite app_assoc.
Qed.

Lemma prints_only_forEach {A} (xs : list A) (f : A → Script unit) :
  (∀ x, prints_only (f x)) → prints_only (forEach xs f).
Proof.
  intros Hf. induction xs as [|x xs IH].
  - intros w. exists []. destruct w. cbn. by rewrite app_nil_r.
  - cbn [forEach]. by apply prints_only_seq.
Qed.

Ltac prints_only :=
  repeat lazymatch goal with
         | |- prints_only (mbind _ _) => apply prints_only_seq
         | |- prints_only (console_log _) => apply prints_only_log
         | |- prints_only (console_error _) => apply prints_only_error
         | |- prints_only (forEach _ _) => apply prints_only_forEach; intros ?
         end.

Lemma CreateExample_usage_prints : prints_only CreateExample.usage.
Proof. unfold CreateExample.usage. prints_only. Qed.

Lemma listExamples_prints : prints_only CreateExample.listExamples.
Proof. unfold CreateExample.listExamples. prints_only. Qed.

Lemma CreateCategory_usage_prints : prints_only CreateCategory.usage.
Proof. unfold CreateCategory.usage. prints_only. Qed.

Lemma listCategories_prints : prints_only CreateCategory.listCategories.
Proof. unfold CreateCategory.listCategories. prints_only. Qed.

(** A rejected command line: two lines on standard error, then
    [process.exit(1)]. *)
Lemma rejected_run (line1 line2 : str) (w : world) :
  (console_error line1 ;; console_error line2 ;; process_exit 1) w
  = (Exited 1 : outcome unit,
     World (files w) (dirs w) (console w ++ [(Stderr, line1); (Stderr, line2)])).
Proof. script_step. by rewrite <- app_assoc. Qed.

(** X1.  The exit status of the example script, where the file system has
    room for the project that [create] makes of a catalog key.  The process
    ends with status 0 or 1; the status is 1 exactly for the command lines
    in [rejected_by_create_example], among them [help], which the usage text
    lists as a command; and only [create] with a catalog key or with the
    name of an inherited property changes a file or a directory. *)
Theorem CreateExample_main_status (args : list str) (w : world) :
  (∀ key rest config,
     args = lit "create" :: key :: rest →
     table_get CreateExample.EXAMPLE_CATEGORIES key = Some config →
     project_room w (arg_or (head rest) ".") key = true) →
  let r := CreateExample.main args w in
  (exit_status r.1 = 0 ∨ exit_status r.1 = 1) ∧
  (exit_status r.1 = 1 ↔ rejected_by_create_example args) ∧
  ((¬ ∃ key rest, args = lit "create" :: key :: rest ∧
        (is_Some (table_get CreateExample.EXAMPLE_CATEGORIES key) ∨
         inherited_property key = true)) →
   files r.2 = files w ∧ dirs r.2 = dirs w) ∧
  exit_status (CreateExample.main [lit "help"] w).1 = 1.
Proof.
  intros Hroom. cbv zeta.
  match goal with
  | |- ?A ∧ ?B ∧ ?C ∧ _ =>
      enough (A ∧ B ∧ C) as (HA & HB & HC)
        by (split; [exact HA|split; [exact HB|split; [exact HC|reflexivity]]])
  end.
  unfold rejected_by_create_example.
  destruct args as [|command rest].
  { cbn [CreateExample.main]. destruct (CreateExample_usage_prints w) as [out ->].
    cbn [fst snd exit_status files dirs]. split; [by left|]. split; [|done]. split; [done|].
    intros [(? & ? & [=] & _)|[[=]|(? & ? & [=] & _)]]. }
  unfold CreateExample.main.
  destruct (decide (command = lit "--help" ∨ command = lit "-h")) as [Hhelp|Hhelp].
  { destruct (CreateExample_usage_prints w) as [out ->].
    cbn [fst snd exit_status files dirs]. split; [by left|]. split; [|done]. split; [done|].
    intros [(c & r & [= <- <-] & Hc)|[ [= -> ->]|(? & ? & [= -> _] & _)]].
    - destruct Hc. destruct Hhelp as [-> | ->]; set_solver.
    - by destruct Hhelp.
    - by destruct Hhelp. }
  destruct (decide (command = lit "list")) as [->|Hlist].
  { destruct (listExamples_prints w) as [out ->].
    cbn [fst snd exit_status files dirs]. split; [by left|]. split; [|done]. split; [done|].
    intros [(c & r & [= <- <-] & Hc)|[[=]|(? & ? & [=] & _)]].
    destruct Hc. set_solver. }
  destruct (decide (command = lit "create")) as [->|Hcreate].
  - destruct rest as [|key rest].
    + rewrite rejected_run. cbn [fst snd exit_status files dirs]. split; [by right|]. split; [|done].
      split; [|done]. intros _. right. by left.
    + cbv zeta.
      destruct (table_get CreateExample.EXAMPLE_CATEGORIES key) as [config|] eqn:Hkey.
      * destruct (generateExample_run key (arg_or (head rest) ".") config w Hkey)
          as (D & out & -> & _).
        cbn [fst snd exit_status files dirs]. split; [by left|]. split.
        -- split; [done|].
           intros [(c & r & [= <- <-] & Hc)|[[=]|(? & ? & [= <- _] & ?)]].
           ++ destruct Hc. set_solver.
           ++ congruence.
        -- intros H. destruct H. exists key, rest. split; [done|]. left. by rewrite Hkey.
      * pose proof (CreateExample_create_unknown key rest w Hkey) as Hstatus.
        rewrite CreateExample_main_create in Hstatus. cbv zeta in Hstatus.
        split; [by right|]. split.
        -- split; [|done]. intros _. right. right. by exists key, rest.
        -- intros H. destruct (inherited_property key) eqn:Hinherited.
           ++ destruct H. exists key, rest. split; [done|]. by right.
           ++ by rewrite generateExample_unknown.
  - rewrite rejected_run. cbn [fst snd exit_status files dirs]. split; [by right|]. split; [|done].
    split; [|done]. intros _. left. exists command, rest. split; [done|].
    intros [->|[->|[->|[->|[]%elem_of_nil]%elem_of_cons]%elem_of_cons]%elem_of_cons]%elem_of_cons;
      [apply Hhelp; by left|apply Hhelp; by right|done..].
Qed.

Lemma CreateExample_main_status_witness :
  (∀ key rest config,
     [lit "create"; lit "encrypted-counter"; lit "out"] = lit "create" :: key :: rest →
     table_get CreateExample.EXAMPLE_CATEGORIES key = Some config →
     project_room (World ∅ ∅ []) (arg_or (head rest) ".") key = true) ∧
  exit_status (CreateExample.main [lit "create"; lit "encrypted-counter"; lit "out"]
                 (World ∅ ∅ [])).1 = 0 ∧
  exit_status (CreateExample.main [lit "create"; lit "toString"] (World ∅ ∅ [])).1 = 1.
Proof.
  assert (∀ key rest config,
     [lit "create"; lit "encrypted-counter"; lit "out"] = lit "create" :: key :: rest →
     table_get CreateExample.EXAMPLE_CATEGORIES key = Some config →
     project_room (World ∅ ∅ []) (arg_or (head rest) ".") key = true) as H.
  { intros key rest config [= <- <-] _. vm_compute. reflexivity. }
  split; [exact H|]. split.
  - destruct (CreateExample_main_status _ (World ∅ ∅ []) H) as ([?|Hone] & Hrejected & _);
      [assumption|exfalso].
    apply Hrejected in Hone
      as [(c & r & [= <- _] & Hc)|[[=]|(key & rest & [= <- _] & [=])]].
    apply Hc. do 3 apply list_elem_of_further. apply list_elem_of_here.
  - destruct (CreateExample_main_status [lit "create"; lit "toString"] (World ∅ ∅ []))
      as (_ & Hrejected & _).
    + by intros key rest config [= <- <-] [=].
    + apply Hrejected. right. right. by exists (lit "toString"), [].
Defined.

(** ** Running a script again *)

(** What a file holds after a sequence of writes: the text of the last write
    to its path, and what it held before if there is none. *)
Lemma written_lookup {A} (pathOf : A → path) (textOf : A → str) (xs : list A)
    (fs : gmap path str) (p : path) :
  written pathOf textOf xs fs !! p
  = match last (List.filter (λ x, bool_decide (pathOf x = p)) xs) with
    | Some x => Some (textOf x)
    | None => fs !! p
    end.
Proof.
  induction xs as [|x xs IH] using rev_ind; [done|].
  unfold written. rewrite fold_left_app. cbn [fold_left]. fold (written pathOf textOf xs fs).
  rewrite lookup_insert, List.filter_app. cbn [List.filter].
  destruct (decide (pathOf x = p)) as [Hp|Hp].
  - rewrite bool_decide_eq_true_2 by done. by rewrite last_snoc.
  - rewrite bool_decide_eq_false_2 by done. by rewrite app_nil_r.
Qed.

(** Writing the same sequence of files again changes nothing. *)
Lemma written_again {A} (pathOf : A → path) (textOf : A → str) (xs : list A)
    (fs : gmap path str) :
  written pathOf textOf xs (written pathOf textOf xs fs) = written pathOf textOf xs fs.
Proof.
  apply map_eq. intros p. rewrite !written_lookup.
  by destruct (last _).
Qed.

Lemma ensure_directory_existing (p : path) (w : world) :
  p ∈ dirs w ∨ is_Some (files w !! p) →
  (ex ← existsSync p; if negb ex then mkdirSync_recursive p else mret ()) w = (Done (), w).
Proof.
  intros H. unfold mbind, Script_bind, existsSync.
  by rewrite bool_decide_eq_true_2.
Qed.

Lemma ensure_directories_existing (g : str → path) (names : list str) (w : world) :
  (∀ d, d ∈ names → g d ∈ dirs w ∨ is_Some (files w !! g d)) →
  forEach names (λ dir,
    let fullPath := g dir in
    ex ← existsSync fullPath;
    if negb ex then mkdirSync_recursive fullPath else mret ()) w
  = (Done (), w).
Proof.
  induction names as [|d names IH]; intros H; [done|].
  cbn [forEach]. cbv zeta.
  rewrite (bind_Done _ _ _ _ _ (ensure_directory_existing (g d) w (H d ltac:(by left)))).
  apply IH. intros d' Hd'. apply H. by right.
Qed.

(** When the seed directories are there, [createProjectStructure] does
    nothing. *)
Lemma createProjectStructure_existing (projectPath : path) (w : world) :
  (∀ seed, seed ∈ seed_directories →
     (projectPath.1, projectPath.2 ++ seed) ∈ dirs w ∨
     is_Some (files w !! (projectPath.1, projectPath.2 ++ seed))) →
  CreateExample.createProjectStructure projectPath w = (Done (), w).
Proof.
  intros H. unfold CreateExample.createProjectStructure.
  apply (ensure_directories_existing (path_join projectPath)).
  intros d Hd.
  assert (path_join projectPath d
          ∈ map (λ seed, (projectPath.1, projectPath.2 ++ seed)) seed_directories) as Hin
    by (rewrite <- seed_directory_paths; apply list_elem_of_fmap; eauto).
  apply list_elem_of_fmap in Hin as (seed & -> & Hseed). by apply H.
Qed.

(** The files [generateExample] writes for a catalog entry, in the order in
    which it writes them. *)
Lemma generateExample_existing (key outputDir : str)
    (config : CreateExample.ExampleConfig) (w : world) :
  table_get CreateExample.EXAMPLE_CATEGORIES key = Some config →
  let base := path_of_string outputDir in
  let Name := convertToCamelCase key in
  let inside := project_file base Name in
  (∀ seed, seed ∈ seed_directories →
     inside seed ∈ dirs w ∨ is_Some (files w !! inside seed)) →
  ∃ out : list (stream * str),
    CreateExample.generateExample key outputDir w =
      (Done (),
       World
         (<[inside [lit "README.md"] := CreateExample.readmeContent config]>
          (<[inside [lit "package.json"] :=
               JSON_stringify (CreateExample.packageJson key config)]>
          (<[inside [lit "tsconfig.json"] := JSON_stringify CreateExample.tsconfig]>
          (<[inside [lit "hardhat.config.ts"] :=
               CreateExample.generateHardhatConfigTemplate]>
          (<[inside [lit "test"; Name +++ ".test.ts"] :=
               CreateExample.generateTestTemplate Name]>
          (<[inside [lit "contracts"; Name +++ ".sol"] :=
               CreateExample.generateContractTemplate
                 (CreateExample.name config) (CreateExample.category config)]>
             (files w))))))) (dirs w) out).
Proof.
  intros Hkey. cbv zeta. unfold project_file. intros Hseeds.
  pose proof catalog_names_plain as Hplain.
  rewrite Forall_forall in Hplain.
  specialize (Hplain _ (table_get_In _ _ _ Hkey)). cbv zeta in Hplain.
  cbn [fst] in Hplain.
  apply andb_true_iff in Hplain as [[HName Hsol]%andb_true_iff Htest].
  unfold CreateExample.generateExample. rewrite (property_get_Own _ _ _ Hkey). cbv zeta.
  set (Name := convertToCamelCase key) in *.
  destruct (path_of_string outputDir) as [abs segs]. destruct w as [fs ds out].
  rewrite !(path_join_plain _ Name) by done.
  rewrite !(path_join_plain _ (lit "contracts")), !(path_join_plain _ (lit "test")),
    !(path_join_plain _ (lit "hardhat.config.ts")), !(path_join_plain _ (lit "tsconfig.json")),
    !(path_join_plain _ (lit "package.json")), !(path_join_plain _ (lit "README.md")),
    !(path_join_plain _ (Name +++ ".sol")), !(path_join_plain _ (Name +++ ".test.ts"))
    by done.
  script_step.
  rewrite createProjectStructure_existing.
  - script_step. rewrite <- !app_assoc. cbn [app]. by eexists.
  - intros seed Hseed. cbn [fst snd files dirs]. rewrite <- app_assoc. by apply Hseeds.
Qed.

(** X2.  Running [generateExample] a second time with the same catalog key and
    output directory, in a world with room for the project: after the first
    run there is still room for the project, and the second run completes
    and leaves every file and every directory as the first run left them. *)
Theorem generateExample_twice (key outputDir : str)
    (config : CreateExample.ExampleConfig) (w : world) :
  table_get CreateExample.EXAMPLE_CATEGORIES key = Some config →
  project_room w outputDir key = true →
  let once := CreateExample.generateExample key outputDir w in
  let twice := CreateExample.generateExample key outputDir once.2 in
  once.1 = Done () ∧
  project_room once.2 outputDir key = true ∧
  twice.1 = Done () ∧ files twice.2 = files once.2 ∧ dirs twice.2 = dirs once.2.
Proof.
  intros Hkey Hroom. cbv zeta.
  destruct (generateExample_run key outputDir config w Hkey)
    as (D & out & -> & Hsub & Hall & Hnew).
  cbn [fst snd]. split; [done|]. split.
  { unfold project_room in *. cbv zeta in *.
    apply (room_for_after w); [done| |done|].
    - intros q Hq. cbn [map project_files] in Hq.
      rewrite !not_elem_of_cons in Hq. destruct Hq as (? & ? & ? & ? & ? & ? & _).
      by rewrite !lookup_insert_ne.
    - intros q [?|(seed & Hseed & Hq)]%Hnew; [by left|right].
      eexists. split; [|exact Hq]. apply list_elem_of_fmap. eauto. }
  match goal with
  | |- context [CreateExample.generateExample key outputDir ?W] =>
      destruct (generateExample_existing key outputDir config W Hkey) as [out2 ->]
  end.
  - intros seed Hseed. cbn [files dirs].
    destruct (Hall seed Hseed) as [?|Hfile]; [by left|right].
    repeat (apply lookup_insert_is_Some'; right). exact Hfile.
  - cbn [fst snd files dirs]. split; [done|]. split; [|done].
    match goal with
    | |- <[?p6:=?t6]> (<[?p5:=?t5]> (<[?p4:=?t4]> (<[?p3:=?t3]> (<[?p2:=?t2]>
           (<[?p1:=?t1]> ?m))))) = _ =>
        apply (written_again fst snd
                 [(p1, t1); (p2, t2); (p3, t3); (p4, t4); (p5, t5); (p6, t6)] (files w))
    end.
Qed.

Lemma generateExample_twice_witness :
  table_get CreateExample.EXAMPLE_CATEGORIES (lit "user-decryption")
  = Some {| CreateExample.name := "User Decryption";
            CreateExample.description := "User-initiated decryption of encrypted values";
            CreateExample.category := "decryption";
            CreateExample.features := [lit "user-decrypt"; lit "authorized-decryption"] |} ∧
  project_room (World ∅ ∅ []) "examples" "user-decryption" = true ∧
  (CreateExample.generateExample "user-decryption" "examples"
     (CreateExample.generateExample "user-decryption" "examples" (World ∅ ∅ [])).2).1
  = Done ().
Proof.
  split; [reflexivity|]. split; [vm_compute; reflexivity|].
  eapply (generateExample_twice "user-decryption" "examples" _ (World ∅ ∅ [])).
  - reflexivity.
  - vm_compute. reflexivity.
Defined.

(** ** The category script *)

Lemma includes_flat_map {A} (g : A → str) (l : list A) (x : A) (pre post : str) :
  In x l → includes (pre ++ flat_map g l ++ post) (g x) = true.
Proof.
  intros (l1 & l2 & ->)%in_split. apply includes_true.
  exists (pre ++ flat_map g l1), (flat_map g l2 ++ post).
  rewrite flat_map_app. cbn [flat_map]. by rewrite <- !app_assoc.
Qed.

Lemma includes_app_r (pre s sub : str) :
  includes s sub = true → includes (pre ++ s) sub = true.
Proof.
  rewrite !includes_true. intros (pre' & post & ->).
  exists (pre ++ pre'), post. by rewrite <- app_assoc.
Qed.

Lemma category_keys_plain :
  Forall (λ entry : str * CreateCategory.Category, plain_segment entry.1 = true)
         CreateCategory.CATEGORIES.
Proof. repeat constructor. Qed.

(** A complete run of [createCategoryStructure] on a catalog key. *)
Lemma createCategoryStructure_run (key outputDir : str)
    (category : CreateCategory.Category) (w : world) :
  table_get CreateCategory.CATEGORIES key = Some category →
  let base := path_of_string outputDir in
  ∃ (D : gset path) (out : list (stream * str)),
    CreateCategory.createCategoryStructure key outputDir w =
      (Done (),
       World (<[category_file base key "README.md" := categoryIndex category]>
              (<[category_file base key "CATEGORY.md" := categoryDocument category]>
                 (files w)))
             D (console w ++ out)) ∧
    dirs w ⊆ D ∧
    (category_directory base key ∈ D ∨ is_Some (files w !! category_directory base key)) ∧
    (∀ q, q ∈ D → q ∈ dirs w ∨ q ∈ ancestors (category_directory base key)).
Proof.
  intros Hkey. cbv zeta.
  pose proof category_keys_plain as Hplain. rewrite Forall_forall in Hplain.
  specialize (Hplain _ (table_get_In _ _ _ Hkey)). cbn [fst] in Hplain.
  unfold CreateCategory.createCategoryStructure. rewrite (property_get_Own _ _ _ Hkey). cbv zeta.
  unfold CreateCategory.generateCategoryDocs. cbv zeta.
  unfold category_file, category_directory.
  destruct (path_of_string outputDir) as [abs segs].
  rewrite !(path_join_plain _ key) by done.
  rewrite !(path_join_plain _ (lit "CATEGORY.md")), !(path_join_plain _ (lit "README.md"))
    by done.
  cbn [fst snd].
  destruct w as [fs ds cs].
  match goal with
  | |- context [(_ ← existsSync ?P; _ ;; ?K) ?W] =>
      destruct (ensure_directory_then P K W) as (D & E & Hsub & Hdir & Hnew & _)
  end.
  rewrite E.
  assert (∀ file, (abs, (segs ++ [key]) ++ [file]) = (abs, segs ++ [key; file]))
    as Hfile by (intros file; by rewrite <- app_assoc).
  rewrite !Hfile. script_step. rewrite <- (app_assoc cs). cbn [app].
  eexists D, _. split; [reflexivity|done].
Qed.

Lemma category_file_inj base key file key' file' :
  category_file base key file = category_file base key' file' → key = key' ∧ file = file'.
Proof. unfold category_file. intros [= H%app_inv_head]. by injection H. Qed.

(** X3.  For a catalog key, in a world with room for the category,
    [createCategoryStructure] completes and writes two files in the
    directory of that name under the output directory: [CATEGORY.md], which
    lists every concept of the category as a bullet and links every example
    of it, and [README.md], which links every example; every other file is
    as before.  The directory exists afterwards, neither file has the path
    of a directory, what existed still exists, and a new directory is that
    directory or an ancestor of it. *)
Theorem createCategoryStructure_layout (key outputDir : str)
    (category : CreateCategory.Category) (w : world) :
  table_get CreateCategory.CATEGORIES key = Some category →
  category_room w outputDir key = true →
  let base := path_of_string outputDir in
  let r := CreateCategory.createCategoryStructure key outputDir w in
  r.1 = Done () ∧
  files r.2 = <[category_file base key "README.md" := categoryIndex category]>
              (<[category_file base key "CATEGORY.md" := categoryDocument category]>
                 (files w)) ∧
  category_file base key "CATEGORY.md" ≠ category_file base key "README.md" ∧
  (∀ concept, In concept (CreateCategory.concepts category) →
     includes (categoryDocument category) ("- " +++ concept +++ [nl]) = true) ∧
  (∀ example, In example (CreateCategory.examples category) →
     includes (categoryDocument category)
       ("- [" +++ example +++ "](../examples/" +++ example +++ "/README.md)" +++ [nl])
     = true ∧
     includes (categoryIndex category)
       ("- [" +++ example +++ "](" +++ example +++ "/)" +++ [nl]) = true) ∧
  dirs w ⊆ dirs r.2 ∧
  category_directory base key ∈ dirs r.2 ∧
  (∀ p, p ∈ category_files base key → p ∉ dirs r.2) ∧
  (∀ q, q ∈ dirs r.2 → q ∈ dirs w ∨ q ∈ ancestors (category_directory base key)).
Proof.
  intros Hkey [Hfree Htargets]%room_for_spec. cbv zeta.
  destruct (createCategoryStructure_run key outputDir category w Hkey)
    as (D & out & -> & Hsub & Hdir & Hnew).
  cbn [fst snd files dirs].
  split; [done|]. split; [done|]. split; [by intros [_ [=]]%category_file_inj|].
  split; [|split; [|split; [done|split; [|split; [|done]]]]].
  3:{ destruct Hdir as [?|Hfile]; [done|].
      rewrite (Hfree (category_directory (path_of_string outputDir) key)) in Hfile;
        [by destruct Hfile|apply list_elem_of_here|apply ancestors_self]. }
  3:{ intros p Hp [?|Hq]%Hnew.
      - by destruct (Htargets p Hp).
      - destruct (Htargets p Hp) as (_ & Hasked & _).
        apply (Hasked (category_directory (path_of_string outputDir) key)); [|done].
        apply list_elem_of_here. }
  - intros concept Hconcept. unfold categoryDocument.
    do 3 apply includes_app_r.
    by apply (includes_flat_map (λ concept, "- " +++ concept +++ [nl]) _ _ []).
  - intros example Hexample. split.
    + unfold categoryDocument. do 6 apply includes_app_r.
      by apply (includes_flat_map
                  (λ example, "- [" +++ example +++ "](../examples/" +++ example +++
                              "/README.md)" +++ [nl]) _ _ []).
    + unfold categoryIndex. do 3 apply includes_app_r.
      rewrite <- (app_nil_r (flat_map _ _)).
      by apply (includes_flat_map
                  (λ example, "- [" +++ example +++ "](" +++ example +++ "/)" +++ [nl])
                  _ _ []).
Qed.

Lemma createCategoryStructure_layout_witness :
  table_get CreateCategory.CATEGORIES (lit "access-control")
  = Some {| CreateCategory.name := "Access Control";
            CreateCategory.description := "Managing permissions and access to encrypted data";
            CreateCategory.examples :=
              [lit "access-control-system"; lit "role-based-permissions"];
            CreateCategory.concepts :=
              [lit "Authorization"; lit "Roles"; lit "Permissions"; lit "Access Grants"] |} ∧
  category_room (World ∅ ∅ []) "docs/categories" "access-control" = true ∧
  (CreateCategory.createCategoryStructure "access-control" "docs/categories"
     (World ∅ ∅ [])).1 = Done ().
Proof.
  split; [reflexivity|]. split; [vm_compute; reflexivity|].
  eapply (createCategoryStructure_layout "access-control" "docs/categories" _ (World ∅ ∅ [])).
  - reflexivity.
  - vm_compute. reflexivity.
Defined.

(** The loop of [generateAllCategories], over any catalog entries with
    distinct keys. *)
Lemma createCategories_run (entries : list (str * CreateCategory.Category))
    (outputDir : str) (w : world) :
  NoDup (map fst entries) →
  (∀ entry, entry ∈ entries →
     table_get CreateCategory.CATEGORIES entry.1 = Some entry.2) →
  let base := path_of_string outputDir in
  ∃ (F : gmap path str) (D : gset path) (out : list (stream * str)),
    forEach (map fst entries)
      (λ categoryKey, CreateCategory.createCategoryStructure categoryKey outputDir) w
    = (Done (), World F D (console w ++ out)) ∧
    (∀ entry, entry ∈ entries →
       F !! category_file base entry.1 "CATEGORY.md" = Some (categoryDocument entry.2) ∧
       F !! category_file base entry.1 "README.md" = Some (categoryIndex entry.2)) ∧
    (∀ p, (∀ entry, entry ∈ entries → p ∉ category_files base entry.1) →
       F !! p = files w !! p) ∧
    dirs w ⊆ D ∧
    (∀ entry, entry ∈ entries →
       category_directory base entry.1 ∈ D ∨
       is_Some (F !! category_directory base entry.1)) ∧
    (∀ q, q ∈ D → q ∈ dirs w ∨
       ∃ entry, entry ∈ entries ∧ q ∈ ancestors (category_directory base entry.1)).
Proof.
  cbv zeta. revert w. induction entries as [|[key category] entries IH]; intros w Hdup Hcat.
  - exists (files w), (dirs w), []. destruct w. cbn. rewrite app_nil_r.
    split; [done|]. split; [by intros ? ?%elem_of_nil|]. split; [done|].
    split; [done|]. split; [by intros ? ?%elem_of_nil|]. by left.
  - cbn [map fst] in Hdup. apply NoDup_cons in Hdup as [Hkey Hdup].
    destruct (createCategoryStructure_run key outputDir category w)
      as (D1 & out1 & E1 & Hsub1 & Hdir1 & Hnew1).
    { apply (Hcat (key, category)). by left. }
    destruct (IH (World (<[category_file (path_of_string outputDir) key "README.md"
                            := categoryIndex category]>
                         (<[category_file (path_of_string outputDir) key "CATEGORY.md"
                            := categoryDocument category]> (files w)))
                        D1 (console w ++ out1)) Hdup)
      as (F & D & out & E & Hfiles & Hframe & Hsub & Hdirs & Hnew).
    { intros entry Hentry. apply Hcat. by right. }
    cbn [files dirs console] in E, Hfiles, Hframe, Hsub, Hdirs, Hnew.
    exists F, D, (out1 ++ out). split; [|split; [|split; [|split; [|split]]]].
    + cbn [map fst forEach]. rewrite (bind_Done _ _ _ _ _ E1), E. by rewrite app_assoc.
    + intros entry [->|Hentry]%elem_of_cons; [|by apply Hfiles].
      cbn [fst snd]. rewrite !Hframe.
      * rewrite lookup_insert_ne by by intros [_ [=]]%category_file_inj.
        by rewrite !lookup_insert_eq.
      * intros entry' Hentry' Hin. unfold category_files in Hin.
        rewrite !elem_of_cons, elem_of_nil in Hin.
        destruct Hin as [[-> _]%category_file_inj|[[-> _]%category_file_inj|[]]];
          apply Hkey, list_elem_of_fmap; by exists entry'.
      * intros entry' Hentry' Hin. unfold category_files in Hin.
        rewrite !elem_of_cons, elem_of_nil in Hin.
        destruct Hin as [[-> _]%category_file_inj|[[-> _]%category_file_inj|[]]];
          apply Hkey, list_elem_of_fmap; by exists entry'.
    + intros p Hp. rewrite Hframe by (intros entry Hentry; apply Hp; by right).
      specialize (Hp (key, category) ltac:(by left)). unfold category_files in Hp.
      cbn [fst] in Hp. rewrite !not_elem_of_cons in Hp. destruct Hp as (? & ? & _).
      by rewrite !lookup_insert_ne.
    + by etrans.
    + intros entry [->|Hentry]%elem_of_cons; [|by apply Hdirs].
      cbn [fst]. destruct Hdir1 as [Hd|Hf]; [left; by apply Hsub|right].
      rewrite Hframe.
      * by repeat (apply lookup_insert_is_Some'; right).
      * intros entry' Hentry' Hin. unfold category_files in Hin.
        rewrite !elem_of_cons, elem_of_nil in Hin.
        unfold category_directory, category_file in Hin.
        by destruct Hin as [[= H%app_inv_head]|[[= H%app_inv_head]|[]]].
    + intros q Hq. destruct (Hnew q Hq) as [Hq1|(entry & Hentry & Hanc)].
      * destruct (Hnew1 q Hq1) as [?|?]; [by left|right].
        exists (key, category). split; [by left|done].
      * right. exists entry. split; [by right|done].
Qed.

Lemma catalog_categories :
  NoDup (map fst CreateCategory.CATEGORIES) ∧
  ∀ entry, entry ∈ CreateCategory.CATEGORIES →
    table_get CreateCategory.CATEGORIES entry.1 = Some entry.2.
Proof.
  split.
  - apply (bool_decide_unpack _). by vm_compute.
  - apply Forall_forall. repeat constructor.
Qed.

(** A complete run of [generateAllCategories]. *)
Lemma generateAllCategories_run (outputDir : str) (w : world) :
  let base := path_of_string outputDir in
  ∃ (F : gmap path str) (D : gset path) (out : list (stream * str)) (index : str),
    CreateCategory.generateAllCategories outputDir w
    = (Done (), World (<[(base.1, base.2 ++ [lit "CATEGORIES.md"]) := index]> F) D
                      (console w ++ out)) ∧
    (∀ entry, entry ∈ CreateCategory.CATEGORIES →
       F !! category_file base entry.1 "CATEGORY.md" = Some (categoryDocument entry.2) ∧
       F !! category_file base entry.1 "README.md" = Some (categoryIndex entry.2)) ∧
    (∀ p, (∀ entry, entry ∈ CreateCategory.CATEGORIES →
                    p ∉ category_files base entry.1) →
       F !! p = files w !! p) ∧
    dirs w ⊆ D ∧
    (∀ entry, entry ∈ CreateCategory.CATEGORIES →
       category_directory base entry.1 ∈ D ∨
       is_Some (F !! category_directory base entry.1)) ∧
    (∀ q, q ∈ D → q ∈ dirs w ∨
       ∃ entry, entry ∈ CreateCategory.CATEGORIES ∧
                q ∈ ancestors (category_directory base entry.1)) ∧
    (∀ entry, entry ∈ CreateCategory.CATEGORIES →
       includes index
         (("## [" +++ CreateCategory.name entry.2 +++ "](./" +++ entry.1 +++
           "/README.md)" +++ [nl; nl]) ++
          (CreateCategory.description entry.2 +++ [nl; nl])) = true) ∧
    List.length (level2_headings index) = List.length CreateCategory.CATEGORIES.
Proof.
  cbv zeta. unfold CreateCategory.generateAllCategories. cbv zeta.
  rewrite (path_join_plain _ (lit "CATEGORIES.md")) by done.
  destruct catalog_categories as [Hdup Hcat].
  destruct (createCategories_run CreateCategory.CATEGORIES outputDir
              (World (files w) (dirs w)
                     (console w ++ [(Stdout, "Generating all categories..." +++ [nl])]))
              Hdup Hcat)
    as (F & D & out & E & Hfiles & Hframe & Hsub & Hdirs & Hnew).
  cbn [files dirs console] in E, Hfiles, Hframe, Hsub, Hdirs, Hnew.
  unfold mbind at 1, Script_bind at 1, console_log at 1.
  unfold table_keys. rewrite (bind_Done _ _ _ _ _ E).
  script_step. rewrite <- !(app_assoc (console w)).
  eexists F, D, _, _. split; [reflexivity|].
  do 5 (split; [done|]). split.
  - intros entry Hentry%list_elem_of_In. do 2 apply includes_app_r.
    rewrite <- (app_nil_r (flat_map _ _)).
    by apply (includes_flat_map
      (λ entry : str * CreateCategory.Category,
         ("## [" +++ CreateCategory.name entry.2 +++ "](./" +++ entry.1 +++
          "/README.md)" +++ [nl; nl]) ++
         (CreateCategory.description entry.2 +++ [nl; nl])) _ _ []).
  - vm_compute. reflexivity.
Qed.

(** X4.  In a world with room for the categories and their index,
    [generateAllCategories] completes.  For every entry of the catalog, the
    directory of the category exists afterwards and its two files hold what
    [createCategoryStructure] writes for it; the index [CATEGORIES.md] in the
    output directory has one level-2 heading for each category, with its
    name, the link to its [README.md] and its description; every file other
    than the index and the two files of each category is as before, and
    what existed still exists. *)
Theorem generateAllCategories_spec (outputDir : str) (w : world) :
  categories_room w outputDir = true →
  let base := path_of_string outputDir in
  let index_path : path := (base.1, base.2 ++ [lit "CATEGORIES.md"]) in
  let r := CreateCategory.generateAllCategories outputDir w in
  r.1 = Done () ∧
  (∀ key category, (key, category) ∈ CreateCategory.CATEGORIES →
     files r.2 !! category_file base key "CATEGORY.md" = Some (categoryDocument category) ∧
     files r.2 !! category_file base key "README.md" = Some (categoryIndex category) ∧
     category_directory base key ∈ dirs r.2) ∧
  (∃ index,
     files r.2 !! index_path = Some index ∧
     (∀ key category, (key, category) ∈ CreateCategory.CATEGORIES →
        includes index
          (("## [" +++ CreateCategory.name category +++ "](./" +++ key +++
            "/README.md)" +++ [nl; nl]) ++
           (CreateCategory.description category +++ [nl; nl])) = true) ∧
     List.length (level2_headings index) = List.length CreateCategory.CATEGORIES) ∧
  (∀ p, p ≠ index_path →
        (∀ key category, (key, category) ∈ CreateCategory.CATEGORIES →
                         p ≠ category_file base key "CATEGORY.md" ∧
                         p ≠ category_file base key "README.md") →
        files r.2 !! p = files w !! p) ∧
  dirs w ⊆ dirs r.2.
Proof.
  intros [Hfree _]%room_for_spec. cbv zeta.
  destruct (generateAllCategories_run outputDir w)
    as (F & D & out & index & -> & Hfiles & Hframe & Hsub & Hdirs & _ & Hindex & Hcount).
  cbn [fst snd files dirs].
  split; [done|]. split; [|split; [|split; [|done]]].
  - intros key category Hentry.
    destruct (Hfiles _ Hentry) as [Hdoc Hidx]. cbn [fst snd] in Hdoc, Hidx.
    rewrite !lookup_insert_ne
      by (unfold category_file, category_directory; by intros [= H%app_inv_head]).
    split; [done|]. split; [done|].
    destruct (Hdirs _ Hentry) as [?|Hfile]; [done|exfalso]. cbn [fst] in Hfile.
    rewrite Hframe in Hfile.
    + rewrite (Hfree (category_directory (path_of_string outputDir) key)) in Hfile;
        [by destruct Hfile| |apply ancestors_self].
      apply list_elem_of_fmap. by exists (key, category).
    + intros entry' Hentry' Hin. unfold category_files in Hin.
      rewrite !elem_of_cons, elem_of_nil in Hin.
      unfold category_directory, category_file in Hin.
      by destruct Hin as [[= H%app_inv_head]|[[= H%app_inv_head]|[]]].
  - exists index. rewrite lookup_insert_eq. split; [done|]. split; [|done].
    intros key category Hentry. apply (Hindex _ Hentry).
  - intros p Hp Hother. rewrite lookup_insert_ne by done.
    apply Hframe. intros [key category] Hentry Hin. unfold category_files in Hin.
    rewrite !elem_of_cons, elem_of_nil in Hin. cbn [fst] in Hin.
    destruct (Hother key category Hentry) as [? ?]. by destruct Hin as [?|[?|[]]].
Qed.

Lemma generateAllCategories_spec_witness :
  categories_room (World ∅ ∅ []) "docs/categories" = true ∧
  (lit "basic-operations",
   {| CreateCategory.name := "Basic Operations";
      CreateCategory.description := "Fundamental FHE operations and patterns";
      CreateCategory.examples := [lit "encrypted-counter"; lit "encrypted-arithmetic"];
      CreateCategory.concepts :=
        [lit "Addition"; lit "Subtraction"; lit "Multiplication"; lit "Storage"] |})
  ∈ CreateCategory.CATEGORIES ∧
  files (CreateCategory.generateAllCategories "docs/categories" (World ∅ ∅ [])).2
    !! category_file (path_of_string "docs/categories") "basic-operations" "CATEGORY.md"
  = Some (categoryDocument
            {| CreateCategory.name := "Basic Operations";
               CreateCategory.description := "Fundamental FHE operations and patterns";
               CreateCategory.examples :=
                 [lit "encrypted-counter"; lit "encrypted-arithmetic"];
               CreateCategory.concepts :=
                 [lit "Addition"; lit "Subtraction"; lit "Multiplication";
                  lit "Storage"] |}).
Proof.
  assert (categories_room (World ∅ ∅ []) "docs/categories" = true) as Hroom
    by (vm_compute; reflexivity).
  assert ((lit "basic-operations",
           {| CreateCategory.name := "Basic Operations";
              CreateCategory.description := "Fundamental FHE operations and patterns";
              CreateCategory.examples :=
                [lit "encrypted-counter"; lit "encrypted-arithmetic"];
              CreateCategory.concepts :=
                [lit "Addition"; lit "Subtraction"; lit "Multiplication";
                 lit "Storage"] |})
          ∈ CreateCategory.CATEGORIES) as Hin by (by left).
  split; [exact Hroom|]. split; [exact Hin|].
  pose proof (generateAllCategories_spec "docs/categories" (World ∅ ∅ []) Hroom) as H.
  cbv zeta in H. destruct H as (_ & H & _).
  destruct (H _ _ Hin) as (Hdoc & _). exact Hdoc.
Defined.

(** X5.  The exit status of the category script, where the file system has
    room for what [create] with a catalog key and [create-all] make.  The
    process ends with status 0 or 1; the status is 1 exactly for a command
    the script does not know, for [create] without a key and for [create]
    with the name of an inherited property, so [create] with any other key
    that is not in the catalog ends with status 0, and [help], which the
    usage text lists as a command, ends with status 1; and only [create]
    with a catalog key or the name of an inherited property, and
    [create-all], change a file or a directory. *)
Theorem CreateCategory_main_status (args : list str) (w : world) :
  (∀ key rest category,
     args = lit "create" :: key :: rest →
     table_get CreateCategory.CATEGORIES key = Some category →
     category_room w (arg_or (head rest) "./docs/categories") key = true) →
  (∀ rest, args = lit "create-all" :: rest →
     categories_room w (arg_or (head rest) "./docs/categories") = true) →
  let r := CreateCategory.main args w in
  (exit_status r.1 = 0 ∨ exit_status r.1 = 1) ∧
  (exit_status r.1 = 1 ↔ rejected_by_create_category args) ∧
  ((∀ key rest, args = lit "create" :: key :: rest →
      table_get CreateCategory.CATEGORIES key = None ∧ inherited_property key = false) →
   head args ≠ Some (lit "create-all") →
   files r.2 = files w ∧ dirs r.2 = dirs w) ∧
  exit_status (CreateCategory.main [lit "help"] w).1 = 1.
Proof.
  intros _ _. cbv zeta.
  match goal with
  | |- ?A ∧ ?B ∧ ?C ∧ _ =>
      enough (A ∧ B ∧ C) as (HA & HB & HC)
        by (split; [exact HA|split; [exact HB|split; [exact HC|reflexivity]]])
  end.
  unfold rejected_by_create_category.
  destruct args as [|command rest].
  { cbn [CreateCategory.main]. destruct (CreateCategory_usage_prints w) as [out ->].
    cbn [fst snd exit_status files dirs]. split; [by left|]. split; [|done].
    split; [done|]. intros [(? & ? & [=] & _)|[[=]|(? & ? & [=] & _)]]. }
  unfold CreateCategory.main.
  destruct (decide (command = lit "--help" ∨ command = lit "-h")) as [Hhelp|Hhelp].
  { destruct (CreateCategory_usage_prints w) as [out ->].
    cbn [fst snd exit_status files dirs]. split; [by left|]. split; [|done].
    split; [done|].
    intros [(c & r & [= <- <-] & Hc)|[[= -> ->]|(? & ? & [= -> _] & _)]].
    - destruct Hc. destruct Hhelp as [-> | ->]; set_solver.
    - by destruct Hhelp.
    - by destruct Hhelp. }
  destruct (decide (command = lit "list")) as [->|Hlist].
  { destruct (listCategories_prints w) as [out ->].
    cbn [fst snd exit_status files dirs]. split; [by left|]. split; [|done].
    split; [done|].
    intros [(c & r & [= <- <-] & Hc)|[[=]|(? & ? & [=] & _)]]. destruct Hc. set_solver. }
  destruct (decide (command = lit "create")) as [->|Hcreate].
  { destruct rest as [|key rest].
    - rewrite rejected_run. cbn [fst snd exit_status files dirs].
      split; [by right|]. split; [|done]. split; [|done]. intros _. right. by left.
    - cbv zeta.
      destruct (table_get CreateCategory.CATEGORIES key) as [category|] eqn:Hkey.
      + destruct (createCategoryStructure_run key
                    (arg_or (head rest) "./docs/categories") category w Hkey)
          as (D & out & -> & _).
        cbn [fst snd exit_status files dirs]. split; [by left|]. split.
        * split; [done|].
          intros [(c & r & [= <- <-] & Hc)|[[=]|(? & ? & [= <- _] & ? & _)]];
            [|congruence].
          destruct Hc. set_solver.
        * intros H. destruct (H key rest eq_refl). congruence.
      + destruct (inherited_property key) eqn:Hinherited.
        * destruct (inherited_property_true key Hinherited) as [value Hvalue].
          unfold CreateCategory.createCategoryStructure.
          rewrite (property_get_Inherited _ _ _ Hkey Hvalue).
          destruct (createCategoryStructure_inherited_run key
                      (arg_or (head rest) "./docs/categories") value w Hvalue)
            as (D & -> & _).
          cbn [fst snd exit_status files dirs]. split; [by right|]. split.
          -- split; [|done]. intros _. right. right. by exists key, rest.
          -- intros H. destruct (H key rest eq_refl). congruence.
        * rewrite createCategoryStructure_unknown by done.
          cbn [fst snd exit_status files dirs]. split; [by left|]. split; [|done].
          split; [done|].
          intros [(c & r & [= <- <-] & Hc)|[[=]|(? & ? & [= <- _] & _ & ?)]];
            [|congruence].
          destruct Hc. set_solver. }
  destruct (decide (command = lit "create-all")) as [->|Hall].
  { cbv zeta.
    match goal with
    | |- context [(_ ← existsSync ?P; _ ;; ?K) w] =>
        destruct (ensure_directory_then P K w) as (D & -> & _)
    end.
    match goal with
    | |- context [CreateCategory.generateAllCategories ?d ?W] =>
        destruct (generateAllCategories_run d W) as (F & D' & out & index & -> & _)
    end.
    cbn [fst snd exit_status files dirs]. split; [by left|]. split.
    - split; [done|].
      intros [(c & r & [= <- <-] & Hc)|[[=]|(? & ? & [=] & _)]]. destruct Hc. set_solver.
    - intros _ H. by destruct H. }
  rewrite rejected_run. cbn [fst snd exit_status files dirs].
  split; [by right|]. split; [|done]. split; [|done].
  intros _. left. exists command, rest. split; [done|].
  intros [->|[->|[->|[->|[->|[]%elem_of_nil]%elem_of_cons]%elem_of_cons]%elem_of_cons]%elem_of_cons]%elem_of_cons;
    [apply Hhelp; by left|apply Hhelp; by right|done..].
Qed.

Lemma CreateCategory_main_status_witness :
  (∀ key rest category,
     [lit "create"; lit "access-control"] = lit "create" :: key :: rest →
     table_get CreateCategory.CATEGORIES key = Some category →
     category_room (World ∅ ∅ []) (arg_or (head rest) "./docs/categories") key = true) ∧
  (∀ rest, [lit "create"; lit "access-control"] = lit "create-all" :: rest →
     categories_room (World ∅ ∅ []) (arg_or (head rest) "./docs/categories") = true) ∧
  exit_status (CreateCategory.main [lit "create"; lit "access-control"] (World ∅ ∅ [])).1
  = 0 ∧
  exit_status (CreateCategory.main [lit "create"; lit "valueOf"] (World ∅ ∅ [])).1 = 1.
Proof.
  assert (∀ key rest category,
     [lit "create"; lit "access-control"] = lit "create" :: key :: rest →
     table_get CreateCategory.CATEGORIES key = Some category →
     category_room (World ∅ ∅ []) (arg_or (head rest) "./docs/categories") key = true)
    as H1.
  { intros key rest category [= <- <-] _. vm_compute. reflexivity. }
  assert (∀ rest, [lit "create"; lit "access-control"] = lit "create-all" :: rest →
     categories_room (World ∅ ∅ []) (arg_or (head rest) "./docs/categories") = true)
    as H2 by (by intros rest [=]).
  split; [exact H1|]. split; [exact H2|]. split.
  - destruct (CreateCategory_main_status _ (World ∅ ∅ []) H1 H2)
      as ([?|Hone] & Hrejected & _); [assumption|exfalso].
    apply Hrejected in Hone
      as [(c & r & [= <- _] & Hc)|[[=]|(key & rest & [= <- _] & [=] & _)]].
    apply Hc. do 3 apply list_elem_of_further. apply list_elem_of_here.
  - destruct (CreateCategory_main_status [lit "create"; lit "valueOf"] (World ∅ ∅ []))
      as (_ & Hrejected & _).
    + by intros key rest category [= <- <-] [=].
    + by intros rest [=].
    + apply Hrejected. right. right. by exists (lit "valueOf"), [].
Defined.

(** ** Grouping the records *)

Lemma first_seen_In keys k : In k (first_seen keys) ↔ In k keys.
Proof.
  induction keys as [|a keys IH]; [done|]. cbn [first_seen In].
  rewrite filter_In, IH, negb_true_iff, bool_decide_eq_false.
  destruct (decide (a = k)) as [->|]; [tauto|]. split; [tauto|].
  intros [?|?]; [done|]. right. split; [done|]. congruence.
Qed.

Lemma first_seen_NoDup keys : List.NoDup (first_seen keys).
Proof.
  induction keys as [|a keys IH]; [constructor|]. cbn [first_seen]. constructor.
  - rewrite filter_In, negb_true_iff, bool_decide_eq_false. tauto.
  - by apply List.NoDup_filter.
Qed.

Lemma first_seen_snoc keys k :
  first_seen (keys ++ [k])
  = if bool_decide (k ∈ keys) then first_seen keys else first_seen keys ++ [k].
Proof.
  induction keys as [|a keys IH].
  - cbn. by rewrite bool_decide_eq_false_2 by apply not_elem_of_nil.
  - cbn [app first_seen]. rewrite IH.
    destruct (decide (a = k)) as [->|Hne].
    + rewrite (bool_decide_eq_true_2 (k ∈ k :: keys)) by by left.
      destruct (bool_decide (k ∈ keys)); [done|].
      rewrite List.filter_app. cbn [List.filter].
      rewrite bool_decide_eq_true_2 by done. cbn [negb]. by rewrite app_nil_r.
    + destruct (bool_decide (k ∈ keys)) eqn:Hk.
      * apply bool_decide_eq_true in Hk.
        by rewrite (bool_decide_eq_true_2 (k ∈ a :: keys)) by by right.
      * apply bool_decide_eq_false in Hk.
        rewrite (bool_decide_eq_false_2 (k ∈ a :: keys))
          by (intros [?|?]%elem_of_cons; done).
        rewrite List.filter_app. cbn [List.filter].
        rewrite bool_decide_eq_false_2 by congruence. done.
Qed.

Lemma with_key_snoc {V} (f : V → str) k (items : list V) x :
  with_key f k (items ++ [x])
  = with_key f k items ++ (if bool_decide (f x = k) then [x] else []).
Proof. unfold with_key. by rewrite List.filter_app. Qed.

Lemma with_key_nil {V} (f : V → str) k (items : list V) :
  ¬ In k (map f items) → with_key f k items = [].
Proof.
  intros H. induction items as [|x items IH]; [done|].
  unfold with_key. cbn [List.filter]. rewrite bool_decide_eq_false_2.
  - apply IH. intros ?. apply H. by right.
  - intros ?. apply H. by left.
Qed.

(** Pushing onto groups that are given by their keys. *)
Lemma group_push_map {V} (g h : str → list V) key (v : V) (keys : list str) :
  List.NoDup keys →
  (∀ k, k ∈ keys → h k = g k ++ (if bool_decide (key = k) then [v] else [])) →
  h key = g key ++ [v] → (key ∉ keys → g key = []) →
  group_push key v (map (λ k, (k, g k)) keys)
  = map (λ k, (k, h k)) (if bool_decide (key ∈ keys) then keys else keys ++ [key]).
Proof.
  intros Hdup Hh Hkey Hnew. induction keys as [|a keys IH].
  - rewrite bool_decide_eq_false_2 by apply not_elem_of_nil.
    cbn [app map group_push]. rewrite Hkey, Hnew by apply not_elem_of_nil. done.
  - inversion_clear Hdup as [|? ? Ha Hdup'].
    cbn [map group_push]. destruct (decide (a = key)) as [->|Hne].
    + rewrite (bool_decide_eq_true_2 (key ∈ key :: keys)) by by left.
      cbn [map]. rewrite Hkey. f_equal.
      apply map_ext_in. intros k Hk. rewrite Hh by (right; by apply list_elem_of_In).
      rewrite bool_decide_eq_false_2 by (intros <-; done). by rewrite app_nil_r.
    + rewrite IH.
      * assert (h a = g a) as Ha'.
        { rewrite (Hh a) by by left. rewrite bool_decide_eq_false_2 by congruence.
          by rewrite app_nil_r. }
        destruct (bool_decide (key ∈ keys)) eqn:Hk.
        -- apply bool_decide_eq_true in Hk.
           rewrite (bool_decide_eq_true_2 (key ∈ a :: keys)) by by right.
           cbn [map]. by rewrite Ha'.
        -- apply bool_decide_eq_false in Hk.
           rewrite (bool_decide_eq_false_2 (key ∈ a :: keys))
             by (intros [?|?]%elem_of_cons; done).
           cbn [app map]. by rewrite Ha'.
      * done.
      * intros k Hk. apply Hh. by right.
      * intros Hk. apply Hnew. intros [?|?]%elem_of_cons; done.
Qed.

(** The groups are the distinct keys in the order of their first occurrence,
    each with its items in their order. *)
Lemma group_by_first_seen {V} (f : V → str) (items : list V) :
  group_by f items
  = map (λ k, (k, with_key f k items)) (first_seen (map f items)).
Proof.
  induction items as [|x items IH] using rev_ind; [done|].
  unfold group_by. rewrite fold_left_app. cbn [fold_left]. fold (group_by f items).
  rewrite IH, map_app. cbn [map]. rewrite first_seen_snoc.
  rewrite (group_push_map (λ k, with_key f k items) (λ k, with_key f k (items ++ [x]))).
  - f_equal.
    rewrite (bool_decide_ext (f x ∈ first_seen (map f items)) (f x ∈ map f items)); [done|].
    by rewrite !list_elem_of_In, first_seen_In.
  - apply first_seen_NoDup.
  - intros k _. by rewrite with_key_snoc.
  - rewrite with_key_snoc. by rewrite bool_decide_eq_true_2.
  - intros H. apply with_key_nil. by rewrite <- first_seen_In, <- list_elem_of_In.
Qed.

Lemma written_map {A B} (h : A → B) (pathOf : B → path) (textOf : B → str)
    (xs : list A) (fs : gmap path str) :
  written pathOf textOf (map h xs) fs
  = written (λ x, pathOf (h x)) (λ x, textOf (h x)) xs fs.
Proof.
  unfold written. revert fs. induction xs as [|x xs IH]; intros fs; [done|].
  cbn [map fold_left]. apply IH.
Qed.

Lemma includes_trans (s t u : str) :
  includes s t = true → includes t u = true → includes s u = true.
Proof.
  rewrite !includes_true. intros (pre & post & ->) (pre' & post' & ->).
  exists (pre ++ pre'), (post' ++ post). by rewrite <- !app_assoc.
Qed.

Lemma with_key_In {V} (f : V → str) (items : list V) (item : V) :
  In item items → In item (with_key f (f item) items).
Proof.
  intros H. unfold with_key. apply filter_In. split; [done|].
  by apply bool_decide_eq_true_2.
Qed.

(** X6.  On records with plain chapters and categories, the chapters being
    7-bit texts, and in a world with room for the chapter files,
    [generateMarkdown] completes and writes one file for each distinct
    chapter of the records, in the order in which the chapters first
    appear; the file of a chapter is built from the records of that chapter,
    in their order, and each write is reported on standard output.  No
    directory changes, and a file whose path is not the path of a chapter is
    as before; with no records, nothing changes at all.  There is room for
    the chapter files afterwards too, and running it again on the same
    records leaves every file as it is. *)
Theorem generateMarkdown_chapters (docs : list DocMetadata) (outputPath : path)
    (w : world) :
  plain_records docs →
  ascii_chapters docs →
  room_for w [] (map (chapterPath outputPath) (first_seen (map chapter docs))) = true →
  let chapters := first_seen (map chapter docs) in
  let r := generateMarkdown docs outputPath w in
  r.1 = Done () ∧
  files r.2
  = written (chapterPath outputPath)
            (λ ch, chapterContent ch (with_key chapter ch docs)) chapters (files w) ∧
  dirs r.2 = dirs w ∧
  console r.2
  = console w ++
    map (λ ch, (Stdout, "Generated: " +++ path_to_string (chapterPath outputPath ch)))
        chapters ∧
  List.NoDup chapters ∧
  (∀ ch, In ch chapters ↔ ∃ doc, In doc docs ∧ chapter doc = ch) ∧
  (∀ p, (∀ doc, In doc docs → chapterPath outputPath (chapter doc) ≠ p) →
        files r.2 !! p = files w !! p) ∧
  (docs = [] → r.2 = w) ∧
  room_for r.2 [] (map (chapterPath outputPath) chapters) = true ∧
  files (generateMarkdown docs outputPath r.2).2 = files r.2.
Proof.
  intros _ _ Hroom. cbv zeta. rewrite !generateMarkdown_run.
  cbn [fst snd files dirs console].
  rewrite group_by_first_seen, !written_map, map_map. cbn [fst snd].
  assert (∀ p, (∀ doc, In doc docs → chapterPath outputPath (chapter doc) ≠ p) →
            written (chapterPath outputPath)
              (λ ch, chapterContent ch (with_key chapter ch docs))
              (first_seen (map chapter docs)) (files w) !! p = files w !! p) as Hframe.
  { intros p Hp. apply written_other. intros ch Hch%first_seen_In%in_map_iff.
    destruct Hch as (doc & <- & Hdoc). by apply Hp. }
  split; [done|]. split; [done|]. split; [done|]. split; [done|].
  split; [apply first_seen_NoDup|]. split; [|split; [done|split; [|split]]].
  - intros ch. rewrite first_seen_In, in_map_iff.
    split; intros (doc & ? & ?); by exists doc.
  - intros ->. destruct w. cbn. by rewrite app_nil_r.
  - apply (room_for_after w); [done| |done|by left].
    intros q Hq. apply Hframe. intros doc Hdoc <-. apply Hq.
    apply list_elem_of_fmap. exists (chapter doc). split; [done|].
    apply list_elem_of_In, first_seen_In, in_map_iff. by exists doc.
  - apply written_again.
Qed.

Lemma generateMarkdown_chapters_witness :
  plain_records
    [ {| name := "adds"; category := "basic"; chapter := "Counter"; description := [] |} ] ∧
  ascii_chapters
    [ {| name := "adds"; category := "basic"; chapter := "Counter"; description := [] |} ] ∧
  room_for (World ∅ {[ (false, [lit "docs"]) ]} [])
    [] (map (chapterPath (false, [lit "docs"]))
            (first_seen (map chapter
               [ {| name := "adds"; category := "basic"; chapter := "Counter";
                    description := [] |} ]))) = true ∧
  is_Some (files (generateMarkdown
                    [ {| name := "adds"; category := "basic"; chapter := "Counter";
                         description := [] |} ]
                    (false, [lit "docs"]) (World ∅ {[ (false, [lit "docs"]) ]} [])).2
             !! (false, [lit "docs"; lit "counter.md"])).
Proof.
  assert (plain_records
            [ {| name := "adds"; category := "basic"; chapter := "Counter";
                 description := [] |} ]) as H by (by repeat constructor).
  assert (ascii_chapters
            [ {| name := "adds"; category := "basic"; chapter := "Counter";
                 description := [] |} ]) as Hascii by (by repeat constructor).
  assert (room_for (World ∅ {[ (false, [lit "docs"]) ]} [])
    [] (map (chapterPath (false, [lit "docs"]))
            (first_seen (map chapter
               [ {| name := "adds"; category := "basic"; chapter := "Counter";
                    description := [] |} ]))) = true) as Hroom.
  { apply room_for_intro; [vm_compute; reflexivity|by intros d q ?%elem_of_nil|].
    intros p Hp. change p with (id p). revert Hp.
    assert (map (chapterPath (false, [lit "docs"]))
              (first_seen (map chapter
                 [ {| name := "adds"; category := "basic"; chapter := "Counter";
                      description := [] |} ]))
            = [(false, [lit "docs"; lit "counter.md"])]) as -> by (vm_compute; reflexivity).
    intros ->%list_elem_of_singleton. cbn [dirs id].
    split; [by intros [=]%elem_of_singleton|]. split; [by intros d ?%elem_of_nil|].
    left. by apply elem_of_singleton. }
  split; [exact H|]. split; [exact Hascii|]. split; [exact Hroom|].
  destruct (generateMarkdown_chapters _ (false, [lit "docs"])
              (World ∅ {[ (false, [lit "docs"]) ]} []) H Hascii Hroom)
    as (_ & -> & _).
  change (first_seen _) with [lit "Counter"]. cbn [written fold_left].
  change (chapterPath (false, [lit "docs"]) (lit "Counter"))
    with (false, [lit "docs"; lit "counter.md"]).
  rewrite lookup_insert_eq. by eexists.
Defined.

(** X7.  The text of a chapter file, for records with plain chapters and
    categories: the heading of the chapter, then one
    section for each distinct category of its records, in the order in which
    the categories first appear, with the records of that category in their
    order.  So every record of the chapter is in the text, under the heading
    of its category. *)
Theorem chapterContent_sections (chapter_ : str) (items : list DocMetadata) :
  plain_records items →
  let entry (item : DocMetadata) : str :=
    ("### " +++ name item +++ [nl; nl]) ++
    (if bool_decide (description item = []) then [] else description item ++ [nl; nl]) ++
    ("---" +++ [nl; nl]) in
  let section (cat : str) : str :=
    ("## " +++ cat +++ [nl; nl]) ++ flat_map entry (with_key category cat items) in
  chapterContent chapter_ items
  = ("# " +++ chapter_ +++ " Examples" +++ [nl; nl]) ++
    flat_map section (first_seen (map category items)) ∧
  List.NoDup (first_seen (map category items)) ∧
  (∀ item, In item items →
     In (category item) (first_seen (map category items)) ∧
     includes (chapterContent chapter_ items) (section (category item)) = true ∧
     includes (section (category item)) (entry item) = true ∧
     includes (chapterContent chapter_ items) ("### " +++ name item +++ [nl; nl]) = true).
Proof.
  intros _. cbv zeta.
  assert (chapterContent chapter_ items
          = ("# " +++ chapter_ +++ " Examples" +++ [nl; nl]) ++
            flat_map (λ cat,
              ("## " +++ cat +++ [nl; nl]) ++
              flat_map (λ item,
                ("### " +++ name item +++ [nl; nl]) ++
                (if bool_decide (description item = []) then []
                 else description item ++ [nl; nl]) ++
                ("---" +++ [nl; nl])) (with_key category cat items))
              (first_seen (map category items))) as E.
  { unfold chapterContent. rewrite group_by_first_seen. f_equal.
    rewrite !flat_map_concat_map, map_map. done. }
  split; [exact E|]. split; [apply first_seen_NoDup|].
  intros item Hitem.
  assert (In (category item) (first_seen (map category items))) as Hcat
    by (apply first_seen_In, in_map_iff; eauto).
  split; [done|].
  match goal with
  | |- includes _ ?sec = true ∧ includes _ ?ent = true ∧ _ =>
      assert (includes (chapterContent chapter_ items) sec = true) as Hsec;
      [|assert (includes sec ent = true) as Hent]
  end.
  - rewrite E. apply includes_app_r.
    rewrite <- (app_nil_r (flat_map _ (first_seen _))).
    by apply (includes_flat_map
      (λ cat, ("## " +++ cat +++ [nl; nl]) ++
              flat_map (λ item,
                ("### " +++ name item +++ [nl; nl]) ++
                (if bool_decide (description item = []) then []
                 else description item ++ [nl; nl]) ++
                ("---" +++ [nl; nl])) (with_key category cat items)) _ _ []).
  - apply includes_app_r. rewrite <- (app_nil_r (flat_map _ (with_key _ _ _))).
    by apply (includes_flat_map
      (λ item, ("### " +++ name item +++ [nl; nl]) ++
               (if bool_decide (description item = []) then []
                else description item ++ [nl; nl]) ++
               ("---" +++ [nl; nl])) _ _ []), with_key_In.
  - split; [done|]. split; [done|].
    eapply includes_trans; [exact Hsec|]. eapply includes_trans; [exact Hent|].
    apply includes_true. by eexists [], _.
Qed.

Lemma chapterContent_sections_witness :
  In {| name := "adds"; category := "basic"; chapter := "Counter"; description := [] |}
     [ {| name := "adds"; category := "basic"; chapter := "Counter"; description := [] |};
       {| name := "denies"; category := "access"; chapter := "Counter";
          description := "Only the owner may read" |} ] ∧
  includes
    (chapterContent "Counter"
       [ {| name := "adds"; category := "basic"; chapter := "Counter"; description := [] |};
         {| name := "denies"; category := "access"; chapter := "Counter";
            description := "Only the owner may read" |} ])
    ("### " +++ lit "adds" +++ [nl; nl]) = true.
Proof.
  split; [by left|].
  pose proof (chapterContent_sections "Counter"
    [ {| name := "adds"; category := "basic"; chapter := "Counter"; description := [] |};
      {| name := "denies"; category := "access"; chapter := "Counter";
         description := "Only the owner may read" |} ]
    ltac:(by repeat constructor)) as H.
  cbv zeta in H. destruct H as (_ & _ & H).
  apply (H {| name := "adds"; category := "basic"; chapter := "Counter";
              description := [] |}).
  by left.
Defined.

(** ** Where the records come from *)

Lemma split_head sep s w ws : split sep s = w :: ws → ∃ post, s = w ++ post.
Proof.
  revert w ws. induction s as [|c s IH]; intros w ws; cbn [split].
  - intros [= <- _]. by exists [].
  - destruct (decide (c = sep)) as [->|Hne].
    + intros [= <- _]. by exists (sep :: s).
    + destruct (split sep s) as [|w' ws'] eqn:E.
      * intros [= <- _]. by destruct (split_not_nil sep s).
      * intros [= <- _]. destruct (IH w' ws' eq_refl) as [post ->]. by exists post.
Qed.

(** A line of a text is a part of the text. *)
Lemma split_In_infix sep s line :
  In line (split sep s) → ∃ pre post, s = pre ++ line ++ post.
Proof.
  revert line. induction s as [|c s IH]; intros line; cbn [split].
  - intros [<-|[]]. by exists [], [].
  - destruct (decide (c = sep)) as [->|Hne].
    + intros [<-|(pre & post & ->)%IH]; [by exists [], (sep :: s)|].
      by exists (sep :: pre), post.
    + destruct (split sep s) as [|w ws] eqn:E; [by destruct (split_not_nil sep s)|].
      intros [<-|Hin].
      * destruct (split_head _ _ _ _ E) as [post ->]. by exists [], post.
      * destruct (IH line) as (pre & post & ->); [by right|]. by exists (c :: pre), post.
Qed.

Lemma includes_line sep s line sub :
  In line (split sep s) → includes line sub = true → includes s sub = true.
Proof.
  intros (pre & post & ->)%split_In_infix (pre' & post' & ->)%includes_true.
  apply includes_true. exists (pre ++ pre'), (post' ++ post). by rewrite <- !app_assoc.
Qed.

Lemma includes_lines sep s sub :
  includes s sub = false → Forall (λ l, includes l sub = false) (split sep s).
Proof.
  intros H. apply Forall_forall. intros line Hline%list_elem_of_In.
  destruct (includes line sub) eqn:E; [|done].
  by rewrite (includes_line _ _ _ _ Hline E) in H.
Qed.

Lemma testDoc_length block line : List.length (testDoc block line) ≤ 1.
Proof.
  unfold testDoc. destruct line as [line|]; [|simpl; lia].
  destruct (_ && _); [|simpl; lia].
  destruct (search testNameRegex line); simpl; lia.
Qed.

Lemma scanLines_length st lines :
  List.length (scanLines st lines)
  ≤ List.length (List.filter (λ l, includes l "*/") lines).
Proof.
  revert st. induction lines as [|l lines IH]; intros st; [done|].
  cbn [scanLines List.filter].
  destruct st as [blk|].
  - destruct (includes l "*/"); [|apply IH].
    rewrite length_app. cbn [List.length].
    pose proof (testDoc_length (blk ++ l) (head lines)). pose proof (IH None). lia.
  - destruct (includes l "/**").
    + destruct (includes l "*/"); [|apply IH].
      rewrite length_app. cbn [List.length].
      pose proof (testDoc_length l (head lines)). pose proof (IH None). lia.
    + pose proof (IH None). destruct (includes l "*/"); cbn [List.length]; lia.
Qed.

(** A record of the scan comes from a block and a line of the input. *)
Lemma scanLines_origin st lines record :
  In record (scanLines st lines) →
  ∃ block line, In line lines ∧ In record (testDoc block (Some line)).
Proof.
  revert st. induction lines as [|l rest IH]; intros st; [done|].
  assert (∀ block, In record (testDoc block (head rest)) →
          ∃ block line, In line (l :: rest) ∧ In record (testDoc block (Some line)))
    as Hdoc.
  { intros block. destruct rest as [|line ?]; [done|]. cbn [head].
    exists block, line. split; [right; by left|done]. }
  assert (∀ st, In record (scanLines st rest) →
          ∃ block line, In line (l :: rest) ∧ In record (testDoc block (Some line)))
    as Hrest.
  { intros st' (block & line & ? & ?)%IH. exists block, line. split; [by right|done]. }
  cbn [scanLines]. destruct st as [blk|].
  - destruct (includes l "*/"); [|by apply Hrest].
    intros [H|H]%in_app_or; [by eapply Hdoc|by eapply Hrest].
  - destruct (includes l "/**"); [|by apply Hrest].
    destruct (includes l "*/"); [|by apply Hrest].
    intros [H|H]%in_app_or; [by eapply Hdoc|by eapply Hrest].
Qed.

(** X8.  The records of a test file.  A text without the comment opener, or
    without the comment closer, or without the call opener of a test
    declaration, yields no record.  There are at most as many records as
    lines with the comment closer.  The title of every record is the quoted
    text of a test declaration on one of the lines: it is not empty, it
    holds no double quote and no line feed, and it stands in the file
    between the call opener and a double quote. *)
Theorem extractTestDocs_records (content : str) :
  (includes content "/**" = false ∨ includes content "*/" = false ∨
   includes content ("it(" +++ dq) = false →
   extractTestDocs content = []) ∧
  List.length (extractTestDocs content)
  ≤ List.length (List.filter (λ l, includes l "*/") (split nl content)) ∧
  (∀ record, In record (extractTestDocs content) →
     name record ≠ [] ∧
     all_chars (not_char "034"%char) (name record) ∧
     Forall (λ c, c ≠ nl) (name record) ∧
     (∃ line pre post,
        In line (split nl content) ∧
        line = pre ++ ("it(" +++ dq) ++ name record ++ dq ++ post) ∧
     includes content (("it(" +++ dq) ++ name record ++ dq) = true).
Proof.
  assert (∀ record, In record (extractTestDocs content) →
          ∃ line pre post,
            In line (split nl content) ∧
            line = pre ++ ("it(" +++ dq) ++ name record ++ dq ++ post ∧
            name record ≠ [] ∧ all_chars (not_char "034"%char) (name record)) as Horigin.
  { intros record (block & line & Hline & Hdoc)%scanLines_origin.
    unfold testDoc in Hdoc. destruct (_ && _); [|done].
    destruct (search testNameRegex line) as [[c' s']|] eqn:E; [|done].
    destruct Hdoc as [<-|[]]. cbn [name fst].
    apply search_Some_matches in E as (pre & t & -> & H).
    apply matches_testNameRegex in H as (title & -> & Htitle & Hall & ->).
    exists (pre ++ ("it(" +++ dq) ++ title ++ dq ++ s'), pre, s'.
    split; [done|]. split; [done|]. done. }
  split; [|split; [apply scanLines_length|]].
  - intros [H|[H|H]].
    + unfold extractTestDocs.
      rewrite <- (app_nil_r (split nl content)). rewrite scanLines_skip; [done|].
      by apply includes_lines.
    + apply scanLines_no_closer. by apply includes_lines.
    + destruct (extractTestDocs content) as [|record records] eqn:E; [done|].
      destruct (Horigin record) as (line & pre & post & Hline & -> & _);
        [first [by left|rewrite E; by left]|].
      rewrite (includes_line nl content _ ("it(" +++ dq) Hline) in H; [done|].
      apply includes_true. by exists pre, (name record ++ dq ++ post).
  - intros record (line & pre & post & Hline & -> & Hne & Hall)%Horigin.
    split; [done|]. split; [done|]. split; [|split].
    + pose proof (split_Forall nl content) as Hlines.
      rewrite Forall_forall in Hlines. specialize (Hlines _ (proj2 (list_elem_of_In _ _) Hline)).
      rewrite !Forall_app in Hlines. tauto.
    + by exists (pre ++ ("it(" +++ dq) ++ name record ++ dq ++ post), pre, post.
    + eapply includes_line; [exact Hline|]. apply includes_true.
      exists pre, post. by rewrite <- !app_assoc.
Qed.

Lemma extractTestDocs_records_witness :
  (includes (lit "describe('suite', () => {});") "/**" = false ∨
   includes (lit "describe('suite', () => {});") "*/" = false ∨
   includes (lit "describe('suite', () => {});") ("it(" +++ dq) = false) ∧
  extractTestDocs (lit "describe('suite', () => {});") = [].
Proof.
  assert (includes (lit "describe('suite', () => {});") "/**" = false) as H by reflexivity.
  split; [by left|].
  apply (extractTestDocs_records (lit "describe('suite', () => {});")). by left.
Defined.





(** ** The file name of a chapter *)

Lemma lower_char_not_upper c : is_upper (lower_char c) = false.
Proof. destruct c as [[] [] [] [] [] [] [] []]; reflexivity. Qed.

Lemma lower_char_upper_char c : lower_char (upper_char c) = lower_char c.
Proof. destruct c as [[] [] [] [] [] [] [] []]; reflexivity. Qed.

Lemma lower_char_idem c : lower_char (lower_char c) = lower_char c.
Proof. destruct c as [[] [] [] [] [] [] [] []]; reflexivity. Qed.

Lemma lower_char_space c : is_space (lower_char c) = is_space c.
Proof. destruct c as [[] [] [] [] [] [] [] []]; reflexivity. Qed.

Lemma lower_char_fixed c : is_upper c = false → lower_char c = c.
Proof. unfold lower_char. by intros ->. Qed.

(** What replacing the runs of white space leaves: hyphens, and characters
    of the input that are not white space. *)
Lemma replace_spaces_chars skip s :
  Forall (λ c, is_space c = false ∧ (c = "-"%char ∨ In c s))
         (replace_all_from (Plus true is_space) "-" skip s).
Proof.
  revert skip. induction s as [|x s IH]; intros skip.
  - destruct skip; constructor.
  - assert (∀ k, Forall (λ c, is_space c = false ∧ (c = "-"%char ∨ In c (x :: s)))
                        (replace_all_from (Plus true is_space) "-" k s)) as IH'.
    { intros k. eapply Forall_impl; [apply IH|]. intros c [? [?|?]]; split; auto.
      right. by right. }
    destruct skip as [|k]; cbn [replace_all_from]; [|apply IH'].
    destruct (run (Plus true is_space) (x :: s) []) as [|[s' c'] l] eqn:E.
    + constructor; [|apply IH']. apply run_Plus_nil in E. split; [done|]. right. by left.
    + constructor; [|apply IH']. split; [done|by left].
Qed.

Lemma replace_spaces_none s :
  Forall (λ c, is_space c = false) s → replace_all (Plus true is_space) "-" s = s.
Proof.
  unfold replace_all. induction 1 as [|x s Hx _ IH]; [done|].
  cbn [replace_all_from]. rewrite (proj2 (run_Plus_nil is_space x s) Hx). by rewrite IH.
Qed.

Lemma toLowerCase_fixed s : Forall (λ c, is_upper c = false) s → toLowerCase s = s.
Proof.
  unfold toLowerCase. induction 1 as [|x s Hx _ IH]; [done|].
  cbn [map]. by rewrite lower_char_fixed, IH.
Qed.

Lemma lower_char_slash c : lower_char c = "/"%char → c = "/"%char.
Proof. destruct c as [[] [] [] [] [] [] [] []]; vm_compute; congruence. Qed.

Lemma lower_char_ascii c :
  (nat_of_ascii c <? 128) = true → (nat_of_ascii (lower_char c) <? 128) = true.
Proof. destruct c as [[] [] [] [] [] [] [] []]; vm_compute; congruence. Qed.

(** X11.  The file name of a chapter that is a 7-bit text.  It is a 7-bit
    text that holds no white space and no upper-case letter, and naming is
    stable: the name of a name is that name.  It does not depend on the
    letter case of the chapter, so two chapters that differ only in case are
    written to the same file.  For a chapter without white space it is the
    chapter in lower case.  For a chapter without a slash the file lies
    directly in the output directory. *)
Theorem chapterFilename_spec (chapter_ : str) :
  ascii_text chapter_ = true →
  ascii_text (chapterFilename chapter_) = true ∧
  Forall (λ c, is_space c = false ∧ is_upper c = false) (chapterFilename chapter_) ∧
  chapterFilename (chapterFilename chapter_) = chapterFilename chapter_ ∧
  chapterFilename (toUpperCase chapter_) = chapterFilename chapter_ ∧
  chapterFilename (toLowerCase chapter_) = chapterFilename chapter_ ∧
  (∀ outputPath, chapterPath outputPath (toUpperCase chapter_)
                 = chapterPath outputPath chapter_) ∧
  (Forall (λ c, is_space c = false) chapter_ →
   chapterFilename chapter_ = toLowerCase chapter_) ∧
  (Forall (λ c, c ≠ "/"%char) chapter_ →
   ∀ outputPath, chapterPath outputPath chapter_
                 = (outputPath.1, outputPath.2 ++ [chapterFilename chapter_ +++ ".md"])).
Proof.
  intros Hascii.
  assert (Forall (λ c, is_space c = false ∧ is_upper c = false)
                 (chapterFilename chapter_)) as Hchars.
  { unfold chapterFilename, replace_all.
    eapply Forall_impl; [apply replace_spaces_chars|].
    intros c [Hc [->|Hin]]; [done|]. split; [done|].
    unfold toLowerCase in Hin. apply in_map_iff in Hin as (c0 & <- & _).
    apply lower_char_not_upper. }
  assert (chapterFilename (toUpperCase chapter_) = chapterFilename chapter_) as Hupper.
  { unfold chapterFilename, toLowerCase, toUpperCase. rewrite map_map.
    f_equal. apply map_ext. intros c. apply lower_char_upper_char. }
  split.
  { unfold ascii_text in *. rewrite forallb_forall in Hascii. apply forallb_forall.
    intros c Hc. unfold chapterFilename, replace_all in Hc.
    pose proof (replace_spaces_chars 0 (toLowerCase chapter_)) as Hfrom.
    rewrite Forall_forall in Hfrom.
    destruct (Hfrom c ltac:(by apply list_elem_of_In)) as [_ [->|Hin]]; [done|].
    unfold toLowerCase in Hin. apply in_map_iff in Hin as (c0 & <- & Hc0).
    by apply lower_char_ascii, Hascii. }
  split; [done|]. split; [|split; [done|split; [|split; [|split]]]].
  - unfold chapterFilename at 1.
    rewrite toLowerCase_fixed by (eapply Forall_impl; [exact Hchars|]; by intros c [_ ?]).
    apply replace_spaces_none. eapply Forall_impl; [exact Hchars|]. by intros c [? _].
  - unfold chapterFilename, toLowerCase. rewrite map_map.
    f_equal. apply map_ext. intros c. apply lower_char_idem.
  - intros outputPath. unfold chapterPath. by rewrite Hupper.
  - intros Hplain. unfold chapterFilename. apply replace_spaces_none.
    unfold toLowerCase. apply Forall_map. eapply Forall_impl; [exact Hplain|].
    intros c Hc. cbn. by rewrite lower_char_space.
  - intros Hslash outputPath. unfold chapterPath. apply path_join_plain.
    assert (Forall (λ c, c ≠ "/"%char) (chapterFilename chapter_)) as Hname.
    { unfold chapterFilename, replace_all.
      eapply Forall_impl; [apply replace_spaces_chars|].
      intros c [_ [->|Hin]]; [done|].
      unfold toLowerCase in Hin. apply in_map_iff in Hin as (c0 & <- & Hc0).
      intros E%lower_char_slash. rewrite Forall_forall in Hslash.
      by apply (Hslash c0); [apply list_elem_of_In|]. }
    unfold plain_segment. rewrite !andb_true_iff, !negb_true_iff, !bool_decide_eq_false.
    split; [split; [split|]|].
    + apply forallb_forall. intros c [Hc|Hc]%in_app_or.
      * rewrite Forall_forall in Hname. apply negb_true_iff, bool_decide_eq_false.
        by apply Hname, list_elem_of_In.
      * cbn in Hc. by destruct Hc as [<-|[<-|[<-|[]]]].
    + by destruct (chapterFilename chapter_).
    + by destruct (chapterFilename chapter_) as [|? [|? ?]].
    + by destruct (chapterFilename chapter_) as [|? [|? [|? ?]]].
Qed.

Lemma chapterFilename_spec_witness :
  ascii_text (lit "API Reference") = true ∧
  chapterFilename (toUpperCase (lit "API Reference")) = chapterFilename (lit "API Reference") ∧
  Forall (λ c, is_space c = false ∧ is_upper c = false)
         (chapterFilename (lit "API Reference")).
Proof.
  split; [reflexivity|].
  destruct (chapterFilename_spec (lit "API Reference") eq_refl)
    as (_ & Hchars & _ & Hupper & _).
  split; [exact Hupper|exact Hchars].
Defined.

(** ** A documentation run, as a whole *)

Lemma written_app {A} (pathOf : A → path) (textOf : A → str) (xs ys : list A) fs :
  written pathOf textOf (xs ++ ys) fs
  = written pathOf textOf ys (written pathOf textOf xs fs).
Proof. unfold written. apply fold_left_app. Qed.

Lemma written_is_Some {A} (pathOf : A → path) (textOf : A → str) (xs : list A) fs p :
  is_Some (fs !! p) → is_Some (written pathOf textOf xs fs !! p).
Proof. intros H. rewrite written_lookup. by destruct (last _). Qed.

(** The loops over the two directories read the files with the suffixes
    only. *)
Lemma processTests_test_files listing : processTests (test_files listing) = processTests listing.
Proof.
  unfold processTests, test_files. induction listing as [|[file content] listing IH]; [done|].
  cbn [List.filter flat_map fst snd].
  destruct (endsWith file ".test.ts" || endsWith file ".spec.ts") eqn:E; [|done].
  cbn [flat_map fst snd]. by rewrite E, IH.
Qed.

Lemma processContracts_contract_files docsDir listing :
  processContracts docsDir (contract_files listing) = processContracts docsDir listing.
Proof.
  unfold contract_files. induction listing as [|[file content] listing IH]; [done|].
  cbn [List.filter processContracts fst snd].
  destruct (endsWith file ".sol") eqn:E; [|done].
  cbn [processContracts]. by rewrite E, IH.
Qed.

Lemma contract_files_idem listing : contract_files (contract_files listing) = contract_files listing.
Proof.
  unfold contract_files. induction listing as [|[file content] listing IH]; [done|].
  cbn [List.filter fst]. destruct (endsWith file ".sol") eqn:E; [|done].
  cbn [List.filter fst]. by rewrite E, IH.
Qed.

(** A complete run of [generateDocumentation]. *)
Lemma generateDocumentation_result (cwd : path)
    (testDir contractDir : option (list (str * str))) (w : world) :
  let docsDir := path_join cwd "docs" in
  let writes := documentation_writes docsDir testDir (listed contractDir) in
  ∃ D : gset path,
    generateDocumentation cwd testDir contractDir w
    = (Done (),
       World (written fst snd writes (files w)) D
             (console w ++
              map (λ entry : path * str, (Stdout, "Generated: " +++ path_to_string entry.1))
                  writes ++
              [(Stdout, "Documentation generated in: " +++ path_to_string docsDir)])) ∧
    dirs w ⊆ D ∧
    (docsDir ∈ D ∨ is_Some (files w !! docsDir)) ∧
    (∀ q, q ∈ D → q ∈ dirs w ∨ q ∈ ancestors docsDir) ∧
    (docsDir ∈ dirs w ∨ is_Some (files w !! docsDir) → D = dirs w).
Proof.
  cbv zeta. unfold generateDocumentation. cbv zeta.
  set (docsDir := path_join cwd "docs").
  assert ((match contractDir with
           | Some listing => processContracts docsDir listing
           | None => mret []
           end) = processContracts docsDir (listed contractDir)) as -> by by destruct contractDir.
  match goal with
  | |- context [(_ ← existsSync ?P; _ ;; ?K) w] =>
      destruct (ensure_directory_then P K w) as (D & E & Hsub & Hdir & Hnew & Hsame)
  end.
  exists D. split; [|done].
  rewrite E.
    rewrite (bind_Done _ _ _ _ _ (processContracts_run docsDir (listed contractDir) _)).
    cbn [files dirs console].
    fold (collected_docs testDir (listed contractDir)).
    set (docs := collected_docs testDir (listed contractDir)).
    assert (∀ w', (if bool_decide (0 < List.length docs)
                   then generateMarkdown docs docsDir else mret ()) w'
                  = generateMarkdown docs docsDir w') as Hmd.
    { intros w'. destruct docs as [|d docs']; [|done].
      rewrite generateMarkdown_run. destruct w'. cbn. by rewrite app_nil_r. }
    rewrite (bind_Done _ _ _ _ _ (eq_trans (Hmd _) (generateMarkdown_run docs docsDir _))).
    cbn [files dirs console console_log].
    unfold documentation_writes. cbv zeta. fold docs.
    rewrite group_by_first_seen, written_app, !written_map, !map_app, !map_map.
    unfold console_log. cbn [fst snd files dirs console]. by rewrite <- !app_assoc.
Qed.

(** X12.  What [generateDocumentation] reads.  A directory that does not exist
    counts as an empty one, and in a directory only the files with the
    suffixes [.test.ts] and [.spec.ts], respectively [.sol], matter: the
    run is the same as on those files alone. *)
Theorem generateDocumentation_reads (cwd : path)
    (testDir contractDir : option (list (str * str))) (w : world) :
  generateDocumentation cwd testDir contractDir w
  = generateDocumentation cwd (Some (test_files (listed testDir)))
                          (Some (contract_files (listed contractDir))) w ∧
  generateDocumentation cwd None contractDir w
  = generateDocumentation cwd (Some []) contractDir w ∧
  generateDocumentation cwd testDir None w
  = generateDocumentation cwd testDir (Some []) w.
Proof.
  split; [|done].
  unfold generateDocumentation. cbv zeta.
  rewrite processTests_test_files, processContracts_contract_files.
  by destruct testDir, contractDir.
Qed.

Lemma documentation_writes_paths docsDir testDir listing entry :
  In entry (documentation_writes docsDir testDir listing) →
  (entry.1 = path_join docsDir "api-reference.md" ∧ contract_files listing ≠ []) ∨
  ∃ doc, In doc (collected_docs testDir listing) ∧
         entry.1 = chapterPath docsDir (chapter doc).
Proof.
  unfold documentation_writes. cbv zeta.
  intros [(file & <- & Hfile)%in_map_iff|(ch & <- & Hch)%in_map_iff]%in_app_or.
  - left. split; [done|]. by destruct (contract_files listing).
  - right. apply first_seen_In, in_map_iff in Hch as (doc & <- & Hdoc). by exists doc.
Qed.

(** What an ordinary run leaves: the directory [docs], and room for the
    same run again. *)
Lemma ordinary_run_after (cwd : path) (testDir contractDir : option (list (str * str)))
    (w : world) (D : gset path) (out : list (stream * str)) :
  let docsDir := path_join cwd "docs" in
  let writes := documentation_writes docsDir testDir (listed contractDir) in
  ordinary_run w cwd testDir contractDir →
  dirs w ⊆ D →
  (docsDir ∈ D ∨ is_Some (files w !! docsDir)) →
  (∀ q, q ∈ D → q ∈ dirs w ∨ q ∈ ancestors docsDir) →
  docsDir ∈ D ∧
  ordinary_run (World (written fst snd writes (files w)) D out) cwd testDir contractDir.
Proof.
  cbv zeta. intros (Htests & Hcontracts & Hplain & Hroom) Hsub Hdir Hnew.
  unfold documentation_room in Hroom. cbv zeta in Hroom. split.
  - destruct Hdir as [?|Hfile]; [done|].
    apply room_for_spec in Hroom as [Hfree _].
    rewrite (Hfree (path_join cwd "docs")) in Hfile;
      [by destruct Hfile|apply list_elem_of_here|apply ancestors_self].
  - split; [done|]. split; [done|]. split; [done|].
    unfold documentation_room. cbv zeta.
    apply (room_for_after w); [done| |done|].
    + intros q Hq. apply written_other. intros entry Hentry <-. apply Hq.
      apply list_elem_of_fmap. exists entry. split; [done|by apply list_elem_of_In].
    + intros q [?|?]%Hnew; [by left|right]. eexists. split; [apply list_elem_of_here|done].
Qed.

(** X13.  What an ordinary run of [generateDocumentation] changes.  The run
    completes.  The directory [docs] exists afterwards, what existed still
    exists, and a new directory is [docs] or an ancestor of it.  The files
    written are the API reference, if there is a contract file, and one file
    for each chapter of the collected records; every other file is as
    before, so with no contract file and no record no file changes.  Each
    write is reported on standard output, in order, and the last line
    printed names the directory.  The same run is ordinary in the world it
    leaves. *)
Theorem generateDocumentation_frame (cwd : path)
    (testDir contractDir : option (list (str * str))) (w : world) :
  let docsDir := path_join cwd "docs" in
  let apiPath := path_join docsDir "api-reference.md" in
  let docs := collected_docs testDir (listed contractDir) in
  let writes := documentation_writes docsDir testDir (listed contractDir) in
  let r := generateDocumentation cwd testDir contractDir w in
  ordinary_run w cwd testDir contractDir →
  r.1 = Done () ∧
  dirs w ⊆ dirs r.2 ∧
  docsDir ∈ dirs r.2 ∧
  (∀ q, q ∈ dirs r.2 → q ∈ dirs w ∨ q ∈ ancestors docsDir) ∧
  (contract_files (listed contractDir) ≠ [] → is_Some (files r.2 !! apiPath)) ∧
  (∀ doc, In doc docs → is_Some (files r.2 !! chapterPath docsDir (chapter doc))) ∧
  (∀ p, (p = apiPath → contract_files (listed contractDir) = []) →
        (∀ doc, In doc docs → chapterPath docsDir (chapter doc) ≠ p) →
        files r.2 !! p = files w !! p) ∧
  (contract_files (listed contractDir) = [] → docs = [] → files r.2 = files w) ∧
  console r.2
  = console w ++
    map (λ entry : path * str, (Stdout, "Generated: " +++ path_to_string entry.1)) writes ++
    [(Stdout, "Documentation generated in: " +++ path_to_string docsDir)] ∧
  ordinary_run r.2 cwd testDir contractDir.
Proof.
  cbv zeta. intros Hordinary.
  destruct (generateDocumentation_result cwd testDir contractDir w)
    as (D & -> & Hsub & Hdir & Hnew & _).
  destruct (ordinary_run_after cwd testDir contractDir w D
              (console w ++
               map (λ entry : path * str,
                      (Stdout, "Generated: " +++ path_to_string entry.1))
                   (documentation_writes (path_join cwd "docs") testDir (listed contractDir))
               ++ [(Stdout, "Documentation generated in: " +++
                             path_to_string (path_join cwd "docs"))])
              Hordinary Hsub Hdir Hnew) as [Hdocs Hafter].
  cbn [fst snd files dirs console].
  set (docsDir := path_join cwd "docs") in *.
  set (writes := documentation_writes docsDir testDir (listed contractDir)) in *.
  assert (∀ p, (∃ entry, In entry writes ∧ entry.1 = p) →
               is_Some (written fst snd writes (files w) !! p)) as Hwritten.
  { intros p (entry & Hentry & <-). rewrite written_lookup.
    destruct (last _) as [x|] eqn:E; [done|].
    apply last_None in E.
    assert (In entry (List.filter (λ x : path * str, bool_decide (x.1 = entry.1)) writes))
      as Hin by (apply filter_In; split; [done|by apply bool_decide_eq_true_2]).
    by rewrite E in Hin. }
  split; [done|]. split; [done|]. split; [done|]. split; [done|].
  split; [|split; [|split; [|split; [|done]]]].
  - intros Hfiles. apply Hwritten.
    destruct (contract_files (listed contractDir)) as [|file files] eqn:E; [done|].
    exists (path_join docsDir "api-reference.md", apiDoc file.2). split; [|done].
    unfold writes, documentation_writes. cbv zeta. rewrite E. by left.
  - intros doc Hdoc. apply Hwritten.
    eexists (chapterPath docsDir (chapter doc), _). split; [|done].
    unfold writes, documentation_writes. cbv zeta. apply in_or_app. right.
    apply in_map_iff. exists (chapter doc). split; [done|].
    apply first_seen_In, in_map_iff. by exists doc.
  - intros p Hapi Hchapters. apply written_other.
    intros entry [[E Hfiles]|(doc & Hdoc & E)]%documentation_writes_paths Hp.
    + apply Hfiles, Hapi. by rewrite <- Hp.
    + apply (Hchapters doc Hdoc). by rewrite <- E.
  - intros Hfiles Hnone. unfold writes, documentation_writes. cbv zeta.
    by rewrite Hfiles, Hnone.
Qed.

(** A repository with two contracts, the second with a doc comment. *)
Lemma ordinary_run_example :
  ordinary_run (World ∅ ∅ []) (true, [lit "repo"]) None
    (Some [(lit "Token.sol", lit "contract Token {}");
           (lit "Vault.sol",
            unlines [lit "/**"; lit " * @title Vault"; lit " * @chapter Vaults";
                     lit " */"; lit "contract Vault {}"])]).
Proof.
  split; [reflexivity|]. split; [vm_compute; reflexivity|]. split.
  - assert (collected_docs None
              (listed (Some [(lit "Token.sol", lit "contract Token {}");
                             (lit "Vault.sol",
                              unlines [lit "/**"; lit " * @title Vault";
                                       lit " * @chapter Vaults";
                                       lit " */"; lit "contract Vault {}"])]))
            = [ {| name := "Vault"; category := "general"; chapter := "Vaults";
                   description := [] |} ]) as -> by (vm_compute; reflexivity).
    by repeat constructor.
  - vm_compute. reflexivity.
Qed.

Lemma generateDocumentation_frame_witness :
  ordinary_run (World ∅ ∅ []) (true, [lit "repo"]) None
    (Some [(lit "Token.sol", lit "contract Token {}");
           (lit "Vault.sol",
            unlines [lit "/**"; lit " * @title Vault"; lit " * @chapter Vaults";
                     lit " */"; lit "contract Vault {}"])]) ∧
  is_Some (files (generateDocumentation (true, [lit "repo"]) None
                    (Some [(lit "Token.sol", lit "contract Token {}");
                           (lit "Vault.sol",
                            unlines [lit "/**"; lit " * @title Vault";
                                     lit " * @chapter Vaults";
                                     lit " */"; lit "contract Vault {}"])])
                    (World ∅ ∅ [])).2
             !! (true, [lit "repo"; lit "docs"; lit "vaults.md"])) ∧
  (true, [lit "repo"; lit "docs"])
    ∈ dirs (generateDocumentation (true, [lit "repo"]) None
              (Some [(lit "Token.sol", lit "contract Token {}");
                     (lit "Vault.sol",
                      unlines [lit "/**"; lit " * @title Vault";
                               lit " * @chapter Vaults";
                               lit " */"; lit "contract Vault {}"])])
              (World ∅ ∅ [])).2.
Proof.
  split; [exact ordinary_run_example|].
  pose proof (generateDocumentation_frame (true, [lit "repo"]) None _ (World ∅ ∅ [])
                ordinary_run_example) as H.
  cbv zeta in H. destruct H as (_ & _ & Hdocs & _ & _ & Hchapters & _).
  split; [|exact Hdocs].
  apply (Hchapters {| name := "Vault"; category := "general"; chapter := "Vaults";
                      description := [] |}).
  vm_compute. by left.
Defined.

(** X14.  Running [generateDocumentation] a second time on the same inputs:
    when the first run is ordinary, so is the second, which completes and
    leaves every file and every directory as the first run left them. *)
Theorem generateDocumentation_twice (cwd : path)
    (testDir contractDir : option (list (str * str))) (w : world) :
  ordinary_run w cwd testDir contractDir →
  let once := generateDocumentation cwd testDir contractDir w in
  let twice := generateDocumentation cwd testDir contractDir once.2 in
  once.1 = Done () ∧
  ordinary_run once.2 cwd testDir contractDir ∧
  twice.1 = Done () ∧ files twice.2 = files once.2 ∧ dirs twice.2 = dirs once.2.
Proof.
  intros Hordinary. cbv zeta.
  destruct (generateDocumentation_result cwd testDir contractDir w)
    as (D & -> & Hsub & Hdir & Hnew & _).
  cbn [fst snd]. split; [done|]. split.
  { by apply ordinary_run_after. }
  match goal with
  | |- context [generateDocumentation cwd testDir contractDir ?W] =>
      destruct (generateDocumentation_result cwd testDir contractDir W)
        as (D' & -> & _ & _ & _ & Hsame)
  end.
  cbn [fst snd files dirs] in *.
  split; [done|]. split; [apply written_again|].
  apply Hsame. destruct Hdir as [?|?]; [by left|right]. by apply written_is_Some.
Qed.

Lemma generateDocumentation_twice_witness :
  ordinary_run (World ∅ ∅ []) (true, [lit "repo"]) None
    (Some [(lit "Token.sol", lit "contract Token {}");
           (lit "Vault.sol",
            unlines [lit "/**"; lit " * @title Vault"; lit " * @chapter Vaults";
                     lit " */"; lit "contract Vault {}"])]) ∧
  (generateDocumentation (true, [lit "repo"]) None
     (Some [(lit "Token.sol", lit "contract Token {}");
            (lit "Vault.sol",
             unlines [lit "/**"; lit " * @title Vault"; lit " * @chapter Vaults";
                      lit " */"; lit "contract Vault {}"])])
     (generateDocumentation (true, [lit "repo"]) None
        (Some [(lit "Token.sol", lit "contract Token {}");
               (lit "Vault.sol",
                unlines [lit "/**"; lit " * @title Vault"; lit " * @chapter Vaults";
                         lit " */"; lit "contract Vault {}"])])
        (World ∅ ∅ [])).2).1 = Done ().
Proof.
  split; [exact ordinary_run_example|].
  apply (generateDocumentation_twice (true, [lit "repo"]) None _ (World ∅ ∅ [])
           ordinary_run_example).
Defined.

(** *** The surviving API reference *)

(** C10, as stated, fails: [generateMarkdown] runs after the API references
    are written and names its files after the chapters, so a record whose
    chapter is [API Reference] puts the chapter file at the path of the API
    reference, and the file that survives is not the API reference of the
    last contract. *)
Lemma api_reference_replaced_by_chapter :
  ¬ (∀ cwd testDir listing w last_file,
       last (contract_files listing) = Some last_file →
       files (generateDocumentation cwd testDir (Some listing) w).2
         !! path_join (path_join cwd "docs") "api-reference.md"
       = Some (apiDoc last_file.2)).
Proof.
  intros H.
  set (token := lit "contract Token {}").
  set (vault := unlines [lit "/**"; lit " * @title Vault"; lit " * @chapter API Reference";
                         lit " */"; lit "contract Vault {}"]).
  specialize (H (true, [lit "repo"]) None
                [(lit "Token.sol", token); (lit "Vault.sol", vault)]
                (World ∅ ∅ []) (lit "Vault.sol", vault) eq_refl).
  destruct (generateDocumentation_run (true, [lit "repo"]) None
              [(lit "Token.sol", token); (lit "Vault.sol", vault)] (World ∅ ∅ []))
    as (D & out & E).
  rewrite E in H. cbn [snd files] in H.
  assert (group_by chapter (collected_docs None
            [(lit "Token.sol", token); (lit "Vault.sol", vault)])
          = [(lit "API Reference",
              [{| name := "Vault"; category := "general"; chapter := "API Reference";
                  description := [] |}])]) as Hgroups by (vm_compute; reflexivity).
  rewrite Hgroups in H. cbn [written fold_left fst snd] in H.
  assert (chapterPath (path_join (true, [lit "repo"]) "docs") "API Reference"
          = path_join (path_join (true, [lit "repo"]) "docs") "api-reference.md") as Hpath
    by (vm_compute; reflexivity).
  rewrite Hpath, lookup_insert_eq in H. injection H as H.
  revert H. vm_compute. discriminate.
Qed.

(** C10, amended.  In an ordinary run, every API reference is written to the
    one path [docs/api-reference.md]: the loop over the contract directory
    writes and reports it once for each contract file, in listing order.
    So, unless a collected record has a chapter whose file is
    [api-reference.md], the file at that path after the run is the API
    reference of the last contract file of the listing; the path is not one
    of a directory, and the directory [docs] exists. *)
Theorem generateDocumentation_api_reference (cwd : path)
    (testDir : option (list (str * str))) (listing : list (str * str))
    (w : world) (last_file : str * str) :
  let docsDir := path_join cwd "docs" in
  let apiPath := path_join docsDir "api-reference.md" in
  let r := generateDocumentation cwd testDir (Some listing) w in
  last (contract_files listing) = Some last_file →
  ordinary_run w cwd testDir (Some listing) →
  (∀ doc, In doc (collected_docs testDir listing) →
          chapterPath docsDir (chapter doc) ≠ apiPath) →
  (let loop := processContracts docsDir listing w in
   files loop.2
   = written (λ _, apiPath) (λ entry : str * str, apiDoc entry.2)
             (contract_files listing) (files w) ∧
   console loop.2
   = console w ++
     map (λ _, (Stdout, "Generated: " +++ path_to_string apiPath))
         (contract_files listing)) ∧
  r.1 = Done () ∧
  files r.2 !! apiPath = Some (apiDoc last_file.2) ∧
  (apiPath ∉ dirs r.2) ∧
  docsDir ∈ dirs r.2.
Proof.
  cbv zeta. intros Hlast Hordinary Hchapters. split.
  { by rewrite processContracts_run. }
  destruct (generateDocumentation_run cwd testDir listing w) as (D0 & out0 & E0).
  destruct (generateDocumentation_result cwd testDir (Some listing) w)
    as (D & E & Hsub & Hdir & Hnew & _).
  destruct (ordinary_run_after cwd testDir (Some listing) w D [] Hordinary Hsub Hdir Hnew)
    as [Hdocs _].
  destruct Hordinary as (_ & _ & _ & Hroom).
  unfold documentation_room in Hroom. cbv zeta in Hroom.
  apply room_for_spec in Hroom as [_ Htargets].
  rewrite E0 in E. injection E as _ <- _. rewrite E0.
  cbn [fst snd files dirs]. split; [done|]. split; [|split; [|done]].
  - rewrite written_other.
    + by apply (written_same _ (λ entry : str * str, apiDoc entry.2)).
    + intros [k vs] (doc & Hdoc & <-)%group_by_keys. by apply Hchapters.
  - destruct (Htargets (path_join (path_join cwd "docs") "api-reference.md"))
      as (Hdir' & Hasked & _).
    { apply list_elem_of_fmap.
      exists (path_join (path_join cwd "docs") "api-reference.md", apiDoc last_file.2).
      split; [done|]. apply list_elem_of_In.
      unfold documentation_writes. cbv zeta. apply in_or_app. left.
      apply in_map_iff. exists last_file. split; [done|].
      change (listed (Some listing)) with listing.
      apply last_Some in Hlast as [l' ->]. apply in_or_app. right. by left. }
    intros [?|Hanc]%Hnew; [done|].
    apply (Hasked (path_join cwd "docs")); [apply list_elem_of_here|done].
Qed.

Lemma generateDocumentation_api_reference_witness :
  last (contract_files [(lit "Token.sol", lit "contract Token {}");
                        (lit "Vault.sol",
                         unlines [lit "/**"; lit " * @title Vault"; lit " * @chapter Vaults";
                                  lit " */"; lit "contract Vault {}"])])
  = Some (lit "Vault.sol",
          unlines [lit "/**"; lit " * @title Vault"; lit " * @chapter Vaults";
                   lit " */"; lit "contract Vault {}"]) ∧
  files (generateDocumentation (true, [lit "repo"]) None
           (Some [(lit "Token.sol", lit "contract Token {}");
                  (lit "Vault.sol",
                   unlines [lit "/**"; lit " * @title Vault"; lit " * @chapter Vaults";
                            lit " */"; lit "contract Vault {}"])])
           (World ∅ ∅ [])).2
    !! path_join (path_join (true, [lit "repo"]) "docs") "api-reference.md"
  = Some (apiDoc (unlines [lit "/**"; lit " * @title Vault"; lit " * @chapter Vaults";
                           lit " */"; lit "contract Vault {}"])).
Proof.
  split; [reflexivity|].
  apply (generateDocumentation_api_reference (true, [lit "repo"]) None
           [(lit "Token.sol", lit "contract Token {}");
            (lit "Vault.sol",
             unlines [lit "/**"; lit " * @title Vault"; lit " * @chapter Vaults";
                      lit " */"; lit "contract Vault {}"])]
           (World ∅ ∅ [])
           (lit "Vault.sol",
            unlines [lit "/**"; lit " * @title Vault"; lit " * @chapter Vaults";
                     lit " */"; lit "contract Vault {}"])).
  - reflexivity.
  - exact ordinary_run_example.
  - intros doc Hdoc. vm_compute in Hdoc. destruct Hdoc as [<-|[]].
    vm_compute. discriminate.
Defined.

(** ** The texts of a generated project *)

Lemma includes_refl (s : str) : includes s s = true.
Proof. apply includes_true. exists [], []. by rewrite app_nil_r. Qed.

Lemma includes_app_l (s post sub : str) :
  includes s sub = true → includes (s ++ post) sub = true.
Proof.
  rewrite !includes_true. intros (pre & post' & ->).
  exists pre, (post' ++ post). by rewrite <- !app_assoc.
Qed.

(** A part of a joined text is in the text. *)
Lemma includes_join (sep : str) (parts : list str) (part : str) :
  In part parts → includes (join sep parts) part = true.
Proof.
  induction parts as [|w parts IH]; [done|].
  intros [->|Hin].
  - destruct parts; [apply includes_refl|]. apply includes_app_l, includes_refl.
  - destruct parts as [|w' parts']; [done|].
    change (join sep (w :: w' :: parts')) with (w ++ sep ++ join sep (w' :: parts')).
    do 2 apply includes_app_r. by apply IH.
Qed.

(** X15.  The README and the package description that [generateExample] writes:
    the README is headed by the name of the example, gives its description
    on a line of its own and lists every feature as a bullet; the package
    description carries the name [fhevm-example-<key>] and the description
    of the example. *)
Theorem generateExample_texts (key : str) (config : CreateExample.ExampleConfig) :
  (∃ rest, CreateExample.readmeContent config
           = ("# " +++ CreateExample.name config +++ [nl; nl]) ++
             (CreateExample.description config +++ [nl; nl]) ++
             ("## Features" +++ [nl; nl]) ++ rest) ∧
  (∀ feature, In feature (CreateExample.features config) →
     includes (CreateExample.readmeContent config) ("- " +++ feature) = true) ∧
  includes (JSON_stringify (CreateExample.packageJson key config))
    (json_quote "name" ++ lit ": " ++ json_quote ("fhevm-example-" +++ key)) = true ∧
  includes (JSON_stringify (CreateExample.packageJson key config))
    (json_quote "description" ++ lit ": " ++
     json_quote (CreateExample.description config)) = true.
Proof.
  split; [|split; [|split]].
  - unfold CreateExample.readmeContent, unlines. cbn [join blank app].
    eexists. rewrite <- !app_assoc. cbn [app]. reflexivity.
  - intros feature Hfeature. unfold CreateExample.readmeContent, unlines.
    eapply includes_trans.
    + apply includes_join. do 6 right. left. reflexivity.
    + apply includes_join. by apply (in_map (λ f, "- " +++ f)).
  - unfold JSON_stringify, CreateExample.packageJson.
    cbn [stringify map fst snd]. do 3 apply includes_app_r. apply includes_app_l.
    apply includes_join. left. reflexivity.
  - unfold JSON_stringify, CreateExample.packageJson.
    cbn [stringify map fst snd]. do 3 apply includes_app_r. apply includes_app_l.
    apply includes_join. do 2 right. left. reflexivity.
Qed.

Lemma generateExample_texts_witness :
  In (lit "addition") (CreateExample.features
        {| CreateExample.name := "Encrypted Counter";
           CreateExample.description :=
             "Basic FHE counter demonstrating simple encrypted arithmetic";
           CreateExample.category := "basic";
           CreateExample.features :=
             [lit "addition"; lit "subtraction"; lit "encryption"] |}) ∧
  includes (CreateExample.readmeContent
        {| CreateExample.name := "Encrypted Counter";
           CreateExample.description :=
             "Basic FHE counter demonstrating simple encrypted arithmetic";
           CreateExample.category := "basic";
           CreateExample.features :=
             [lit "addition"; lit "subtraction"; lit "encryption"] |})
    ("- " +++ lit "addition") = true.
Proof.
  split; [by left|].
  apply (generateExample_texts "encrypted-counter"). by left.
Defined.

Lemma catalog_project_docs :
  Forall (λ entry : str * CreateExample.ExampleConfig,
    let Name := convertToCamelCase entry.1 in
    let contractText :=
      CreateExample.generateContractTemplate
        (CreateExample.name entry.2) (CreateExample.category entry.2) in
    let testText := CreateExample.generateTestTemplate Name in
    endsWith (Name +++ ".sol") ".sol" = true ∧
    endsWith (Name +++ ".test.ts") ".test.ts" = true ∧
    contractName contractText = lit "showcases" ∧
    functionNames contractText
    = [lit "getEncryptedValue"; lit "setEncryptedValue"; lit "addToValue"] ∧
    extractSolidityDocs contractText
    = [ {| name := CreateExample.name entry.2;
           category := "general";
           chapter := "general";
           description := "Example demonstrating " +++ CreateExample.category entry.2 +++
                          " patterns with FHEVM" |} ] ∧
    extractTestDocs testText
    = [ {| name := "should deploy successfully"; category := "basic";
           chapter := "general"; description := [] |};
        {| name := "should get encrypted value"; category := "basic";
           chapter := "general"; description := [] |} ])
  CreateExample.EXAMPLE_CATEGORIES.
Proof. repeat constructor; vm_compute; reflexivity. Qed.

(** X16.  The documentation of a generated project.  For every catalog key, the
    two source files that [generateExample] writes carry the suffixes the
    documentation script reads, and what that script extracts from them is:
    from the contract, one record, with the name of the example as title,
    the [@notice] line as description, and the default category and chapter;
    from the test file, one record for each of its two test cases, with the
    category [basic] and the default chapter, the [@chapter] tag of the
    comment above [describe] going unused; for the API reference, the three
    functions of the template, under the contract name [showcases], the word
    after the first occurrence of [contract], which is in the [@dev] line of
    the comment. *)
Theorem generated_project_docs (key : str) (config : CreateExample.ExampleConfig) :
  table_get CreateExample.EXAMPLE_CATEGORIES key = Some config →
  let Name := convertToCamelCase key in
  let contractText :=
    CreateExample.generateContractTemplate
      (CreateExample.name config) (CreateExample.category config) in
  let testText := CreateExample.generateTestTemplate Name in
  endsWith (Name +++ ".sol") ".sol" = true ∧
  endsWith (Name +++ ".test.ts") ".test.ts" = true ∧
  contractName contractText = lit "showcases" ∧
  functionNames contractText
  = [lit "getEncryptedValue"; lit "setEncryptedValue"; lit "addToValue"] ∧
  extractSolidityDocs contractText
  = [ {| name := CreateExample.name config;
         category := "general";
         chapter := "general";
         description := "Example demonstrating " +++ CreateExample.category config +++
                        " patterns with FHEVM" |} ] ∧
  extractTestDocs testText
  = [ {| name := "should deploy successfully"; category := "basic";
         chapter := "general"; description := [] |};
      {| name := "should get encrypted value"; category := "basic";
         chapter := "general"; description := [] |} ].
Proof.
  intros Hkey. pose proof catalog_project_docs as Hdocs.
  rewrite Forall_forall in Hdocs. exact (Hdocs _ (table_get_In _ _ _ Hkey)).
Qed.

Lemma generated_project_docs_witness :
  table_get CreateExample.EXAMPLE_CATEGORIES (lit "public-decryption")
  = Some {| CreateExample.name := "Public Decryption";
            CreateExample.description := "Public decryption of encrypted contract results";
            CreateExample.category := "decryption";
            CreateExample.features := [lit "public-decrypt"; lit "result-publication"] |} ∧
  contractName (CreateExample.generateContractTemplate "Public Decryption" "decryption")
  = lit "showcases".
Proof.
  split; [reflexivity|].
  apply (generated_project_docs "public-decryption"
           {| CreateExample.name := "Public Decryption";
              CreateExample.description := "Public decryption of encrypted contract results";
              CreateExample.category := "decryption";
              CreateExample.features := [lit "public-decrypt"; lit "result-publication"] |}).
  reflexivity.
Defined.

(** ** Doc comments in a contract file *)

(** A lazy run of any characters, in a group and followed by a pattern:
    where the pattern matches at no earlier position, the first matches
    are those of the pattern after the whole of [body]. *)
Lemma run_lazy_group (R : regex) (body rest : str) (caps : captures) :
  (∀ u1 u2 c, body = u1 ++ u2 → u2 ≠ [] → run R (u2 ++ rest) c = []) →
  ∃ l, run (Seq (Group 1 (Star false any_char)) R) (body ++ rest) caps
       = run R rest ((1, body) :: caps) ++ l.
Proof.
  intros Hearly. cbn [run]. rewrite map_map. cbn [fst snd].
  assert (∀ pfx b,
    (∀ u1 u2 c, b = u1 ++ u2 → u2 ≠ [] → run R (u2 ++ rest) c = []) →
    ∃ l, flat_map (λ x : str * captures, run R x.1 x.2)
           (map (λ s', (s', (1, take (List.length (pfx ++ b ++ rest) - List.length s')
                                     (pfx ++ b ++ rest)) :: caps))
                (star_lazy any_char (b ++ rest)))
         = run R rest ((1, pfx ++ b) :: caps) ++ l) as H.
  { intros pfx b. revert pfx. induction b as [|x b IH]; intros pfx Hb.
    - cbn [app]. destruct rest as [|y rest'].
      + cbn [star_lazy map flat_map fst snd]. rewrite !app_nil_r.
        rewrite Nat.sub_0_r, firstn_all. exists []. by rewrite app_nil_r.
      + cbn [star_lazy map flat_map fst snd].
        rewrite app_nil_r, take_consumed. by eexists.
    - cbn [app star_lazy any_char map flat_map fst snd].
      rewrite (Hb [] (x :: b)) by done. cbn [app].
      destruct (IH (pfx ++ [x])) as [l E].
      { intros u1 u2 c -> Hu2. by apply (Hb (x :: u1) u2). }
      rewrite <- !app_assoc in E. cbn [app] in E. by exists l. }
  apply (H [] body Hearly).
Qed.

(** X17.  A doc comment directly before a declaration.  Take the first comment
    opener followed by a line feed in the text of a contract file, a comment
    body without the comment closer, and after the closer, white space only
    and then the keyword [contract] or [function].  What
    [extractSolidityDocs] produces are the records of that body, followed by
    what it produces for the text after the keyword. *)
Theorem extractSolidityDocs_comment (pre body ws keyword post : str) :
  includes pre ("/**" +++ [nl]) = false →
  includes body "*/" = false →
  all_chars is_space ws →
  keyword = lit "contract" ∨ keyword = lit "function" →
  extractSolidityDocs
    (pre ++ ("/**" +++ [nl]) ++ body ++ lit "*/" ++ ws ++ keyword ++ post)
  = solidityDoc body ++ extractSolidityDocs post.
Proof.
  intros Hpre Hbody Hws Hkeyword. unfold extractSolidityDocs.
  rewrite exec_all_skip.
  - assert (∃ l, run docRegex
                   (("/**" +++ [nl]) ++ body ++ lit "*/" ++ ws ++ keyword ++ post) []
                 = (post, [(2, keyword); (1, body)]) :: l) as [l E].
    { unfold docRegex. rewrite run_Lit_Some.
      destruct (run_lazy_group
                  (Seq (Lit "*/")
                     (Seq (Star true is_space)
                        (Group 2 (Alt (Lit "contract") (Lit "function")))))
                  body (lit "*/" ++ ws ++ keyword ++ post) []) as [l ->].
      { intros u1 u2 c -> Hu2. apply run_Lit_None.
        by eapply (no_early_occurrence (lit "*/")). }
      rewrite run_Lit_Some.
      assert (stops is_space (keyword ++ post)) as Hstop
        by (by destruct Hkeyword as [-> | ->]).
      destruct (star_greedy_head is_space ws (keyword ++ post) Hws Hstop) as [l' E'].
      cbn [run]. rewrite E'. cbn [map flat_map fst snd].
      destruct Hkeyword as [-> | ->].
      - rewrite strip_prefix_app. cbn [app map fst snd].
        rewrite take_consumed. by eexists.
      - rewrite strip_prefix_app.
        assert (strip_prefix (lit "contract") (lit "function" ++ post) = None) as ->
          by done.
        cbn [app map fst snd]. rewrite take_consumed. by eexists. }
    assert (("/**" +++ [nl]) ++ body ++ lit "*/" ++ ws ++ keyword ≠ []) as Hne by done.
    pose proof (exec_all_here docRegex
                  (("/**" +++ [nl]) ++ body ++ lit "*/" ++ ws ++ keyword) post
                  [(2, keyword); (1, body)] l Hne) as Hhere.
    assert ((("/**" +++ [nl]) ++ body ++ lit "*/" ++ ws ++ keyword) ++ post
            = ("/**" +++ [nl]) ++ body ++ lit "*/" ++ ws ++ keyword ++ post) as Heq
      by (by rewrite <- !app_assoc).
    rewrite Heq in Hhere. rewrite (Hhere E). done.
  - intros pre1 u -> Hu. apply run_Lit_None.
    by eapply (no_early_occurrence ("/**" +++ [nl])).
Qed.

Lemma extractSolidityDocs_comment_witness :
  includes (lit "pragma solidity ^0.8.24; ") ("/**" +++ [nl]) = false ∧
  includes (lit " * @title Vault ") "*/" = false ∧
  extractSolidityDocs
    (lit "pragma solidity ^0.8.24; " ++ ("/**" +++ [nl]) ++ lit " * @title Vault " ++
     lit "*/" ++ lit " " ++ lit "contract" ++ lit " Vault {}")
  = solidityDoc (lit " * @title Vault ") ++ extractSolidityDocs (lit " Vault {}").
Proof.
  split; [reflexivity|]. split; [reflexivity|].
  apply (extractSolidityDocs_comment (lit "pragma solidity ^0.8.24; ")
           (lit " * @title Vault ") (lit " ") (lit "contract") (lit " Vault {}")).
  - reflexivity.
  - reflexivity.
  - by repeat constructor.
  - by left.
Defined.

(** ** Distinct keys, distinct projects *)

Lemma upper_char_upper c : is_lower c = true → is_upper (upper_char c) = true.
Proof. destruct c as [[] [] [] [] [] [] [] []]; vm_compute; congruence. Qed.

Lemma lower_char_upper_char_lower c : is_lower c = true → lower_char (upper_char c) = c.
Proof. destruct c as [[] [] [] [] [] [] [] []]; vm_compute; congruence. Qed.

Lemma lower_digit_not_upper c : is_lower c || is_digit c = true → negb (is_upper c) = true.
Proof. destruct c as [[] [] [] [] [] [] [] []]; vm_compute; congruence. Qed.

Lemma upper_first_letter_segment w :
  letter_segment w →
  ∃ u rest, upper_first w = u :: rest ∧ is_upper u = true ∧
            all_chars (λ c, negb (is_upper c)) rest.
Proof.
  intros (c & w' & -> & Hc & Hw'). exists (upper_char c), w'.
  split; [done|]. split; [by apply upper_char_upper|].
  eapply Forall_impl; [exact Hw'|]. apply lower_digit_not_upper.
Qed.

Lemma upper_first_inj w1 w2 :
  letter_segment w1 → letter_segment w2 → upper_first w1 = upper_first w2 → w1 = w2.
Proof.
  intros (c1 & w1' & -> & Hc1 & _) (c2 & w2' & -> & Hc2 & _). cbn [upper_first].
  intros [= E ->]. f_equal.
  by rewrite <- (lower_char_upper_char_lower c1), <- (lower_char_upper_char_lower c2), E.
Qed.

(** The segments can be read off the transformed name: each starts at an
    upper-case letter. *)
Lemma upper_first_concat_inj (segs1 segs2 : list str) :
  Forall letter_segment segs1 → Forall letter_segment segs2 →
  List.concat (map upper_first segs1) = List.concat (map upper_first segs2) →
  segs1 = segs2.
Proof.
  intros H1. revert segs2. induction H1 as [|w1 segs1 Hw1 Hsegs1 IH]; intros segs2 H2 E.
  - destruct H2 as [|w2 segs2 Hw2 _]; [done|].
    destruct (upper_first_letter_segment w2 Hw2) as (u & rest & Eu & _).
    cbn [map List.concat] in E. by rewrite Eu in E.
  - destruct H2 as [|w2 segs2 Hw2 Hsegs2].
    + destruct (upper_first_letter_segment w1 Hw1) as (u & rest & Eu & _).
      cbn [map List.concat] in E. by rewrite Eu in E.
    + pose proof (upper_first_letter_segment w1 Hw1) as (u1 & r1 & E1 & Hu1 & Hr1).
      pose proof (upper_first_letter_segment w2 Hw2) as (u2 & r2 & E2 & Hu2 & Hr2).
      assert (∀ segs, Forall letter_segment segs →
                stops (λ c, negb (is_upper c)) (List.concat (map upper_first segs)))
        as Hstops.
      { intros segs [|w segs' Hw _]; [done|].
        destruct (upper_first_letter_segment w Hw) as (u & r & Eu & Hu & _).
        cbn [map List.concat]. rewrite Eu. cbn. by rewrite Hu. }
      cbn [map List.concat] in E. rewrite E1, E2 in E. injection E as -> E.
      apply run_unique with (p := λ c, negb (is_upper c)) in E as [-> E];
        [|done|done|by apply Hstops..].
      f_equal; [|by apply IH].
      apply upper_first_inj; [done..|]. by rewrite E1, E2.
Qed.

Lemma catalog_keys_letter_kebab :
  Forall (λ entry : str * CreateExample.ExampleConfig, letter_kebab entry.1)
         CreateExample.EXAMPLE_CATEGORIES.
Proof.
  repeat constructor;
    (eexists _, _; split; [reflexivity|]; split; [reflexivity|]; by repeat constructor).
Qed.

Lemma convertToCamelCase_inj key1 key2 :
  letter_kebab key1 → letter_kebab key2 →
  convertToCamelCase key1 = convertToCamelCase key2 → key1 = key2.
Proof.
  intros H1 H2 E. rewrite !convertToCamelCase_concat in E.
  apply upper_first_concat_inj in E; [|done..].
  by rewrite <- (join_split "-"%char key1), <- (join_split "-"%char key2), E.
Qed.

Lemma catalog_key_letter_kebab key config :
  table_get CreateExample.EXAMPLE_CATEGORIES key = Some config → letter_kebab key.
Proof.
  intros Hkey%table_get_In.
  pose proof catalog_keys_letter_kebab as H. rewrite Forall_forall in H.
  apply (H _ Hkey).
Qed.

(** X18.  On kebab-case names whose segments start with a letter,
    [convertToCamelCase] is injective, so two such keys never share a project
    directory; the keys of the catalog are of that kind.  A segment that
    starts with a digit is left as it is, and then two keys can share a
    name. *)
Theorem convertToCamelCase_injective :
  (∀ key1 key2, letter_kebab key1 → letter_kebab key2 →
     convertToCamelCase key1 = convertToCamelCase key2 → key1 = key2) ∧
  (∀ key config, table_get CreateExample.EXAMPLE_CATEGORIES key = Some config →
     letter_kebab key) ∧
  (∀ key1 key2 config1 config2,
     table_get CreateExample.EXAMPLE_CATEGORIES key1 = Some config1 →
     table_get CreateExample.EXAMPLE_CATEGORIES key2 = Some config2 →
     key1 ≠ key2 → convertToCamelCase key1 ≠ convertToCamelCase key2) ∧
  convertToCamelCase "level-2" = convertToCamelCase "level2".
Proof.
  split; [apply convertToCamelCase_inj|]. split; [apply catalog_key_letter_kebab|].
  split; [|reflexivity].
  intros key1 key2 config1 config2 H1 H2 Hne E. apply Hne.
  apply convertToCamelCase_inj; [by eapply catalog_key_letter_kebab..|done].
Qed.

Lemma convertToCamelCase_injective_witness :
  letter_kebab (lit "user-decryption") ∧ letter_kebab (lit "userdecryption") ∧
  convertToCamelCase "user-decryption" ≠ convertToCamelCase "userdecryption".
Proof.
  assert (letter_kebab (lit "user-decryption")) as H1
    by (repeat constructor;
        (eexists _, _; split; [reflexivity|]; split; [reflexivity|]; by repeat constructor)).
  assert (letter_kebab (lit "userdecryption")) as H2
    by (repeat constructor;
        (eexists _, _; split; [reflexivity|]; split; [reflexivity|]; by repeat constructor)).
  split; [exact H1|]. split; [exact H2|].
  intros E. by apply (proj1 convertToCamelCase_injective _ _ H1 H2) in E.
Defined.

(** X19.  Two examples in one output directory, in a world with room for the
    projects of two catalog keys.  After [generateExample] for the first key
    there is still room for the project of the second; the run for the
    second key completes and leaves every file in the project directory of
    the first as it is. *)
Theorem generateExample_apart (key1 key2 outputDir : str)
    (config1 config2 : CreateExample.ExampleConfig) (w : world) :
  table_get CreateExample.EXAMPLE_CATEGORIES key1 = Some config1 →
  table_get CreateExample.EXAMPLE_CATEGORIES key2 = Some config2 →
  key1 ≠ key2 →
  project_room w outputDir key1 = true →
  project_room w outputDir key2 = true →
  let base := path_of_string outputDir in
  let first := CreateExample.generateExample key1 outputDir w in
  let second := CreateExample.generateExample key2 outputDir first.2 in
  first.1 = Done () ∧
  project_room first.2 outputDir key2 = true ∧
  second.1 = Done () ∧
  (∀ rel, files second.2 !! project_file base (convertToCamelCase key1) rel
          = files first.2 !! project_file base (convertToCamelCase key1) rel) ∧
  dirs first.2 ⊆ dirs second.2.
Proof.
  intros H1 H2 Hne _ Hroom2. cbv zeta.
  assert (convertToCamelCase key2 ≠ convertToCamelCase key1) as HName.
  { intros E. apply Hne. symmetry.
    apply convertToCamelCase_inj; [by eapply catalog_key_letter_kebab..|done]. }
  destruct (generateExample_run key1 outputDir config1 w H1)
    as (D1 & out1 & -> & Hsub1 & _ & Hnew1).
  cbn [fst snd]. split; [done|]. split.
  { unfold project_room in *. cbv zeta in *.
    apply (room_for_apart w); [done| |done|].
    - intros d q (seed & -> & _)%list_elem_of_fmap Hq.
      rewrite !lookup_insert_ne; [done|..];
        intros <-; by apply project_paths_apart in Hq.
    - intros p (rel & -> & _)%list_elem_of_fmap [?|(seed & _ & Hq)]%Hnew1; [done|].
      by apply project_paths_apart in Hq. }
  match goal with
  | |- context [CreateExample.generateExample key2 outputDir ?W] =>
      destruct (generateExample_run key2 outputDir config2 W H2)
        as (D2 & out2 & -> & Hsub & _)
  end.
  cbn [fst snd files dirs] in *. split; [done|]. split; [|done].
  intros rel.
  do 6 (rewrite lookup_insert_ne;
        [|unfold project_file; intros [= E%app_inv_head]; by injection E]).
  done.
Qed.

Lemma generateExample_apart_witness :
  project_room (World ∅ ∅ []) "examples" "user-decryption" = true ∧
  project_room (World ∅ ∅ []) "examples" "public-decryption" = true ∧
  (CreateExample.generateExample "public-decryption" "examples"
     (CreateExample.generateExample "user-decryption" "examples" (World ∅ ∅ [])).2).1
  = Done ().
Proof.
  split; [vm_compute; reflexivity|]. split; [vm_compute; reflexivity|].
  eapply (generateExample_apart "user-decryption" "public-decryption" "examples" _ _
            (World ∅ ∅ []));
    [reflexivity|reflexivity|done|vm_compute; reflexivity|vm_compute; reflexivity].
Defined.

(** ** Fields read from tags *)

Lemma trimStart_fixed c s : is_space c = false → trimStart (c :: s) = c :: s.
Proof. intros H. cbn [trimStart]. by rewrite H. Qed.

Lemma trimStart_cases s :
  trimStart s = [] ∨ ∃ c t, trimStart s = c :: t ∧ is_space c = false.
Proof.
  induction s as [|x s IH]; [by left|]. cbn [trimStart].
  destruct (is_space x) eqn:E; [done|]. right. by exists x, s.
Qed.

Lemma trimStart_idem s : trimStart (trimStart s) = trimStart s.
Proof.
  destruct (trimStart_cases s) as [->|(c & t & -> & Hc)]; [done|].
  by apply trimStart_fixed.
Qed.

Lemma trimStart_snoc s c :
  is_space c = false → trimStart (s ++ [c]) = trimStart s ++ [c].
Proof.
  intros Hc. induction s as [|x s IH]; cbn [app trimStart].
  - by rewrite Hc.
  - by destruct (is_space x).
Qed.

Lemma trimEnd_cons c s : is_space c = false → trimEnd (c :: s) = c :: trimEnd s.
Proof.
  intros Hc. unfold trimEnd. cbn [rev].
  by rewrite trimStart_snoc, rev_app_distr.
Qed.

Lemma trimEnd_idem s : trimEnd (trimEnd s) = trimEnd s.
Proof. unfold trimEnd. by rewrite rev_involutive, trimStart_idem. Qed.

Lemma trim_idem s : trim (trim s) = trim s.
Proof.
  unfold trim. destruct (trimStart_cases s) as [->|(c & t & -> & Hc)]; [done|].
  rewrite (trimEnd_cons c t Hc), (trimStart_fixed c _ Hc), (trimEnd_cons c _ Hc).
  by rewrite trimEnd_idem.
Qed.

Lemma trimStart_Forall (P : ascii → Prop) s : Forall P s → Forall P (trimStart s).
Proof.
  induction 1 as [|x s Hx Hs IH]; [done|]. cbn [trimStart].
  destruct (is_space x); [done|by constructor].
Qed.

Lemma trim_Forall (P : ascii → Prop) s : Forall P s → Forall P (trim s).
Proof.
  intros H. unfold trim, trimEnd.
  by apply Forall_rev, trimStart_Forall, Forall_rev, trimStart_Forall.
Qed.

Lemma tag_value_tidy tag block value : tag_value tag block value → tidy value.
Proof.
  intros (pre & ws & text & post & _ & _ & _ & _ & _ & _ & Htext & _ & ->). split.
  - apply trim_idem.
  - by apply trim_Forall.
Qed.

Lemma trimmed_or_tidy fallback tag block :
  tidy fallback → tidy (trimmed_or fallback (search (tagRegex tag) block)).
Proof.
  intros Hfallback.
  destruct (trimmed_or_spec fallback tag block) as [[_ ->]|[_ H]]; [done|].
  by eapply tag_value_tidy.
Qed.

Lemma tidy_general : tidy (lit "general").
Proof. split; [reflexivity|by repeat constructor]. Qed.

Lemma tidy_nil : tidy [].
Proof. split; [reflexivity|constructor]. Qed.

(** X20.  The fields of a record.  In every record of either extractor, the
    category, the chapter and the description are on one line and have no
    white space at either end, whether they come from a tag or are the
    default; so is the name of a record of a contract file.  The name of a
    record of a test file is the quoted title as it stands, white space at
    its ends included. *)
Theorem record_fields_tidy (content : str) (record : DocMetadata) :
  (In record (extractSolidityDocs content) ∨ In record (extractTestDocs content) →
   tidy (category record) ∧ tidy (chapter record) ∧ tidy (description record)) ∧
  (In record (extractSolidityDocs content) → tidy (name record)) ∧
  extractTestDocs (unlines [lit "/** */"; "it(" +++ dq +++ " padded " +++ dq +++ ", f);"])
  = [ {| name := " padded "; category := "general"; chapter := "general";
         description := [] |} ].
Proof.
  split; [|split; [|reflexivity]].
  - intros [(caps & _ & Hrecord)%in_flat_map|(block & line & _ & Hrecord)%scanLines_origin].
    + unfold solidityDoc in Hrecord.
      destruct (search (tagRegex "@title") (group 1 caps)); [|done].
      destruct Hrecord as [<-|[]]. cbn [category chapter description].
      split; [|split]; apply trimmed_or_tidy; first [apply tidy_general|apply tidy_nil].
    + unfold testDoc in Hrecord. destruct (_ && _); [|done].
      destruct (search testNameRegex line); [|done].
      destruct Hrecord as [<-|[]]. cbn [category chapter description].
      split; [|split]; apply trimmed_or_tidy; first [apply tidy_general|apply tidy_nil].
  - intros (caps & _ & Hrecord)%in_flat_map. unfold solidityDoc in Hrecord.
    destruct (search (tagRegex "@title") (group 1 caps)) as [[c' post]|] eqn:E; [|done].
    destruct Hrecord as [<-|[]]. cbn [name fst].
    apply search_Some_matches in E as (pre & t & _ & H).
    apply matches_tagRegex in H as (ws & text & _ & _ & _ & _ & Htext & ->).
    split; [apply trim_idem|by apply trim_Forall].
Qed.

Lemma record_fields_tidy_witness :
  In {| name := "Vault"; category := "general"; chapter := "general"; description := [] |}
     (extractSolidityDocs
        (unlines [lit "/**"; lit " * @title   Vault  "; lit " */"; lit "contract Vault {}"])) ∧
  tidy (lit "Vault").
Proof.
  assert (In {| name := "Vault"; category := "general"; chapter := "general";
                description := [] |}
             (extractSolidityDocs
                (unlines [lit "/**"; lit " * @title   Vault  "; lit " */";
                          lit "contract Vault {}"]))) as Hin
    by (vm_compute; by left).
  split; [exact Hin|].
  apply (proj1 (proj2 (record_fields_tidy _ _)) Hin).
Defined.
